(** * Gesture-driven Christmas-tree particle scene: model and verification

    Shallow embedding of the TypeScript sources

      - [types.ts]                      (AppMode, HandData, ParticleType)
      - [services/handTracking.ts]      (HandTrackingService.processResult)
      - [components/Experience.tsx]     (onHandData, animate, photo ingestion)

    JavaScript numbers are modelled by exact rationals [Q]: every threshold
    of the program (0.05, 0.15, 0.4, ...) is a decimal literal and every
    operation that the properties below depend on is a field operation or a
    comparison.  The transcendental helpers ([Math.sin], [Math.hypot],
    quaternion rotation) are kept abstract in the class [Numerics]. *)

From Stdlib Require Import QArith Qminmax Qabs Qround Qpower Lqa Lia List Bool Arith FinFun.
From stdpp Require Import base option list.
Import ListNotations.
Open Scope Q_scope.

#[local] Set Warnings "-register-all".

(** ** JavaScript comparisons on numbers *)

(** [a < b] as a boolean test. *)
Definition Qltb (a b : Q) : bool := negb (Qle_bool b a).

(** [a > b] as a boolean test. *)
Definition Qgtb (a b : Q) : bool := Qltb b a.

(** ** types.ts *)

Module AppMode.
Inductive t : Set := TREE | SCATTER | FOCUS.

Definition eqb (a b : t) : bool :=
  match a, b with
  | TREE, TREE | SCATTER, SCATTER | FOCUS, FOCUS => true
  | _, _ => false
  end.
End AppMode.

Inductive Gesture : Set := OPEN | CLOSED | PINCH | NONE.

Record HandData : Set := mkHandData {
  x : Q;               (* normalized 0-1 *)
  y : Q;               (* normalized 0-1 *)
  gesture : Gesture;
  pinchDistance : Q
}.

Module ParticleType.
Inductive t : Set :=
  SPHERE | CUBE | TRIANGLE | GIFT | SOCK | BELL | TIE | TREE | SANTA | PHOTO.
End ParticleType.

(** ** The part of three.js the program relies on *)

Module MathUtils.
(** [THREE.MathUtils.clamp(value, min, max)] is
    [Math.max(min, Math.min(max, value))]. *)
Definition clamp (value lo hi : Q) : Q := Qmax lo (Qmin hi value).

(** [THREE.MathUtils.lerp(x, y, t)] is [(1 - t) * x + t * y]. *)
Definition lerp (a b t : Q) : Q := (1 - t) * a + t * b.
End MathUtils.

Module Vector3.
Record t : Set := mk { x : Q; y : Q; z : Q }.

Definition zero : t := mk 0 0 0.

(** One coordinate of [Vector3.lerp]: [this.x += (v.x - this.x) * alpha]. *)
Definition lerp1 (cur target alpha : Q) : Q := cur + (target - cur) * alpha.

Definition lerp (this v : t) (alpha : Q) : t :=
  mk (lerp1 (x this) (x v) alpha)
     (lerp1 (y this) (y v) alpha)
     (lerp1 (z this) (z v) alpha).

Definition multiplyScalar (this : t) (s : Q) : t :=
  mk (x this * s) (y this * s) (z this * s).

(** [v.y += d]. *)
Definition addY (this : t) (d : Q) : t := mk (x this) (y this + d) (z this).
End Vector3.

(** Geometry attached to a mesh; only the parameters the program computes
    are recorded. *)
Inductive Geometry : Set :=
| PlaneGeometry (width height : Q)
| SphereGeometry (radius : Q)
| OtherGeometry
| NoGeometry.

(** A node of the scene graph.  JavaScript object identity is carried by
    [id] (three.js numbers every [Object3D]); [parent] is the chain of
    ancestors as it stands when the node is inspected.  The program links a
    node to its parent once, before the node becomes reachable from the
    particle collection, and never re-parents it afterwards. *)
Inductive Object3D : Set :=
  mkObject3D { id : nat; geometry : Geometry; parent : option Object3D }.

Definition Q_eqb (a b : Q) : bool :=
  (Qnum a =? Qnum b)%Z && (Qden a =? Qden b)%positive.

Definition Geometry_eqb (g1 g2 : Geometry) : bool :=
  match g1, g2 with
  | PlaneGeometry w1 h1, PlaneGeometry w2 h2 => Q_eqb w1 w2 && Q_eqb h1 h2
  | SphereGeometry r1, SphereGeometry r2 => Q_eqb r1 r2
  | OtherGeometry, OtherGeometry => true
  | NoGeometry, NoGeometry => true
  | _, _ => false
  end.

(** [a === b] on scene-graph nodes. *)
Fixpoint Object3D_eqb (a b : Object3D) : bool :=
  match a, b with
  | mkObject3D i g p, mkObject3D j h q =>
      (i =? j)%nat && Geometry_eqb g h &&
      match p, q with
      | Some p', Some q' => Object3D_eqb p' q'
      | None, None => true
      | _, _ => false
      end
  end.

(** The fixed nodes created by the scene set-up. *)
Definition scene : Object3D := mkObject3D 0 NoGeometry None.
Definition mainGroup : Object3D := mkObject3D 1 NoGeometry (Some scene).
Definition photoGroup : Object3D := mkObject3D 2 NoGeometry (Some mainGroup).

(** First identifier handed to a particle mesh. *)
Definition firstMeshId : nat := 3.

(** [isSelfOrAncestor o h]: [o] is [h] or one of the ancestors of [h]. *)
Fixpoint isSelfOrAncestor (o h : Object3D) : bool :=
  Object3D_eqb o h ||
  match h with
  | mkObject3D _ _ (Some p) => isSelfOrAncestor o p
  | mkObject3D _ _ None => false
  end.

Module Raycaster.
(** [raycaster.intersectObjects(objects, recursive)].  The ray is given by
    the nodes of the scene graph it pierces, nearest first; the call
    reports those that are one of [objects] or, when [recursive] is set,
    one of their descendants, in the same order. *)
Definition intersectObjects (ray : list Object3D)
    (objects : list Object3D) (recursive : bool) : list Object3D :=
  List.filter
    (fun h =>
       existsb (fun o => if recursive then isSelfOrAncestor o h
                         else Object3D_eqb o h) objects)
    ray.
End Raycaster.

(** Functions of the JavaScript run time and of three.js that have no
    rational model. *)
Class Numerics : Type := {
  Math_sin : Q -> Q;
  Math_hypot : Q -> Q -> Q;
  (** [(0, 0, 30)] taken through the inverse of the rotation of
      [mainGroup], whose Euler angles are the two arguments. *)
  focusAnchor : Q -> Q -> Vector3.t
}.

(** ** services/handTracking.ts *)

Module NormalizedLandmark.
Record t : Set := mk { x : Q; y : Q }.
End NormalizedLandmark.

(** [HandLandmarkerResult]: [landmarks] holds one list of landmarks per
    detected hand; the field may be missing. *)
Record HandLandmarkerResult : Set := mkResult {
  landmarks : option (list (list NormalizedLandmark.t))
}.

(** The sample emitted when no hand is seen. *)
Definition neutralSample : HandData := mkHandData 0.5 0.5 NONE 1.

Section HandTracking.
Context `{Numerics}.

Definition distance2D (a b : NormalizedLandmark.t) : Q :=
  Math_hypot (NormalizedLandmark.x a - NormalizedLandmark.x b)
             (NormalizedLandmark.y a - NormalizedLandmark.y b).

(** The [forEach] loop that counts the fingertips close to the wrist. *)
Definition countFolded (fingers : list NormalizedLandmark.t)
    (wrist : NormalizedLandmark.t) : nat :=
  fold_left
    (fun foldedCount f =>
       let distToWrist := distance2D f wrist in
       if Qltb distToWrist 0.15 then S foldedCount else foldedCount)
    fingers 0%nat.

(** Body of the first branch of [processResult], for the landmarks of the
    first hand.  Reading a landmark that is not there makes the property
    access throw: the result is [None]. *)
Definition classifyHand (lm : list NormalizedLandmark.t) : option HandData :=
  indexTip ← lm !! 8%nat;
  thumbTip ← lm !! 4%nat;
  middleTip ← lm !! 12%nat;
  ringTip ← lm !! 16%nat;
  pinkyTip ← lm !! 20%nat;
  wrist ← lm !! 0%nat;
  let pinchDist := distance2D indexTip thumbTip in
  let isPinching := Qltb pinchDist 0.05 in
  let fingers := [indexTip; middleTip; ringTip; pinkyTip] in
  let foldedCount := countFolded fingers wrist in
  let gesture :=
    if (3 <=? foldedCount)%nat then CLOSED
    else if isPinching then PINCH
    else OPEN in
  Some (mkHandData (1 - NormalizedLandmark.x indexTip)   (* mirror X *)
                   (NormalizedLandmark.y indexTip)
                   gesture
                   pinchDist).

(** [processResult(result)]: the sample handed to [onHandData], or [None]
    when the call throws. *)
Definition processResult (result : HandLandmarkerResult) : option HandData :=
  match landmarks result with
  | Some (lm :: _) => classifyHand lm
  | Some [] | None => Some neutralSample
  end.
End HandTracking.

(** ** components/Experience.tsx *)

Record Particle : Set := mkParticle {
  mesh : Object3D;
  type : ParticleType.t;
  treePos : Vector3.t;
  scatterPos : Vector3.t;
  spin : Vector3.t;
  baseScale : Q;
  isPhoto : bool;
  transitionType : option nat;     (* present on photo particles only *)
  (* transform of [mesh], mutated by every tick *)
  meshPosition : Vector3.t;        (* [mesh.position] *)
  meshScale : Q                    (* [mesh.scale.x] *)
}.

(** [stateRef.current], together with the React state [mode], the counter
    [processedImagesCount] and the supply of fresh node identifiers. *)
Record State : Set := mkState {
  mode : AppMode.t;
  handData : HandData;
  focusTarget : option Object3D;
  particles : list Particle;
  rotationX : Q;
  rotationY : Q;
  targetRotationX : Q;
  targetRotationY : Q;
  smoothedPinch : Q;
  uiMode : AppMode.t;              (* [useState<AppMode>] *)
  processedImagesCount : nat;
  nextId : nat
}.

Definition initialState : State :=
  mkState AppMode.SCATTER neutralSample None [] 0 0 0 0 0.05
          AppMode.SCATTER 0 firstMeshId.

Definition set_handData (d : HandData) (s : State) : State :=
  mkState (mode s) d (focusTarget s) (particles s) (rotationX s) (rotationY s)
          (targetRotationX s) (targetRotationY s) (smoothedPinch s)
          (uiMode s) (processedImagesCount s) (nextId s).

(** [stateRef.current.mode = m; stateRef.current.focusTarget = f]. *)
Definition set_mode_focus (m : AppMode.t) (f : option Object3D) (s : State) : State :=
  mkState m (handData s) f (particles s) (rotationX s) (rotationY s)
          (targetRotationX s) (targetRotationY s) (smoothedPinch s)
          (uiMode s) (processedImagesCount s) (nextId s).

(** [setMode(m)]. *)
Definition setMode (m : AppMode.t) (s : State) : State :=
  mkState (mode s) (handData s) (focusTarget s) (particles s) (rotationX s)
          (rotationY s) (targetRotationX s) (targetRotationY s) (smoothedPinch s)
          m (processedImagesCount s) (nextId s).

Definition set_smoothedPinch (v : Q) (s : State) : State :=
  mkState (mode s) (handData s) (focusTarget s) (particles s) (rotationX s)
          (rotationY s) (targetRotationX s) (targetRotationY s) v
          (uiMode s) (processedImagesCount s) (nextId s).

Definition set_rotation (rx ry : Q) (s : State) : State :=
  mkState (mode s) (handData s) (focusTarget s) (particles s) rx ry
          (targetRotationX s) (targetRotationY s) (smoothedPinch s)
          (uiMode s) (processedImagesCount s) (nextId s).

Definition set_particles (ps : list Particle) (s : State) : State :=
  mkState (mode s) (handData s) (focusTarget s) ps (rotationX s) (rotationY s)
          (targetRotationX s) (targetRotationY s) (smoothedPinch s)
          (uiMode s) (processedImagesCount s) (nextId s).

Definition set_processedImagesCount (n : nat) (s : State) : State :=
  mkState (mode s) (handData s) (focusTarget s) (particles s) (rotationX s)
          (rotationY s) (targetRotationX s) (targetRotationY s) (smoothedPinch s)
          (uiMode s) n (nextId s).

Definition set_nextId (n : nat) (s : State) : State :=
  mkState (mode s) (handData s) (focusTarget s) (particles s) (rotationX s)
          (rotationY s) (targetRotationX s) (targetRotationY s) (smoothedPinch s)
          (uiMode s) (processedImagesCount s) n.

(** *** Gesture callback *)

(** [handService.current.onHandData = (data) => { ... }]. *)
Definition onHandData (data : HandData) (s : State) : State :=
  let s := set_handData data s in
  let currentMode := mode s in
  let s :=
    match gesture data with
    | CLOSED => set_mode_focus AppMode.TREE None s
    | OPEN =>
        if negb (AppMode.eqb currentMode AppMode.FOCUS)
           || Qgtb (pinchDistance data) 0.4
        then set_mode_focus AppMode.SCATTER None s
        else s
    | _ => s
    end in
  setMode (mode s) s.

(** *** Animation loop *)

(** [p.mesh === stateRef.current.focusTarget]. *)
Definition isFocusTarget (s : State) (p : Particle) : bool :=
  match focusTarget s with
  | Some t => Object3D_eqb (mesh p) t
  | None => false
  end.

(** The [while] loop that walks from the hit node up to the node whose
    parent is missing, [mainGroup] or [photoGroup].  Both branches on
    [isRoot] move to the parent, as in the source. *)
Fixpoint climbToRoot (ps : list Particle) (target : Object3D) : Object3D :=
  match target with
  | mkObject3D _ _ None => target
  | mkObject3D _ _ (Some par) =>
      if negb (Object3D_eqb par mainGroup) && negb (Object3D_eqb par photoGroup)
      then
        let isRoot := existsb (fun p => Object3D_eqb (mesh p) par) ps in
        if isRoot then climbToRoot ps par else climbToRoot ps par
      else target
  end.

(** "Raycasting Logic" of [animate].  [ray] lists the nodes pierced by the
    ray cast from the camera through the cursor, nearest first. *)
Definition resolveSelection (ray : list Object3D) (s : State) : State :=
  match gesture (handData s), focusTarget s with
  | PINCH, None =>
      let photos := map mesh (List.filter isPhoto (particles s)) in
      let intersects := Raycaster.intersectObjects ray photos true in
      match intersects with
      | hit :: _ =>
          let target := climbToRoot (particles s) hit in
          match List.find (fun p => Object3D_eqb (mesh p) target) (particles s) with
          | Some particle =>
              setMode AppMode.FOCUS
                (set_mode_focus AppMode.FOCUS (Some (mesh particle)) s)
          | None => s
          end
      | [] => s
      end
  | _, _ => s
  end.

Definition lerpSpeed (p : Particle) : Q := if isPhoto p then 6 else 4.

(** Target scale of particle [p] in the "Particle Updates" loop. *)
Definition targetScale (s : State) (pinchVal : Q) (p : Particle) : Q :=
  match mode s with
  | AppMode.FOCUS =>
      if isFocusTarget s p then
        let zoomFactor := MathUtils.clamp pinchVal 0.0 0.4 in
        5 + (zoomFactor * 12)
      else 0
  | _ => baseScale p
  end.

Definition Q_of_nat (i : nat) : Q := inject_Z (Z.of_nat i).

Section Animate.
Context `{Numerics}.

(** Target position of particle [p], the [i]-th of the collection. *)
Definition targetPos (s : State) (elapsed groupRotX groupRotY : Q)
    (i : nat) (p : Particle) : Vector3.t :=
  match mode s with
  | AppMode.TREE =>
      Vector3.addY (treePos p)
        (Math_sin (elapsed * 1.5 + Q_of_nat i * 0.1) * 0.1)
  | AppMode.SCATTER =>
      Vector3.addY (scatterPos p)
        (Math_sin (elapsed * 0.8 + Q_of_nat i) * 0.3)
  | AppMode.FOCUS =>
      if isFocusTarget s p then focusAnchor groupRotX groupRotY
      else Vector3.multiplyScalar (scatterPos p) 1.8
  end.

(** Body of [particles.forEach((p, i) => ...)]; the orientation of the
    mesh is not modelled. *)
Definition updateParticle (s : State) (delta elapsed pinchVal groupRotX groupRotY : Q)
    (i : nat) (p : Particle) : Particle :=
  let tPos := targetPos s elapsed groupRotX groupRotY i p in
  let tScale := targetScale s pinchVal p in
  let position := Vector3.lerp (meshPosition p) tPos (lerpSpeed p * delta) in
  let currentScale := meshScale p in
  let nextScale := MathUtils.lerp currentScale tScale (5 * delta) in
  mkParticle (mesh p) (type p) (treePos p) (scatterPos p) (spin p)
             (baseScale p) (isPhoto p) (transitionType p) position nextScale.

(** One frame: [delta = clock.getDelta()], [elapsed =
    clock.getElapsedTime()], [ray] the nodes under the cursor ray.  Lights,
    snow, the cursor mesh and the star only feed the renderer and are left
    out.  The raycasting block reads [handData], [particles] and
    [focusTarget] from the snapshot taken when the frame starts; nothing
    has changed them when it runs. *)
Definition animate (delta elapsed : Q) (ray : list Object3D) (s0 : State) : State :=
  let mode0 := mode s0 in
  let hd := handData s0 in
  let s := set_smoothedPinch
             (smoothedPinch s0 + (pinchDistance hd - smoothedPinch s0) * 0.1) s0 in
  let pinchVal := smoothedPinch s in
  (* hand rotation *)
  let targetRotY := (x hd - 0.5) * 3 in
  let targetRotX := (y hd - 0.5) * 1.5 in
  let s := set_rotation
             (rotationX s + (targetRotX - rotationX s) * 2.5 * delta)
             (rotationY s + (targetRotY - rotationY s) * 2.5 * delta) s in
  let groupRotX := rotationX s in
  let groupRotY :=
    match mode0, gesture hd with
    | AppMode.SCATTER, NONE => rotationY s + 0.1 * delta
    | _, _ => rotationY s
    end in
  (* raycasting *)
  let s := resolveSelection ray s in
  (* particle updates *)
  set_particles
    (imap (updateParticle s delta elapsed pinchVal groupRotX groupRotY)
          (particles s))
    s.
End Animate.

(** *** Scene set-up: the decorative particles *)

Module CONFIG.
Definition count : nat := 800.
Definition treeHeight : Q := 25.
Definition treeRadius : Q := 9.
End CONFIG.

Arguments CONFIG.count : simpl never.

(** The random draws that place one decorative particle. *)
Record DecorDraw : Set := mkDecorDraw {
  drawType : ParticleType.t;      (* never [PHOTO] in the source's table *)
  drawTreePos : Vector3.t;        (* [getTreePos()] *)
  drawScatterPos : Vector3.t;     (* [getScatterPos()] *)
  drawSpin : Vector3.t;
  drawScale : Q                   (* [Math.random()] of [baseScale] *)
}.

Definition decorGeometry (ty : ParticleType.t) : Geometry :=
  match ty with
  | ParticleType.GIFT | ParticleType.SOCK | ParticleType.BELL
  | ParticleType.TIE | ParticleType.TREE | ParticleType.SANTA =>
      PlaneGeometry 0.8 0.8
  | ParticleType.SPHERE => SphereGeometry 0.4
  | _ => OtherGeometry
  end.

(** Body of the loop [for (let i = 0; i < CONFIG.particles.count; i++)]. *)
Definition createParticle (draws : nat -> DecorDraw) (i : nat) : Particle :=
  let d := draws i in
  let mesh := mkObject3D (firstMeshId + i) (decorGeometry (drawType d))
                         (Some mainGroup) in            (* [mainGroup.add(mesh)] *)
  mkParticle mesh (drawType d) (drawTreePos d) (drawScatterPos d) (drawSpin d)
             (0.8 + drawScale d * 0.6) false None Vector3.zero 1.

Definition createParticles (draws : nat -> DecorDraw) : list Particle :=
  map (createParticle draws) (seq 0 CONFIG.count).

(** The mount effect, as far as the state is concerned:
    [stateRef.current.particles = particles]. *)
Definition setup (draws : nat -> DecorDraw) (s : State) : State :=
  set_nextId (firstMeshId + CONFIG.count)%nat
             (set_particles (createParticles draws) s).

(** *** Photo ingestion *)

(** What loading an uploaded URL gives: a decoded image with its pixel
    dimensions, or a failure (the [onload] handler never runs). *)
Inductive ImageSource : Set :=
| Decodable (width height : positive)
| Undecodable.

(** "Calculate dimensions": width and height of the photo plane. *)
Definition displaySize (aspect : Q) : Q * Q :=
  let w := 3 in
  let h := 3 / aspect in
  if Qltb aspect 1 then (3 * aspect, 3) else (w, h).

(** The random draws used for one photo. *)
Record PhotoDraw : Set := mkPhotoDraw {
  drawShell : Vector3.t;          (* point of the shell of radius 20..30 *)
  drawPhotoTree : Vector3.t;      (* slot on the tree *)
  drawSpinX : Q;                  (* three results of [Math.random()] *)
  drawSpinY : Q;
  drawTransition : Q
}.

(** The frame and the invisible hit volume that [img.onload] hangs under
    the photo mesh [m]. *)
Definition frameOf (m : Object3D) : Object3D :=
  match geometry m with
  | PlaneGeometry w h =>
      mkObject3D (id m + 1) (PlaneGeometry (w + 0.15) (h + 0.15)) (Some m)
  | _ => mkObject3D (id m + 1) OtherGeometry (Some m)
  end.

Definition hitMeshOf (m : Object3D) : Object3D :=
  match geometry m with
  | PlaneGeometry w h =>
      mkObject3D (id m + 2) (SphereGeometry (Qmax w h * 0.8)) (Some m)
  | _ => mkObject3D (id m + 2) OtherGeometry (Some m)
  end.

(** The listener of the ['add-photo'] event.  [m] is the mesh found in
    [e.detail], [pos] its position. *)
Definition addPhotoHandler (m : Object3D) (d : PhotoDraw) (s : State) : State :=
  let pos := drawShell d in
  let newParticle (par : Object3D) :=
    mkParticle (mkObject3D (id m) (geometry m) (Some par))  (* [parent.add(mesh)] *)
               ParticleType.PHOTO
               (drawPhotoTree d)
               pos                                           (* [mesh.position.clone()] *)
               (Vector3.multiplyScalar
                  (Vector3.mk (drawSpinX d - 0.5) (drawSpinY d - 0.5) 0) 0.02)
               1.0 true
               (Some (Z.to_nat (Qfloor (drawTransition d * 3))))
               pos 1 in
  match particles s with
  | p0 :: _ =>
      match parent (mesh p0) with
      | Some par => set_particles (particles s ++ [newParticle par]) s
      | None => s
      end
  | [] => s
  end.

(** [img.onload] for a decoded image of the given pixel size: build the
    mesh, then dispatch ['add-photo']. *)
Definition imgOnload (width height : positive) (d : PhotoDraw) (s : State) : State :=
  let aspect := Zpos width # height in
  let '(w, h) := displaySize aspect in
  let m := mkObject3D (nextId s) (PlaneGeometry w h) None in
  (* the frame and the hit volume take the next two identifiers *)
  let s := set_nextId (nextId s + 3)%nat s in
  addPhotoHandler m d s.

(** Completion of the load of one uploaded image. *)
Definition loadImage (img : ImageSource) (d : PhotoDraw) (s : State) : State :=
  match img with
  | Decodable width height => imgOnload width height d s
  | Undecodable => s
  end.

(** The effect on [uploadedImages]: the images whose load is started, and
    the state with the cursor [processedImagesCount] advanced. *)
Definition uploadEffect (uploadedImages : list ImageSource) (s : State)
    : list ImageSource * State :=
  let newImages := drop (processedImagesCount s) uploadedImages in
  if (0 <? length newImages)%nat
  then (newImages, set_processedImagesCount (length uploadedImages) s)
  else ([], s).

(** The loads of a batch complete one after the other, in the order given. *)
Fixpoint ingest (batch : list (ImageSource * PhotoDraw)) (s : State) : State :=
  match batch with
  | [] => s
  | (img, d) :: rest => ingest rest (loadImage img d s)
  end.

(** Number of interactive particles of the field. *)
Definition interactiveCount (s : State) : nat :=
  length (List.filter isPhoto (particles s)).

(** *** Runs of the system *)

(** What can happen after the mount effect: the classifier delivers a
    sample, a frame is drawn, the list of uploads changes, the load of an
    image completes.  The callbacks run to completion one at a time. *)
Inductive Event : Set :=
| EvHand (data : HandData)
| EvFrame (delta elapsed : Q) (ray : list Object3D)
| EvUpload (uploadedImages : list ImageSource)
| EvImage (img : ImageSource) (d : PhotoDraw).

Section Run.
Context `{Numerics}.

Definition step (s : State) (e : Event) : State :=
  match e with
  | EvHand data => onHandData data s
  | EvFrame delta elapsed ray => animate delta elapsed ray s
  | EvUpload imgs => snd (uploadEffect imgs s)
  | EvImage img d => loadImage img d s
  end.

Definition run (evs : list Event) (s : State) : State := fold_left step evs s.

(** The states the mounted component can be in. *)
Definition reachable (s : State) : Prop :=
  exists draws evs, s = run evs (setup draws initialState).
End Run.

(** The state-machine invariant: a focus target is present exactly in
    [FOCUS] mode. *)
Definition focusConsistent (s : State) : Prop :=
  is_Some (focusTarget s) <-> mode s = AppMode.FOCUS.

(** ** Notions used in the statements *)

(** The scene graph as the program builds it: every particle mesh hangs
    directly under [mainGroup], carries an identifier of its own, and the
    identifier supply is ahead of all of them. *)
Definition sceneWellFormed (s : State) : Prop :=
  Forall (fun p => parent (mesh p) = Some mainGroup /\
                   (firstMeshId <= id (mesh p) < nextId s)%nat) (particles s) /\
  List.NoDup (map (fun p => id (mesh p)) (particles s)).

(** The guard of the ['add-photo'] listener: the collection is not empty
    and its first mesh is attached. *)
Definition sceneReady (s : State) : Prop :=
  exists p0 rest par, particles s = p0 :: rest /\ parent (mesh p0) = Some par.

Definition isDecodable (img : ImageSource) : bool :=
  match img with Decodable _ _ => true | Undecodable => false end.

(** Number of decodable images of a batch. *)
Definition validCount (batch : list (ImageSource * PhotoDraw)) : nat :=
  length (List.filter (fun b => isDecodable (fst b)) batch).

Definition shortSide (wh : Q * Q) : Q := Qmin (fst wh) (snd wh).
Definition longSide (wh : Q * Q) : Q := Qmax (fst wh) (snd wh).

(** A coordinate chasing [target] over successive frames of durations
    [dts], at interpolation rate [rate] (4 or 6 for positions, 5 for the
    scale in [updateParticle]). *)
Definition lerpRun (target rate : Q) (dts : list Q) (cur : Q) : Q :=
  fold_left (fun c dt => Vector3.lerp1 c target (rate * dt)) dts cur.

(** Position error. *)
Definition lerpError (target cur : Q) : Q := Qabs (target - cur).

(** Frames and [PINCH] samples only. *)
Definition isPinchOrFrame (e : Event) : bool :=
  match e with
  | EvHand data => match gesture data with PINCH => true | _ => false end
  | EvFrame _ _ _ => true
  | _ => false
  end.

Definition isFrame (e : Event) : bool :=
  match e with EvFrame _ _ _ => true | _ => false end.

Section GestureSpec.
Context `{Numerics}.

(** A fingertip counts as folded when it is less than 0.15 away from the
    wrist. *)
Definition isFolded (wrist f : NormalizedLandmark.t) : bool :=
  Qltb (distance2D f wrist) 0.15.

(** How many of the given fingertips are folded. *)
Definition foldedAmong (fingers : list NormalizedLandmark.t)
    (wrist : NormalizedLandmark.t) : nat :=
  length (List.filter (isFolded wrist) fingers).
End GestureSpec.

(** ** Sample data for the examples *)

(** A rational stand-in for the numeric helpers: the oscillation is
    switched off, lengths are taxicab lengths (which agree with
    [Math.hypot] on axis-parallel segments, the only ones used below) and
    the field is taken unrotated. *)
Definition sampleNumerics : Numerics :=
  {| Math_sin := fun _ => 0;
     Math_hypot := fun a b => Qabs a + Qabs b;
     focusAnchor := fun _ _ => Vector3.mk 0 0 30 |}.

Definition sampleDraws (i : nat) : DecorDraw :=
  mkDecorDraw ParticleType.SPHERE
              (Vector3.mk 1 (Q_of_nat i) 0) (Vector3.mk 15 0 (Q_of_nat i))
              (Vector3.mk 0.01 0 0) 0.5.

Definition samplePhotoDraw : PhotoDraw :=
  mkPhotoDraw (Vector3.mk 0 25 0) (Vector3.mk 2 3 0) 0.25 0.75 0.5.

(** The mounted scene, before any gesture. *)
Definition sampleScene : State := setup sampleDraws initialState.

(** One landscape photo (4:3) has been ingested. *)
Definition sampleLoaded : list Event := [EvImage (Decodable 4 3) samplePhotoDraw].

Definition samplePhotoMesh : Object3D :=
  mkObject3D (firstMeshId + CONFIG.count) (PlaneGeometry 3 (3 / (4 # 3)))
             (Some mainGroup).

Definition samplePinch : HandData := mkHandData 0.5 0.5 PINCH 0.03.

(** The user pinches while the cursor ray goes through the hit volume of
    the photo: the scene enters [FOCUS]. *)
Definition sampleFocusing : list Event :=
  sampleLoaded ++
  [EvHand samplePinch; EvFrame 0.016 1 [hitMeshOf samplePhotoMesh]].

Definition sampleFocus : State :=
  @run sampleNumerics sampleFocusing sampleScene.

(** The photo is loaded and the last sample is a pinch; nothing is focused
    yet. *)
Definition samplePinching : State :=
  @run sampleNumerics (sampleLoaded ++ [EvHand samplePinch]) sampleScene.

(** The photo particle of the sample scene. *)
Definition samplePhoto : Particle :=
  List.last (particles sampleFocus) (createParticle sampleDraws 0).

(** Decodable image loads among the events of a run. *)
Definition isValidLoad (e : Event) : bool :=
  match e with
  | EvImage img _ => isDecodable img
  | _ => false
  end.

Definition validLoads (evs : list Event) : nat :=
  length (List.filter isValidLoad evs).

(** Five decodable images and a corrupt one, completing in upload order. *)
Definition sampleBatch : list (ImageSource * PhotoDraw) :=
  [ (Decodable 4 3, samplePhotoDraw); (Decodable 3 4, samplePhotoDraw);
    (Undecodable, samplePhotoDraw);   (Decodable 1 1, samplePhotoDraw);
    (Decodable 16 9, samplePhotoDraw); (Decodable 2 1, samplePhotoDraw) ].

(** A hand given by the six landmarks the classifier reads; the other
    fifteen are put at the wrist. *)
Definition sampleHand (wrist thumbTip indexTip middleTip ringTip pinkyTip
    : NormalizedLandmark.t) : list NormalizedLandmark.t :=
  [wrist] ++ repeat wrist 3 ++ [thumbTip] ++ repeat wrist 3 ++ [indexTip] ++
  repeat wrist 3 ++ [middleTip] ++ repeat wrist 3 ++ [ringTip] ++
  repeat wrist 3 ++ [pinkyTip].

(** A fist whose thumb touches the index finger: three fingertips are
    0.1 away from the wrist, the index fingertip 0.2 away. *)
Definition sampleFist : HandLandmarkerResult :=
  mkResult (Some [sampleHand (NormalizedLandmark.mk 0.5 0.5)
                             (NormalizedLandmark.mk 0.5 0.71)
                             (NormalizedLandmark.mk 0.5 0.7)
                             (NormalizedLandmark.mk 0.5 0.6)
                             (NormalizedLandmark.mk 0.6 0.5)
                             (NormalizedLandmark.mk 0.4 0.5)]).

(** * The rest of the program *)

(** ** services/handTracking.ts: the polling loop *)

(** The fields of [HandTrackingService]: whether the landmarker and the
    video element are set, the time of the last video frame handed to the
    landmarker, and whether a frame callback is pending ([rafId]). *)
Record HandTrackingService : Set := mkService {
  handLandmarker : bool;
  video : bool;
  lastVideoTime : Q;
  framePending : bool
}.

Definition newService : HandTrackingService := mkService false false (-1) false.

(** [initialize()], when the model loads. *)
Definition initialize (st : HandTrackingService) : HandTrackingService :=
  mkService true (video st) (lastVideoTime st) (framePending st).

(** [startWebcam(videoElement)]; [predictWebcam] starts on ["loadeddata"]. *)
Definition startWebcam (st : HandTrackingService) : HandTrackingService :=
  mkService (handLandmarker st) true (lastVideoTime st) (framePending st).

Section Polling.
Context `{Numerics}.

(** [predictWebcam], called with the current time of the video and what
    [detectForVideo] would return for it.  The result is the new service
    state and the sample handed to [onHandData], if any.  When
    [processResult] throws, no further frame is requested. *)
Definition predictWebcam (currentTime : Q) (result : HandLandmarkerResult)
    (st : HandTrackingService) : HandTrackingService * option HandData :=
  if negb (handLandmarker st) || negb (video st)
  then (mkService (handLandmarker st) (video st) (lastVideoTime st) false, None)
  else if negb (Qeq_bool currentTime (lastVideoTime st))
  then
    match processResult result with
    | Some data => (mkService (handLandmarker st) (video st) currentTime true, Some data)
    | None => (mkService (handLandmarker st) (video st) currentTime false, None)
    end
  else (mkService (handLandmarker st) (video st) (lastVideoTime st) true, None).

(** The loop kept alive by [requestAnimationFrame]: one entry of [polls]
    per callback, as long as a callback is pending.  The samples delivered,
    in order, and the final state. *)
Fixpoint pollLoop (polls : list (Q * HandLandmarkerResult))
    (st : HandTrackingService) : list HandData * HandTrackingService :=
  match polls with
  | [] => ([], st)
  | (t, r) :: rest =>
      let '(st1, out) := predictWebcam t r st in
      let '(later, st2) := if framePending st1 then pollLoop rest st1 else ([], st1) in
      (match out with Some data => data :: later | None => later end, st2)
  end.

(** [processResult] hands its sample to the callback installed by
    [Experience]; [None] when it throws before the call. *)
Definition processAndDispatch (result : HandLandmarkerResult) (s : State)
    : option State :=
  match processResult result with
  | Some data => Some (onHandData data s)
  | None => None
  end.
End Polling.

(** Number of times the video time differs from the one before it. *)
Fixpoint timeChanges (last : Q) (times : list Q) : nat :=
  match times with
  | [] => 0
  | t :: rest => ((if Qeq_bool t last then 0 else 1) + timeChanges t rest)%nat
  end.

(** ** components/Experience.tsx: snow *)

Record Snowflake : Set := mkSnowflake {
  snowX : Q; snowY : Q; snowZ : Q;   (* [snowPos[i*3 ..]] *)
  snowVel : Q                        (* [snowVel[i]] *)
}.

(** One flake of the set-up loop, from four results of [Math.random()]. *)
Definition createSnowflake (r : Q * Q * Q * Q) : Snowflake :=
  let '(r1, r2, r3, r4) := r in
  mkSnowflake ((r1 - 0.5) * 70) ((r2 - 0.5) * 70) ((r3 - 0.5) * 50)
              (0.03 + r4 * 0.08).

Section Snow.
Context `{Numerics}.

(** Body of the snow loop of [animate] for flake [i]; [draw] holds the two
    results of [Math.random()] used when the flake is put back on top. *)
Definition snowStep (elapsed : Q) (draw : nat -> Q * Q) (i : nat)
    (f : Snowflake) : Snowflake :=
  let y1 := snowY f - snowVel f in
  let x1 := snowX f + Math_sin (elapsed + Q_of_nat i) * 0.01 in
  if Qltb y1 (-25)
  then mkSnowflake ((fst (draw i) - 0.5) * 70) 25 ((snd (draw i) - 0.5) * 50)
                   (snowVel f)
  else mkSnowflake x1 y1 (snowZ f) (snowVel f).

Definition snowFrame (elapsed : Q) (draw : nat -> Q * Q)
    (flakes : list Snowflake) : list Snowflake :=
  imap (snowStep elapsed draw) flakes.

(** The snow over successive frames. *)
Definition snowRun (frames : list (Q * (nat -> Q * Q)))
    (flakes : list Snowflake) : list Snowflake :=
  fold_left (fun fl fr => snowFrame (fst fr) (snd fr) fl) frames flakes.
End Snow.

(** ** components/Experience.tsx: rotation of the field *)

(** The value left in [mainGroup.rotation.y] by a frame that starts in
    state [s0]. *)
Definition groupRotationY (delta : Q) (s0 : State) : Q :=
  let hd := handData s0 in
  let targetRotY := (x hd - 0.5) * 3 in
  let rotY := rotationY s0 + (targetRotY - rotationY s0) * 2.5 * delta in
  match mode s0, gesture hd with
  | AppMode.SCATTER, NONE => rotY + 0.1 * delta
  | _, _ => rotY
  end.

(** The state of a frame when the particle loop starts: pinch smoothed,
    rotation advanced, selection resolved. *)
Definition beforeParticles (delta : Q) (ray : list Object3D) (s0 : State) : State :=
  let hd := handData s0 in
  let s := set_smoothedPinch
             (smoothedPinch s0 + (pinchDistance hd - smoothedPinch s0) * 0.1) s0 in
  let s := set_rotation
             (rotationX s + ((y hd - 0.5) * 1.5 - rotationX s) * 2.5 * delta)
             (rotationY s + ((x hd - 0.5) * 3 - rotationY s) * 2.5 * delta) s in
  resolveSelection ray s.

(** ** Conditions on the events of a run *)

(** Frame times between 0 and [bound]. *)
Definition frameTimeWithin (bound : Q) (e : Event) : bool :=
  match e with
  | EvFrame delta _ _ => Qle_bool 0 delta && Qle_bool delta bound
  | _ => true
  end.

(** Samples whose position lies in the unit square. *)
Definition sampleInUnitSquare (e : Event) : bool :=
  match e with
  | EvHand data =>
      Qle_bool 0 (x data) && Qle_bool (x data) 1 &&
      Qle_bool 0 (y data) && Qle_bool (y data) 1
  | _ => true
  end.

(** What never changes in a particle. *)
Definition sameParticle (p p' : Particle) : Prop :=
  mesh p' = mesh p /\ type p' = type p /\ treePos p' = treePos p /\
  scatterPos p' = scatterPos p /\ spin p' = spin p /\
  baseScale p' = baseScale p /\ isPhoto p' = isPhoto p /\
  transitionType p' = transitionType p.

(** ** Successive uploads *)

(** [handleFileUpload] appends each batch to the list of uploads
    ([[...prev, ...newImages]]) and the effect of [Experience] runs on the
    new list.  The images whose load is started over all rounds. *)
Fixpoint uploadRounds (batches : list (list ImageSource))
    (uploaded : list ImageSource) (s : State) : list ImageSource * State :=
  match batches with
  | [] => ([], s)
  | files :: rest =>
      let uploaded' := uploaded ++ files in
      let '(started, s1) := uploadEffect uploaded' s in
      let '(later, s2) := uploadRounds rest uploaded' s1 in
      (started ++ later, s2)
  end.

(** ** App.tsx *)

Module App.

(** The React state of [App], the pending [setTimeout] callbacks, the
    object store ['photos'] of the browser database with whether it can be
    opened, and the background saving of [handleFileUpload]: the files its
    loop has still to pass to [saveFileToDB], and the [add] requests issued
    whose transaction has not completed. *)
Record State : Set := mk {
  uploadedImages : list ImageSource;
  isLoading : bool;
  cameraReady : bool;
  isDbLoaded : bool;
  errorMsg : option nat;           (* the message, by number *)
  timers : nat;
  photos : list ImageSource;
  dbAvailable : bool;
  toSave : list ImageSource;
  inFlight : list ImageSource
}.

(** First render. *)
Definition mount (dbAvailable : bool) (photos : list ImageSource) : State :=
  mk [] true false false None 0 photos dbAvailable [] [].

(** [loadFilesFromDB]: all stored files, or none when the database fails. *)
Definition loadFilesFromDB (a : State) : list ImageSource :=
  if dbAvailable a then photos a else [].

Definition setUploadedImages (imgs : list ImageSource) (a : State) : State :=
  mk imgs (isLoading a) (cameraReady a) (isDbLoaded a) (errorMsg a) (timers a)
     (photos a) (dbAvailable a) (toSave a) (inFlight a).

Definition setIsDbLoaded (b : bool) (a : State) : State :=
  mk (uploadedImages a) (isLoading a) (cameraReady a) b (errorMsg a) (timers a)
     (photos a) (dbAvailable a) (toSave a) (inFlight a).

Definition setCameraReady (b : bool) (a : State) : State :=
  mk (uploadedImages a) (isLoading a) b (isDbLoaded a) (errorMsg a) (timers a)
     (photos a) (dbAvailable a) (toSave a) (inFlight a).

Definition setErrorMsg (msg : nat) (a : State) : State :=
  mk (uploadedImages a) (isLoading a) (cameraReady a) (isDbLoaded a) (Some msg)
     (timers a) (photos a) (dbAvailable a) (toSave a) (inFlight a).

Definition setTimers (n : nat) (a : State) : State :=
  mk (uploadedImages a) (isLoading a) (cameraReady a) (isDbLoaded a) (errorMsg a)
     n (photos a) (dbAvailable a) (toSave a) (inFlight a).

Definition setIsLoading (b : bool) (a : State) : State :=
  mk (uploadedImages a) b (cameraReady a) (isDbLoaded a) (errorMsg a) (timers a)
     (photos a) (dbAvailable a) (toSave a) (inFlight a).

Definition setPhotos (stored : list ImageSource) (a : State) : State :=
  mk (uploadedImages a) (isLoading a) (cameraReady a) (isDbLoaded a) (errorMsg a)
     (timers a) stored (dbAvailable a) (toSave a) (inFlight a).

Definition setToSave (files : list ImageSource) (a : State) : State :=
  mk (uploadedImages a) (isLoading a) (cameraReady a) (isDbLoaded a) (errorMsg a)
     (timers a) (photos a) (dbAvailable a) files (inFlight a).

Definition setInFlight (files : list ImageSource) (a : State) : State :=
  mk (uploadedImages a) (isLoading a) (cameraReady a) (isDbLoaded a) (errorMsg a)
     (timers a) (photos a) (dbAvailable a) (toSave a) files.

(** [saveFileToDB file], from the moment its [await openDB()] settles.  With
    the database open, the [add] request is issued in a transaction of its
    own and the function returns: neither the request nor the transaction
    is awaited, so the file is not stored yet.  A database that does not
    open is logged and swallowed, and the file is dropped. *)
Definition saveFileToDB (a : State) (file : ImageSource) : State :=
  if dbAvailable a then setInFlight (inFlight a ++ [file]) a else a.

(** The effect on [[cameraReady, isDbLoaded]], run after a render in which
    one of the two changed: it starts the one-second timer once both hold. *)
Definition loadingEffect (before after : State) : State :=
  if (negb (Bool.eqb (cameraReady before) (cameraReady after))
      || negb (Bool.eqb (isDbLoaded before) (isDbLoaded after)))
     && cameraReady after && isDbLoaded after
  then setTimers (S (timers after)) after
  else after.

(** The upload control is part of the page only under this condition. *)
Definition uploadControlRendered (a : State) : bool :=
  (length (uploadedImages a) =? 0)%nat && isDbLoaded a
  && match errorMsg a with None => true | Some _ => false end.

(** The loading or error screen covers the page. *)
Definition loadingScreenShown (a : State) : bool :=
  negb (negb (isLoading a) && match errorMsg a with None => true | Some _ => false end).

(** [handleFileUpload] for the chosen files, up to its first [await]: the
    files are shown at once, and the loop that saves them one after the
    other has everything still to do. *)
Definition handleFileUpload (files : list ImageSource) (a : State) : State :=
  match files with
  | [] => a
  | _ :: _ =>
      let a := setUploadedImages (uploadedImages a ++ files) a in
      setToSave (toSave a ++ files) a
  end.

(** The saving loop of [handleFileUpload] resumes: the [await openDB()] of
    the [saveFileToDB] of its next file settles. *)
Definition resumeSaving (a : State) : State :=
  match toSave a with
  | [] => a
  | file :: rest => saveFileToDB (setToSave rest a) file
  end.

(** The oldest transaction completes: its file is in the store if it
    commits, and lost without any notice if it aborts. *)
Definition settleWrite (committed : bool) (a : State) : State :=
  match inFlight a with
  | [] => a
  | file :: rest =>
      let a := setInFlight rest a in
      if committed then setPhotos (photos a ++ [file]) a else a
  end.

Inductive Event : Set :=
| DbLoaded                               (* [loadFilesFromDB()] resolves *)
| FileUpload (files : list ImageSource)  (* the user picks files *)
| CameraReady                            (* [onCameraReady] *)
| Error (msg : nat)                      (* [onError] *)
| Timeout                                (* a timer fires *)
| DbOpenedForSave                        (* [openDB()] of a save settles *)
| WriteSettled (committed : bool).       (* a write transaction ends *)

Definition step (a : State) (e : Event) : State :=
  match e with
  | DbLoaded =>
      if isDbLoaded a then a       (* the mount effect resolves once *)
      else
        let files := loadFilesFromDB a in
        let a1 := match files with
                  | [] => a
                  | _ :: _ => setUploadedImages files a
                  end in
        loadingEffect a (setIsDbLoaded true a1)
  | FileUpload files =>
      if uploadControlRendered a then handleFileUpload files a else a
  | CameraReady => loadingEffect a (setCameraReady true a)
  | Error msg => setErrorMsg msg a
  | Timeout =>
      match timers a with
      | O => a
      | S n => setIsLoading false (setTimers n a)
      end
  | DbOpenedForSave => resumeSaving a
  | WriteSettled committed => settleWrite committed a
  end.

Definition run (evs : list Event) (a : State) : State := fold_left step evs a.

End App.

(** Two frames without anything under the cursor. *)
Definition sampleFrames : list Event :=
  [EvFrame 0.016 1 []; EvFrame 0.02 1.016 []].

(** The rotation invariant: angles in range, sample in the unit square. *)
Definition rotationInRange (s : State) : Prop :=
  (- (1.5) <= rotationY s <= 1.5 /\ - (0.75) <= rotationX s <= 0.75) /\
  (0 <= x (handData s) <= 1 /\ 0 <= y (handData s) <= 1).

(** Scales in range: the mesh scale and the rest scale of every particle. *)
Definition scalesInRange (s : State) : Prop :=
  Forall (fun p => 0 <= meshScale p <= 9.8 /\ 0 <= baseScale p <= 9.8) (particles s).

(** The focus target, when set, is the mesh of an interactive particle of
    the collection. *)
Definition focusInCollection (s : State) : Prop :=
  forall m, focusTarget s = Some m ->
    exists q, In q (particles s) /\ isPhoto q = true /\ mesh q = m.

(** The photo particle of the pinching sample scene. *)
Definition samplePinchingPhoto : Particle :=
  List.last (particles samplePinching) (createParticle sampleDraws 0).

(** Draws in the unit interval. *)
Definition inUnitInterval (r : Q) : Prop := 0 <= r <= 1.

Definition snowDrawsInRange (r : Q * Q * Q * Q) : Prop :=
  let '(r1, r2, r3, r4) := r in
  inUnitInterval r1 /\ inUnitInterval r2 /\ inUnitInterval r3 /\ inUnitInterval r4.

(** Two flakes, the second created below the floor, and one frame. *)
Definition sampleSnowDraws : list (Q * Q * Q * Q) :=
  [(0.5, 0.9, 0.5, 0.5); (0.25, 0.1, 0.75, 1)].

Definition sampleSnowFrames : list (Q * (nat -> Q * Q)) :=
  [(1, fun _ => (0.5, 0.5))].

(** The invariant of [App] behind the loading screen. *)
Definition loadingGate (a : App.State) : Prop :=
  (App.isLoading a = false \/ App.timers a <> 0%nat) ->
  App.cameraReady a = true /\ App.isDbLoaded a = true.




(** A session: the store is read, the camera starts, the user uploads two
    files, the loading screen goes. *)
Definition sampleSession : list App.Event :=
  [App.DbLoaded; App.CameraReady; App.FileUpload [Decodable 4 3; Undecodable];
   App.Timeout].


(** ** From the list of uploads to the particles *)

(** Number of decodable images among uploaded ones. *)
Definition decodableCount (imgs : list ImageSource) : nat :=
  length (List.filter isDecodable imgs).

(** The images whose load completes in a run, in order of completion. *)
Definition completedLoads (evs : list Event) : list ImageSource :=
  flat_map (fun e => match e with EvImage img _ => [img] | _ => [] end) evs.

(** The effect on [uploadedImages], then the completion of every load it
    has started, in the order started; [draws i] holds the random draws of
    the [i]-th of them. *)
Definition processUploads (uploadedImages : list ImageSource)
    (draws : nat -> PhotoDraw) (s : State) : State :=
  let '(newImages, s1) := uploadEffect uploadedImages s in
  ingest (imap (fun i img => (img, draws i)) newImages) s1.

(** ** Frame times that shrink *)

(** Frame [i] lasts [1 / (6 * (i + 2)^2)] seconds. *)
Definition slowingFrame (i : nat) : Q :=
  / (6 * ((Q_of_nat i + 2) * (Q_of_nat i + 2))).

(** ** Gesture classification in the words of the specification *)

Section ClassificationSpec.
Context `{Numerics}.

(** Distance of two landmarks in the image plane: the hypotenuse of the
    differences of their [x] and of their [y] coordinates. *)
Definition planarDistance (a b : NormalizedLandmark.t) : Q :=
  Math_hypot (NormalizedLandmark.x a - NormalizedLandmark.x b)
             (NormalizedLandmark.y a - NormalizedLandmark.y b).

(** How many of the fingertips are less than 0.15 away from the wrist. *)
Fixpoint tipsNearWrist (wrist : NormalizedLandmark.t)
    (tips : list NormalizedLandmark.t) : nat :=
  match tips with
  | [] => 0
  | tip :: rest =>
      ((if Qlt_le_dec (planarDistance tip wrist) 0.15 then 1 else 0)
       + tipsNearWrist wrist rest)%nat
  end.
End ClassificationSpec.

(** * Verification *)

(** ** Comparisons *)

Lemma Qltb_lt (a b : Q) : Qltb a b = true <-> a < b.
Proof.
  unfold Qltb. rewrite negb_true_iff.
  split; intros Hab.
  - apply Qnot_le_lt. intros Hle. apply Qle_bool_iff in Hle. congruence.
  - apply not_true_is_false. intros Hle. apply Qle_bool_iff in Hle. lra.
Qed.

Lemma Qltb_ge (a b : Q) : Qltb a b = false <-> b <= a.
Proof.
  unfold Qltb. rewrite negb_false_iff. apply Qle_bool_iff.
Qed.

Lemma Qgtb_gt (a b : Q) : Qgtb a b = true <-> b < a.
Proof. apply Qltb_lt. Qed.

Lemma Qgtb_le (a b : Q) : Qgtb a b = false <-> a <= b.
Proof. apply Qltb_ge. Qed.

Lemma AppMode_eqb_eq (a b : AppMode.t) : AppMode.eqb a b = true <-> a = b.
Proof. destruct a, b; simpl; split; congruence. Qed.

(** ** Mode state machine: the gesture callback *)

Lemma onHandData_CLOSED (s : State) (data : HandData) :
  gesture data = CLOSED ->
  mode (onHandData data s) = AppMode.TREE /\
  focusTarget (onHandData data s) = None.
Proof. intros Hg. unfold onHandData. rewrite Hg. simpl. auto. Qed.

Lemma onHandData_OPEN_exit (s : State) (data : HandData) :
  gesture data = OPEN ->
  mode s <> AppMode.FOCUS \/ 0.4 < pinchDistance data ->
  mode (onHandData data s) = AppMode.SCATTER /\
  focusTarget (onHandData data s) = None.
Proof.
  intros Hg Hc. unfold onHandData. rewrite Hg. cbn [set_handData mode].
  destruct (negb (AppMode.eqb (mode s) AppMode.FOCUS)
            || Qgtb (pinchDistance data) 0.4) eqn:Hb; [simpl; auto|].
  apply orb_false_iff in Hb. destruct Hb as [Hm Hp].
  apply negb_false_iff, AppMode_eqb_eq in Hm. apply Qgtb_le in Hp.
  destruct Hc as [Hc | Hc]; [congruence | lra].
Qed.

Lemma onHandData_OPEN_hold (s : State) (data : HandData) :
  gesture data = OPEN ->
  mode s = AppMode.FOCUS -> pinchDistance data <= 0.4 ->
  mode (onHandData data s) = AppMode.FOCUS /\
  focusTarget (onHandData data s) = focusTarget s.
Proof.
  intros Hg Hm Hp. unfold onHandData. rewrite Hg. cbn [set_handData mode].
  rewrite Hm. cbn [AppMode.eqb negb orb].
  apply Qgtb_le in Hp. rewrite Hp. simpl. auto.
Qed.

Lemma onHandData_other (s : State) (data : HandData) :
  gesture data = PINCH \/ gesture data = NONE ->
  mode (onHandData data s) = mode s /\
  focusTarget (onHandData data s) = focusTarget s.
Proof. intros [Hg | Hg]; unfold onHandData; rewrite Hg; simpl; auto. Qed.

Lemma onHandData_uiMode (s : State) (data : HandData) :
  uiMode (onHandData data s) = mode (onHandData data s).
Proof. reflexivity. Qed.

Lemma focusConsistent_cleared (s : State) :
  mode s <> AppMode.FOCUS -> focusTarget s = None -> focusConsistent s.
Proof.
  intros Hm Hf. unfold focusConsistent. rewrite Hf. split.
  - intros [? ?]. discriminate.
  - intros ?. contradiction.
Qed.

Lemma focusConsistent_same (s s' : State) :
  mode s' = mode s -> focusTarget s' = focusTarget s ->
  focusConsistent s -> focusConsistent s'.
Proof. unfold focusConsistent. intros -> ->. auto. Qed.

Lemma focusConsistent_onHandData (data : HandData) (s : State) :
  focusConsistent s -> focusConsistent (onHandData data s).
Proof.
  intros Hs. destruct (gesture data) eqn:Hg.
  - destruct (AppMode.eqb (mode s) AppMode.FOCUS) eqn:Hm.
    + apply AppMode_eqb_eq in Hm.
      destruct (Qgtb (pinchDistance data) 0.4) eqn:Hp.
      * apply Qgtb_gt in Hp.
        destruct (onHandData_OPEN_exit s data Hg (or_intror Hp)) as [Hm' Hf'].
        apply focusConsistent_cleared; congruence.
      * apply Qgtb_le in Hp.
        destruct (onHandData_OPEN_hold s data Hg Hm Hp) as [Hm' Hf'].
        apply (focusConsistent_same s); congruence.
    + assert (Hne : mode s <> AppMode.FOCUS).
      { intros He. apply AppMode_eqb_eq in He. congruence. }
      destruct (onHandData_OPEN_exit s data Hg (or_introl Hne)) as [Hm' Hf'].
      apply focusConsistent_cleared; congruence.
  - destruct (onHandData_CLOSED s data Hg) as [Hm' Hf'].
    apply focusConsistent_cleared; congruence.
  - destruct (onHandData_other s data (or_introl Hg)) as [Hm' Hf'].
    apply (focusConsistent_same s); congruence.
  - destruct (onHandData_other s data (or_intror Hg)) as [Hm' Hf'].
    apply (focusConsistent_same s); congruence.
Qed.

(** ** Selection resolution *)

(** The three outcomes of the raycasting block. *)
Lemma resolveSelection_cases (ray : list Object3D) (s : State) :
  resolveSelection ray s = s \/
  exists particle,
    In particle (particles s) /\
    gesture (handData s) = PINCH /\ focusTarget s = None /\
    resolveSelection ray s =
      setMode AppMode.FOCUS (set_mode_focus AppMode.FOCUS (Some (mesh particle)) s).
Proof.
  unfold resolveSelection.
  destruct (gesture (handData s)) eqn:Hg; auto.
  destruct (focusTarget s) eqn:Hf; auto.
  destruct (Raycaster.intersectObjects ray _ true) as [|hit rest]; auto.
  destruct (List.find _ (particles s)) as [particle|] eqn:Hfind; auto.
  right. exists particle. apply find_some in Hfind. tauto.
Qed.

Lemma resolveSelection_idle (ray : list Object3D) (s : State) :
  gesture (handData s) <> PINCH \/ is_Some (focusTarget s) ->
  resolveSelection ray s = s.
Proof.
  intros Hc. unfold resolveSelection.
  destruct (gesture (handData s)); try reflexivity.
  destruct (focusTarget s); try reflexivity.
  destruct Hc as [Hc | [t Ht]]; [contradiction | discriminate].
Qed.

Lemma focusConsistent_resolveSelection (ray : list Object3D) (s : State) :
  focusConsistent s -> focusConsistent (resolveSelection ray s).
Proof.
  intros Hs.
  destruct (resolveSelection_cases ray s) as [-> | (p & _ & _ & _ & ->)]; auto.
  unfold focusConsistent. simpl. split; eauto.
Qed.

(** ** Sanity checks of the sample data *)

Example sampleFocus_mode :
  mode sampleFocus = AppMode.FOCUS /\
  focusTarget sampleFocus = Some samplePhotoMesh /\
  length (particles sampleFocus) = 801%nat.
Proof. vm_compute. auto. Qed.

(** ** The frame callback and the state machine *)

Section FrameFacts.
Context `{Numerics}.

(** A frame changes mode and focus target only through the raycasting
    block. *)
Lemma animate_mode_focus (delta elapsed : Q) (ray : list Object3D) (s : State) :
  mode (animate delta elapsed ray s) = mode (resolveSelection ray s) /\
  focusTarget (animate delta elapsed ray s) = focusTarget (resolveSelection ray s) /\
  uiMode (animate delta elapsed ray s) = uiMode (resolveSelection ray s) /\
  handData (animate delta elapsed ray s) = handData s.
Proof.
  unfold animate, resolveSelection. cbn.
  destruct (gesture (handData s)); cbn; auto.
  destruct (focusTarget s) eqn:Hf; cbn; rewrite ?Hf; auto.
  destruct (Raycaster.intersectObjects ray _ true); cbn; rewrite ?Hf; auto.
  destruct (List.find _ (particles s)); cbn; rewrite ?Hf; auto.
Qed.

Lemma animate_idle (delta elapsed : Q) (ray : list Object3D) (s : State) :
  gesture (handData s) <> PINCH \/ is_Some (focusTarget s) ->
  mode (animate delta elapsed ray s) = mode s /\
  focusTarget (animate delta elapsed ray s) = focusTarget s.
Proof.
  intros Hc.
  destruct (animate_mode_focus delta elapsed ray s) as (Hm & Hf & _).
  rewrite Hm, Hf, (resolveSelection_idle ray s Hc). auto.
Qed.

Lemma focusConsistent_animate (delta elapsed : Q) (ray : list Object3D) (s : State) :
  focusConsistent s -> focusConsistent (animate delta elapsed ray s).
Proof.
  intros Hs.
  destruct (animate_mode_focus delta elapsed ray s) as (Hm & Hf & _).
  apply (focusConsistent_same (resolveSelection ray s)); auto.
  apply focusConsistent_resolveSelection, Hs.
Qed.

Lemma loadImage_mode_focus (img : ImageSource) (d : PhotoDraw) (s : State) :
  mode (loadImage img d s) = mode s /\
  focusTarget (loadImage img d s) = focusTarget s.
Proof.
  destruct img as [w h|]; [|auto].
  unfold loadImage, imgOnload, addPhotoHandler.
  destruct (displaySize _) as [dw dh]. cbn.
  destruct (particles s) as [|p0 rest]; cbn; auto.
  destruct (parent (mesh p0)); cbn; auto.
Qed.

Lemma uploadEffect_mode_focus (imgs : list ImageSource) (s : State) :
  mode (snd (uploadEffect imgs s)) = mode s /\
  focusTarget (snd (uploadEffect imgs s)) = focusTarget s.
Proof.
  unfold uploadEffect.
  destruct (0 <? length (drop (processedImagesCount s) imgs))%nat; cbn; auto.
Qed.

Lemma focusConsistent_step (e : Event) (s : State) :
  focusConsistent s -> focusConsistent (step s e).
Proof.
  intros Hs. destruct e as [data | delta elapsed ray | imgs | img d]; cbn.
  - apply focusConsistent_onHandData, Hs.
  - apply focusConsistent_animate, Hs.
  - destruct (uploadEffect_mode_focus imgs s).
    apply (focusConsistent_same s); auto.
  - destruct (loadImage_mode_focus img d s).
    apply (focusConsistent_same s); auto.
Qed.

Lemma run_cons (e : Event) (evs : list Event) (s : State) :
  run (e :: evs) s = run evs (step s e).
Proof. reflexivity. Qed.

Lemma focusConsistent_run (evs : list Event) (s : State) :
  focusConsistent s -> focusConsistent (run evs s).
Proof.
  revert s. induction evs as [|e evs IH]; intros s Hs; [exact Hs|].
  rewrite run_cons. apply IH, focusConsistent_step, Hs.
Qed.

Lemma run_app (evs1 evs2 : list Event) (s : State) :
  run (evs1 ++ evs2) s = run evs2 (run evs1 s).
Proof. unfold run. apply fold_left_app. Qed.

(** Frames alone never leave a state in which the last sample is not a
    pinch. *)
Lemma frames_keep_cleared (evs : list Event) (s : State) :
  forallb isFrame evs = true ->
  gesture (handData s) <> PINCH ->
  mode (run evs s) = mode s /\ focusTarget (run evs s) = focusTarget s /\
  handData (run evs s) = handData s.
Proof.
  revert s. induction evs as [|e evs IH]; intros s Hall Hg; [cbn; auto|].
  cbn in Hall. apply andb_true_iff in Hall. destruct Hall as [He Hall].
  destruct e as [data | delta elapsed ray | imgs | img d]; try discriminate.
  rewrite run_cons. cbn [step].
  destruct (animate_idle delta elapsed ray s (or_introl Hg)) as [Hm Hf].
  destruct (animate_mode_focus delta elapsed ray s) as (_ & _ & _ & Hh).
  destruct (IH (animate delta elapsed ray s) Hall) as (Hm' & Hf' & Hh').
  { rewrite Hh. exact Hg. }
  rewrite Hm', Hf', Hh'. auto.
Qed.

(** Frames and pinch samples leave an established focus alone. *)
Lemma pinches_keep_focus (evs : list Event) (s : State) :
  forallb isPinchOrFrame evs = true ->
  is_Some (focusTarget s) ->
  mode (run evs s) = mode s /\ focusTarget (run evs s) = focusTarget s.
Proof.
  revert s. induction evs as [|e evs IH]; intros s Hall Hfoc; [cbn; auto|].
  cbn in Hall. apply andb_true_iff in Hall. destruct Hall as [He Hall].
  destruct e as [data | delta elapsed ray | imgs | img d]; try discriminate.
  - cbn in He. rewrite run_cons. cbn [step].
    assert (Hg : gesture data = PINCH) by (destruct (gesture data); congruence).
    destruct (onHandData_other s data (or_introl Hg)) as [Hm Hf].
    destruct (IH (onHandData data s) Hall) as [Hm' Hf'].
    { rewrite Hf. exact Hfoc. }
    rewrite Hm', Hf'. auto.
  - rewrite run_cons. cbn [step].
    destruct (animate_idle delta elapsed ray s (or_intror Hfoc)) as [Hm Hf].
    destruct (IH (animate delta elapsed ray s) Hall) as [Hm' Hf'].
    { rewrite Hf. exact Hfoc. }
    rewrite Hm', Hf'. auto.
Qed.

End FrameFacts.

Lemma focusConsistent_initial : focusConsistent initialState.
Proof. apply focusConsistent_cleared; [discriminate | reflexivity]. Qed.

Lemma focusConsistent_setup (draws : nat -> DecorDraw) (s : State) :
  focusConsistent s -> focusConsistent (setup draws s).
Proof. apply focusConsistent_same; reflexivity. Qed.

(** ** Identity of scene-graph nodes *)

Lemma Q_eqb_eq (a b : Q) : Q_eqb a b = true <-> a = b.
Proof.
  unfold Q_eqb. destruct a as [an ad], b as [bn bd]. cbn.
  rewrite andb_true_iff, Z.eqb_eq, Pos.eqb_eq.
  split; [intros [-> ->]; reflexivity | intros [= -> ->]; auto].
Qed.

Lemma Geometry_eqb_eq (g h : Geometry) : Geometry_eqb g h = true <-> g = h.
Proof.
  destruct g, h; cbn; try (split; [discriminate | congruence]);
    rewrite ?andb_true_iff, ?Q_eqb_eq.
  - split; [intros [-> ->]; reflexivity | intros [= -> ->]; auto].
  - split; [intros ->; reflexivity | intros [= ->]; auto].
  - tauto.
  - tauto.
Qed.

(** Induction along the chain of ancestors. *)
Lemma Object3D_chain_ind (P : Object3D -> Prop) :
  (forall i g, P (mkObject3D i g None)) ->
  (forall i g p, P p -> P (mkObject3D i g (Some p))) ->
  forall o, P o.
Proof.
  intros Hroot Hchild. fix IH 1.
  intros [i g [p|]]; [apply Hchild, IH | apply Hroot].
Qed.

Lemma Object3D_eqb_eq : forall a b : Object3D, Object3D_eqb a b = true <-> a = b.
Proof.
  fix IH 1. intros [i g p] [j h q]. cbn.
  rewrite !andb_true_iff, Nat.eqb_eq, Geometry_eqb_eq.
  destruct p as [p'|], q as [q'|].
  - rewrite (IH p' q').
    split; [intros [[-> ->] ->]; reflexivity | intros [= -> -> ->]; auto].
  - split; [intros [_ ?]; discriminate | discriminate].
  - split; [intros [_ ?]; discriminate | discriminate].
  - split; [intros [[-> ->] _]; reflexivity | intros [= -> ->]; auto].
Qed.

Lemma Object3D_eqb_refl (a : Object3D) : Object3D_eqb a a = true.
Proof. apply Object3D_eqb_eq. reflexivity. Qed.

Lemma Object3D_eqb_neq (a b : Object3D) : a <> b -> Object3D_eqb a b = false.
Proof.
  intros Hne. apply not_true_is_false. intros He.
  apply Object3D_eqb_eq in He. contradiction.
Qed.

(** ** The scene graph stays well formed *)

Lemma sceneWellFormed_meshes (s s' : State) :
  map mesh (particles s') = map mesh (particles s) ->
  nextId s' = nextId s ->
  sceneWellFormed s -> sceneWellFormed s'.
Proof.
  unfold sceneWellFormed. intros Hmesh Hid [Hall Hnd].
  rewrite Hid. split.
  - apply (Forall_map mesh
             (fun m => parent m = Some mainGroup /\
                       (firstMeshId <= id m < nextId s)%nat)).
    rewrite Hmesh.
    apply (Forall_map mesh
             (fun m => parent m = Some mainGroup /\
                       (firstMeshId <= id m < nextId s)%nat)).
    exact Hall.
  - rewrite <- (map_map mesh id), Hmesh, (map_map mesh id). exact Hnd.
Qed.

Lemma imap_updateParticle_mesh `{Numerics} (s : State) (a b c d e : Q)
    (ps : list Particle) :
  map mesh (imap (updateParticle s a b c d e) ps) = map mesh ps /\
  map isPhoto (imap (updateParticle s a b c d e) ps) = map isPhoto ps.
Proof.
  assert (Hkeep : forall i p,
             mesh (updateParticle s a b c d e i p) = mesh p /\
             isPhoto (updateParticle s a b c d e i p) = isPhoto p).
  { intros i p. split; reflexivity. }
  revert Hkeep. generalize (updateParticle s a b c d e). intros f Hkeep.
  revert f Hkeep.
  induction ps as [|p ps IH]; intros f Hkeep; cbn; [auto|].
  destruct (Hkeep 0%nat p) as [-> ->].
  destruct (IH (f ∘ S)) as [-> ->]; [intros i q; apply Hkeep | auto].
Qed.

Lemma resolveSelection_particles (ray : list Object3D) (s : State) :
  particles (resolveSelection ray s) = particles s /\
  nextId (resolveSelection ray s) = nextId s.
Proof.
  destruct (resolveSelection_cases ray s) as [-> | (p & _ & _ & _ & ->)]; auto.
Qed.

Lemma animate_particles `{Numerics} (delta elapsed : Q) (ray : list Object3D)
    (s : State) :
  map mesh (particles (animate delta elapsed ray s)) = map mesh (particles s) /\
  map isPhoto (particles (animate delta elapsed ray s)) = map isPhoto (particles s) /\
  nextId (animate delta elapsed ray s) = nextId s.
Proof.
  unfold animate. cbn [particles set_particles nextId].
  match goal with
  | |- context [resolveSelection ray ?s0] =>
      destruct (resolveSelection_particles ray s0) as [Hp Hn];
      generalize dependent (resolveSelection ray s0)
  end.
  intros s1 Hp Hn.
  match goal with
  | |- context [imap (updateParticle ?u ?a ?b ?c ?d ?e) _] =>
      destruct (imap_updateParticle_mesh u a b c d e (particles s1)) as [-> ->]
  end.
  rewrite Hp, Hn. cbn. auto.
Qed.

Lemma sceneWellFormed_setup (draws : nat -> DecorDraw) (s : State) :
  sceneWellFormed (setup draws s).
Proof.
  unfold sceneWellFormed, setup, createParticles.
  cbn [particles nextId set_nextId set_particles]. split.
  - apply Forall_map, List.Forall_forall. intros i Hi.
    apply in_seq in Hi. cbn [createParticle mesh parent id].
    split; [reflexivity|]. unfold firstMeshId. lia.
  - rewrite map_map. cbn [createParticle mesh id].
    apply Injective_map_NoDup; [|apply seq_NoDup].
    intros i j Hij. lia.
Qed.

Lemma sceneReady_setup (draws : nat -> DecorDraw) (s : State) :
  sceneReady (setup draws s).
Proof.
  unfold sceneReady, setup.
  exists (createParticle draws 0), (map (createParticle draws) (seq 1 799)), mainGroup.
  split; reflexivity.
Qed.

Lemma sceneWellFormed_ready (s : State) :
  sceneWellFormed s -> particles s <> [] -> sceneReady s.
Proof.
  intros [Hall _] Hne. unfold sceneReady.
  destruct (particles s) as [|p0 rest]; [contradiction|].
  inversion Hall as [|? ? [Hpar _] _]; subst.
  exists p0, rest, mainGroup. auto.
Qed.

(** What the listener does once its guard holds. *)
Lemma addPhotoHandler_ready (m : Object3D) (d : PhotoDraw) (s : State) :
  sceneReady s ->
  exists p par,
    particles (addPhotoHandler m d s) = particles s ++ [p] /\
    nextId (addPhotoHandler m d s) = nextId s /\
    mesh p = mkObject3D (id m) (geometry m) (Some par) /\
    (exists p0 rest, particles s = p0 :: rest /\ parent (mesh p0) = Some par) /\
    isPhoto p = true /\ type p = ParticleType.PHOTO /\ baseScale p == 1.
Proof.
  intros (p0 & rest & par & Hps & Hpar).
  unfold addPhotoHandler. rewrite Hps, Hpar. cbn.
  eexists _, par. split; [reflexivity|]. split; [reflexivity|].
  cbn. split; [reflexivity|]. split; [eauto|].
  split; [reflexivity|]. split; [reflexivity|]. reflexivity.
Qed.

Lemma imgOnload_ready (width height : positive) (d : PhotoDraw) (s : State) :
  sceneReady s ->
  exists p par,
    particles (imgOnload width height d s) = particles s ++ [p] /\
    nextId (imgOnload width height d s) = (nextId s + 3)%nat /\
    mesh p = mkObject3D (nextId s)
               (PlaneGeometry (fst (displaySize (Zpos width # height)))
                              (snd (displaySize (Zpos width # height))))
               (Some par) /\
    (exists p0 rest, particles s = p0 :: rest /\ parent (mesh p0) = Some par) /\
    isPhoto p = true /\ type p = ParticleType.PHOTO /\ baseScale p == 1.
Proof.
  intros Hready. unfold imgOnload.
  destruct (displaySize (Zpos width # height)) as [w h]. cbn [fst snd].
  destruct (addPhotoHandler_ready
              (mkObject3D (nextId s) (PlaneGeometry w h) None) d
              (set_nextId (nextId s + 3) s)) as (p & par & Hps & Hn & Hm & Hrest).
  { exact Hready. }
  exists p, par. cbn in Hps, Hn, Hm, Hrest. auto.
Qed.

Lemma sceneWellFormed_imgOnload (width height : positive) (d : PhotoDraw) (s : State) :
  sceneWellFormed s -> sceneWellFormed (imgOnload width height d s).
Proof.
  intros Hwf.
  destruct (particles s) as [|p0 rest] eqn:Hps.
  { (* the guard of the listener fails: only the identifier supply moves *)
    unfold imgOnload, addPhotoHandler.
    destruct (displaySize _) as [w h]. cbn. rewrite Hps.
    unfold sceneWellFormed. cbn. rewrite Hps. split; constructor. }
  assert (Hready : sceneReady s).
  { apply sceneWellFormed_ready; [exact Hwf | rewrite Hps; discriminate]. }
  destruct (imgOnload_ready width height d s Hready)
    as (p & par & Hps' & Hn & Hm & (q0 & rest' & Hq & Hpar) & _).
  destruct Hwf as [Hall Hnd].
  rewrite Hps in Hq. injection Hq as <- <-.
  assert (Hp0 : parent (mesh p0) = Some mainGroup /\
                (firstMeshId <= id (mesh p0) < nextId s)%nat).
  { rewrite Hps in Hall. inversion Hall; subst; assumption. }
  destruct Hp0 as [Hpar0 Hid0].
  assert (par = mainGroup) by congruence. subst par.
  unfold sceneWellFormed. rewrite Hps', Hn. split.
  - apply Forall_app. split.
    + eapply Forall_impl; [exact Hall|]. cbn. intros a [? ?]. split; [auto | lia].
    + constructor; [|constructor]. rewrite Hm. cbn. split; [reflexivity | lia].
  - rewrite map_app. apply List.NoDup_app; [exact Hnd | |].
    + cbn. constructor; [intros [] | constructor].
    + intros a Ha [Hb | []]. rewrite Hm in Hb. cbn in Hb. subst a.
      apply in_map_iff in Ha. destruct Ha as (q & Hq & Hin).
      rewrite List.Forall_forall in Hall. specialize (Hall q Hin). lia.
Qed.

Section Reachable.
Context `{Numerics}.

Lemma sceneWellFormed_step (e : Event) (s : State) :
  sceneWellFormed s -> sceneWellFormed (step s e).
Proof.
  intros Hwf. destruct e as [data | delta elapsed ray | imgs | img d]; cbn [step].
  - apply (sceneWellFormed_meshes s); [| |exact Hwf].
    + unfold onHandData. destruct (gesture data); cbn; try reflexivity.
      destruct (_ || _); reflexivity.
    + unfold onHandData. destruct (gesture data); cbn; try reflexivity.
      destruct (_ || _); reflexivity.
  - destruct (animate_particles delta elapsed ray s) as (Hm & _ & Hn).
    apply (sceneWellFormed_meshes s); assumption.
  - apply (sceneWellFormed_meshes s); [| |exact Hwf];
      unfold uploadEffect; destruct (0 <? _)%nat; reflexivity.
  - destruct img as [w h|]; [|exact Hwf].
    apply sceneWellFormed_imgOnload, Hwf.
Qed.

Lemma particles_nonempty_step (e : Event) (s : State) :
  particles s <> [] -> particles (step s e) <> [].
Proof.
  intros Hne. destruct e as [data | delta elapsed ray | imgs | img d]; cbn [step].
  - unfold onHandData. destruct (gesture data); cbn; try exact Hne.
    destruct (_ || _); exact Hne.
  - destruct (animate_particles delta elapsed ray s) as (Hm & _ & _).
    intros Hnil. rewrite Hnil in Hm. cbn in Hm.
    destruct (particles s); [contradiction | discriminate].
  - unfold uploadEffect. destruct (0 <? _)%nat; exact Hne.
  - destruct img as [w h|]; [|exact Hne]. cbn [loadImage].
    unfold imgOnload, addPhotoHandler. destruct (displaySize _) as [dw dh]. cbn.
    destruct (particles s) as [|p0 rest] eqn:Hps; [contradiction|].
    destruct (parent (mesh p0)); cbn; rewrite ?Hps; discriminate.
Qed.

Lemma reachable_wellFormed (s : State) :
  reachable s -> sceneWellFormed s /\ particles s <> [].
Proof.
  intros (draws & evs & ->).
  assert (Hinit : sceneWellFormed (setup draws initialState) /\
                  particles (setup draws initialState) <> []).
  { split; [apply sceneWellFormed_setup | discriminate]. }
  revert Hinit. generalize (setup draws initialState).
  induction evs as [|e evs IH]; intros s [Hwf Hne]; [cbn; auto|].
  rewrite run_cons. apply IH. split.
  - apply sceneWellFormed_step, Hwf.
  - apply particles_nonempty_step, Hne.
Qed.

Lemma reachable_ready (s : State) : reachable s -> sceneReady s.
Proof.
  intros Hr. destruct (reachable_wellFormed s Hr).
  apply sceneWellFormed_ready; assumption.
Qed.

Lemma reachable_step (e : Event) (s : State) :
  reachable s -> reachable (step s e).
Proof.
  intros (draws & evs & ->). exists draws, (evs ++ [e]).
  rewrite run_app. reflexivity.
Qed.

Lemma reachable_run (evs : list Event) (s : State) :
  reachable s -> reachable (run evs s).
Proof.
  intros (draws & evs0 & ->). exists draws, (evs0 ++ evs).
  rewrite run_app. reflexivity.
Qed.

End Reachable.

(** ** Hit resolution *)

Lemma NoDup_map_inj_in {A B : Type} (f : A -> B) (l : list A) (a b : A) :
  List.NoDup (map f l) -> In a l -> In b l -> f a = f b -> a = b.
Proof.
  induction l as [|c l IH]; cbn; intros Hnd Ha Hb Hf; [contradiction|].
  inversion Hnd as [|? ? Hnotin Hnd']; subst.
  destruct Ha as [-> | Ha], Hb as [-> | Hb]; auto.
  - exfalso. apply Hnotin. rewrite Hf. apply in_map, Hb.
  - exfalso. apply Hnotin. rewrite <- Hf. apply in_map, Ha.
Qed.

Lemma isSelfOrAncestor_unfold (o h : Object3D) :
  isSelfOrAncestor o h =
  Object3D_eqb o h ||
  match parent h with
  | Some p => isSelfOrAncestor o p
  | None => false
  end.
Proof. destruct h as [i g [p|]]; reflexivity. Qed.

(** A node hanging under [mainGroup] with a mesh identifier is not among
    the fixed nodes. *)
Lemma mesh_not_fixed_node (o : Object3D) :
  parent o = Some mainGroup -> (firstMeshId <= id o)%nat ->
  isSelfOrAncestor o mainGroup = false /\ isSelfOrAncestor o photoGroup = false.
Proof.
  intros Hpar Hid.
  assert (H1 : Object3D_eqb o scene = false).
  { apply Object3D_eqb_neq. intros ->. discriminate. }
  assert (H2 : Object3D_eqb o mainGroup = false).
  { apply Object3D_eqb_neq. intros ->. discriminate. }
  assert (H3 : Object3D_eqb o photoGroup = false).
  { apply Object3D_eqb_neq. intros ->. cbn in Hid. unfold firstMeshId in Hid. lia. }
  unfold photoGroup, mainGroup, scene in *.
  cbn [isSelfOrAncestor]. rewrite H1, H2, H3. auto.
Qed.

(** Walking up from anything at or below a particle mesh stops at that
    mesh. *)
Lemma climbToRoot_reaches (ps : list Particle) (o : Object3D) :
  parent o = Some mainGroup -> (firstMeshId <= id o)%nat ->
  forall h, isSelfOrAncestor o h = true -> climbToRoot ps h = o.
Proof.
  intros Hpar Hid.
  destruct (mesh_not_fixed_node o Hpar Hid) as [Hmain Hphoto].
  intros h. induction h as [i g | i g p IH] using Object3D_chain_ind; intros Hanc.
  - cbn [isSelfOrAncestor] in Hanc. rewrite orb_false_r in Hanc.
    apply Object3D_eqb_eq in Hanc. subst o. discriminate.
  - cbn [isSelfOrAncestor] in Hanc. apply orb_true_iff in Hanc.
    destruct Hanc as [Heq | Hanc].
    + apply Object3D_eqb_eq in Heq. subst o. cbn in Hpar.
      injection Hpar as ->. reflexivity.
    + cbn [climbToRoot].
      destruct (Object3D_eqb p mainGroup) eqn:E1.
      { apply Object3D_eqb_eq in E1. subst p. congruence. }
      destruct (Object3D_eqb p photoGroup) eqn:E2.
      { apply Object3D_eqb_eq in E2. subst p. congruence. }
      cbn [negb andb].
      destruct (existsb _ ps); apply IH, Hanc.
Qed.

(** A particle mesh lies under no other particle mesh. *)
Lemma particle_mesh_not_under (o m : Object3D) :
  parent o = Some mainGroup -> (firstMeshId <= id o)%nat ->
  parent m = Some mainGroup -> o <> m ->
  isSelfOrAncestor o m = false.
Proof.
  intros Hpar Hid Hm Hne.
  rewrite isSelfOrAncestor_unfold, Hm.
  rewrite (Object3D_eqb_neq o m Hne).
  apply (mesh_not_fixed_node o Hpar Hid).
Qed.

Lemma sceneWellFormed_particle (s : State) (p : Particle) :
  sceneWellFormed s -> In p (particles s) ->
  parent (mesh p) = Some mainGroup /\ (firstMeshId <= id (mesh p))%nat.
Proof.
  intros [Hall _] Hin. rewrite List.Forall_forall in Hall.
  destruct (Hall p Hin) as [? [? ?]]. auto.
Qed.

Lemma sceneWellFormed_same_mesh (s : State) (p q : Particle) :
  sceneWellFormed s -> In p (particles s) -> In q (particles s) ->
  mesh p = mesh q -> p = q.
Proof.
  intros [_ Hnd] Hp Hq Hm.
  apply (NoDup_map_inj_in (fun p => id (mesh p)) (particles s)); auto.
  cbn. rewrite Hm. reflexivity.
Qed.

Lemma intersectObjects_nil (objects : list Object3D) (recursive : bool) :
  Raycaster.intersectObjects [] objects recursive = [].
Proof. reflexivity. Qed.

(** A ray that meets decorative particle meshes only reports no
    intersection with the photos. *)
Lemma intersectObjects_decor (s : State) (ray : list Object3D) :
  sceneWellFormed s ->
  (forall h, In h ray ->
     exists p, In p (particles s) /\ isPhoto p = false /\ h = mesh p) ->
  Raycaster.intersectObjects ray (map mesh (List.filter isPhoto (particles s))) true = [].
Proof.
  intros Hwf Hray. unfold Raycaster.intersectObjects.
  induction ray as [|h ray IH]; [reflexivity|].
  cbn [List.filter].
  destruct (Hray h (or_introl eq_refl)) as (p & Hp & Hdecor & ->).
  assert (Hno : existsb (fun o => isSelfOrAncestor o (mesh p))
                  (map mesh (List.filter isPhoto (particles s))) = false).
  { apply not_true_is_false. intros Hex.
    apply existsb_exists in Hex. destruct Hex as (o & Ho & Hanc).
    apply in_map_iff in Ho. destruct Ho as (q & <- & Hq).
    apply filter_In in Hq. destruct Hq as [Hq Hphoto].
    destruct (sceneWellFormed_particle s q Hwf Hq) as [Hqpar Hqid].
    destruct (sceneWellFormed_particle s p Hwf Hp) as [Hppar _].
    rewrite particle_mesh_not_under in Hanc; auto; [discriminate|].
    intros Hm. apply (sceneWellFormed_same_mesh s q p Hwf Hq Hp) in Hm.
    subst q. congruence. }
  rewrite Hno. apply IH. intros h' Hh'. apply Hray. right. exact Hh'.
Qed.

(** Whenever the raycasting block changes the state, it has focused an
    interactive particle that the ray met (itself or a part of it). *)
Lemma resolveSelection_selects_photo (s : State) (ray : list Object3D) :
  sceneWellFormed s ->
  resolveSelection ray s <> s ->
  exists q hit,
    In q (particles s) /\ isPhoto q = true /\
    In hit ray /\ isSelfOrAncestor (mesh q) hit = true /\
    mode (resolveSelection ray s) = AppMode.FOCUS /\
    focusTarget (resolveSelection ray s) = Some (mesh q).
Proof.
  intros Hwf Hchg. unfold resolveSelection in *.
  destruct (gesture (handData s)); try contradiction.
  destruct (focusTarget s); try contradiction.
  destruct (Raycaster.intersectObjects ray _ true) as [|hit rest] eqn:Hint;
    [contradiction|].
  assert (Hhit : In hit (Raycaster.intersectObjects ray
                   (map mesh (List.filter isPhoto (particles s))) true)).
  { rewrite Hint. left. reflexivity. }
  apply filter_In in Hhit. destruct Hhit as [Hinray Hex].
  apply existsb_exists in Hex. destruct Hex as (o & Ho & Hanc).
  apply in_map_iff in Ho. destruct Ho as (q & <- & Hq).
  apply filter_In in Hq. destruct Hq as [Hq Hphoto].
  destruct (sceneWellFormed_particle s q Hwf Hq) as [Hqpar Hqid].
  rewrite (climbToRoot_reaches (particles s) (mesh q) Hqpar Hqid hit Hanc) in *.
  destruct (List.find _ (particles s)) as [p|] eqn:Hfind; [|contradiction].
  apply find_some in Hfind. destruct Hfind as [Hp Heq].
  apply Object3D_eqb_eq in Heq.
  apply (sceneWellFormed_same_mesh s p q Hwf Hp Hq) in Heq. subst p.
  exists q, hit. cbn. repeat split; assumption.
Qed.

(** * The claims about the mode state machine *)

(** C2.  In every state the mounted component can reach, a focus target is
    present if and only if the mode is [FOCUS].  The gesture callback, the
    raycasting block and the whole frame each keep the property, so a step
    that enters [FOCUS] sets the target and a step that leaves [FOCUS]
    clears it, within that same step. *)
Theorem focus_target_iff_focus_mode `{Numerics} :
  (forall draws evs, focusConsistent (run evs (setup draws initialState))) /\
  (forall data s, focusConsistent s -> focusConsistent (onHandData data s)) /\
  (forall ray s, focusConsistent s -> focusConsistent (resolveSelection ray s)) /\
  (forall delta elapsed ray s,
     focusConsistent s -> focusConsistent (animate delta elapsed ray s)) /\
  (forall e s, focusConsistent s ->
     mode s <> AppMode.FOCUS -> mode (step s e) = AppMode.FOCUS ->
     is_Some (focusTarget (step s e))) /\
  (forall e s, focusConsistent s ->
     mode s = AppMode.FOCUS -> mode (step s e) <> AppMode.FOCUS ->
     focusTarget (step s e) = None).
Proof.
  split; [|split; [|split; [|split; [|split]]]].
  - intros draws evs. apply focusConsistent_run, focusConsistent_setup,
      focusConsistent_initial.
  - intros data s. apply focusConsistent_onHandData.
  - intros ray s. apply focusConsistent_resolveSelection.
  - intros delta elapsed ray s. apply focusConsistent_animate.
  - intros e s Hs _ Hm. apply (focusConsistent_step e s Hs), Hm.
  - intros e s Hs _ Hm. pose proof (focusConsistent_step e s Hs) as Hc.
    destruct (focusTarget (step s e)) eqn:Hf; [|reflexivity].
    exfalso. apply Hm, Hc. eauto.
Qed.

(** C3.  Whatever the state, and whatever the events before, a sample
    whose gesture is [CLOSED] leaves the machine in mode [TREE] without a
    focus target; neither the pinch distance of that sample nor the mode
    it finds (the hold of [FOCUS] included) can prevent it, and the frames
    drawn before the next sample keep it so. *)
Theorem closed_sample_forces_tree `{Numerics} (s : State) (px py pd : Q) :
  let closed := mkHandData px py CLOSED pd in
  (mode (onHandData closed s) = AppMode.TREE /\
   focusTarget (onHandData closed s) = None) /\
  (forall evs,
     mode (run (evs ++ [EvHand closed]) s) = AppMode.TREE /\
     focusTarget (run (evs ++ [EvHand closed]) s) = None) /\
  (forall evs frames, forallb isFrame frames = true ->
     mode (run (evs ++ EvHand closed :: frames) s) = AppMode.TREE /\
     focusTarget (run (evs ++ EvHand closed :: frames) s) = None).
Proof.
  intros closed.
  assert (Hone : forall s0, mode (onHandData closed s0) = AppMode.TREE /\
                            focusTarget (onHandData closed s0) = None).
  { intros s0. apply onHandData_CLOSED. reflexivity. }
  split; [apply Hone|]. split.
  - intros evs. rewrite run_app. apply Hone.
  - intros evs frames Hfr. rewrite run_app, run_cons. cbn [step].
    destruct (frames_keep_cleared frames (onHandData closed (run evs s)) Hfr)
      as (Hm & Hf & _); [cbn; discriminate|].
    rewrite Hm, Hf. apply Hone.
Qed.

(** C4.  A sample whose gesture is [OPEN] moves the machine to [SCATTER]
    and clears the focus target, unless the mode is [FOCUS] and the pinch
    distance of the sample is at most 0.4; then mode and focus target stay
    as they are.  From [FOCUS], pinch distance 0.3 holds the focus and
    pinch distance 0.5 gives [SCATTER] with the focus cleared. *)
Theorem open_sample_scatters_or_holds (s : State) (px py pd : Q) :
  let opened := mkHandData px py OPEN pd in
  (mode s = AppMode.FOCUS /\ pd <= 0.4 ->
   mode (onHandData opened s) = AppMode.FOCUS /\
   focusTarget (onHandData opened s) = focusTarget s) /\
  (mode s <> AppMode.FOCUS \/ 0.4 < pd ->
   mode (onHandData opened s) = AppMode.SCATTER /\
   focusTarget (onHandData opened s) = None) /\
  (mode s = AppMode.FOCUS ->
   mode (onHandData (mkHandData px py OPEN 0.3) s) = AppMode.FOCUS /\
   focusTarget (onHandData (mkHandData px py OPEN 0.3) s) = focusTarget s) /\
  (mode (onHandData (mkHandData px py OPEN 0.5) s) = AppMode.SCATTER /\
   focusTarget (onHandData (mkHandData px py OPEN 0.5) s) = None).
Proof.
  intros opened. split; [|split; [|split]].
  - intros [Hm Hp]. apply onHandData_OPEN_hold; auto.
  - intros Hc. apply onHandData_OPEN_exit; auto.
  - intros Hm. apply onHandData_OPEN_hold; auto. cbn. lra.
  - apply onHandData_OPEN_exit; auto. right. cbn. lra.
Qed.

(** C6.  The raycasting block does nothing unless the last gesture is
    [PINCH] and no focus target is set, whatever the ray meets.  Hence,
    once a focus target is set, any pinch sample, any frame after it, and
    any sequence of pinch samples and frames leave mode and focus target
    as they are. *)
Theorem pinch_while_focused_changes_nothing `{Numerics} (s : State) :
  (forall ray,
     gesture (handData s) <> PINCH \/ is_Some (focusTarget s) ->
     resolveSelection ray s = s) /\
  (is_Some (focusTarget s) ->
   forall px py pd delta elapsed ray,
     let s1 := onHandData (mkHandData px py PINCH pd) s in
     mode s1 = mode s /\ focusTarget s1 = focusTarget s /\
     mode (animate delta elapsed ray s1) = mode s /\
     focusTarget (animate delta elapsed ray s1) = focusTarget s) /\
  (is_Some (focusTarget s) ->
   forall evs, forallb isPinchOrFrame evs = true ->
     mode (run evs s) = mode s /\ focusTarget (run evs s) = focusTarget s).
Proof.
  split; [|split].
  - intros ray Hc. apply resolveSelection_idle, Hc.
  - intros Hfoc px py pd delta elapsed ray s1.
    destruct (onHandData_other s (mkHandData px py PINCH pd)) as [Hm Hf];
      [left; reflexivity|].
    fold s1 in Hm, Hf.
    destruct (animate_idle delta elapsed ray s1) as [Hm' Hf'].
    { right. rewrite Hf. exact Hfoc. }
    rewrite Hm', Hf'. auto.
  - intros Hfoc evs Hall. apply pinches_keep_focus; assumption.
Qed.

(** C5.  In a reachable state, the raycasting block tests the ray against
    the interactive particles only: if it changes the state at all, it has
    entered [FOCUS] on an interactive particle that the ray met.  A ray that
    meets decorative particle meshes only, or nothing, leaves the whole
    state as it is, and the frame leaves mode and focus target as they
    are. *)
Theorem pinch_selects_interactive_only `{Numerics} (s : State) :
  reachable s ->
  (forall ray, resolveSelection ray s <> s ->
     exists q hit,
       In q (particles s) /\ isPhoto q = true /\
       In hit ray /\ isSelfOrAncestor (mesh q) hit = true /\
       mode (resolveSelection ray s) = AppMode.FOCUS /\
       focusTarget (resolveSelection ray s) = Some (mesh q)) /\
  (forall ray,
     (forall h, In h ray ->
        exists p, In p (particles s) /\ isPhoto p = false /\ h = mesh p) ->
     resolveSelection ray s = s /\
     forall delta elapsed,
       mode (animate delta elapsed ray s) = mode s /\
       focusTarget (animate delta elapsed ray s) = focusTarget s) /\
  (resolveSelection [] s = s /\
   forall delta elapsed,
     mode (animate delta elapsed [] s) = mode s /\
     focusTarget (animate delta elapsed [] s) = focusTarget s).
Proof.
  intros Hreach. destruct (reachable_wellFormed s Hreach) as [Hwf _].
  assert (Hframe : forall ray, resolveSelection ray s = s ->
            forall delta elapsed,
              mode (animate delta elapsed ray s) = mode s /\
              focusTarget (animate delta elapsed ray s) = focusTarget s).
  { intros ray Hsame delta elapsed.
    destruct (animate_mode_focus delta elapsed ray s) as (Hm & Hf & _).
    rewrite Hm, Hf, Hsame. auto. }
  split; [|split].
  - intros ray. apply resolveSelection_selects_photo, Hwf.
  - intros ray Hdecor.
    assert (Hsame : resolveSelection ray s = s).
    { unfold resolveSelection.
      rewrite (intersectObjects_decor s ray Hwf Hdecor).
      destruct (gesture (handData s)); try reflexivity.
      destruct (focusTarget s); reflexivity. }
    split; [exact Hsame | apply Hframe, Hsame].
  - assert (Hsame : resolveSelection [] s = s).
    { unfold resolveSelection. rewrite intersectObjects_nil.
      destruct (gesture (handData s)); try reflexivity.
      destruct (focusTarget s); reflexivity. }
    split; [exact Hsame | apply Hframe, Hsame].
Qed.

Lemma samplePinching_reachable : @reachable sampleNumerics samplePinching.
Proof. exists sampleDraws, (sampleLoaded ++ [EvHand samplePinch]). reflexivity. Qed.

(** The pinching sample state is reachable; a ray through the first
    decorative sphere leaves it alone. *)
Lemma pinch_selects_interactive_only_witness :
  @reachable sampleNumerics samplePinching /\
  gesture (handData samplePinching) = PINCH /\
  resolveSelection [mesh (createParticle sampleDraws 0)] samplePinching
    = samplePinching.
Proof.
  split; [exact samplePinching_reachable|]. split; [reflexivity|].
  destruct (@pinch_selects_interactive_only sampleNumerics samplePinching
              samplePinching_reachable) as (_ & Hdecor & _).
  apply (Hdecor [mesh (createParticle sampleDraws 0)]).
  intros h [<- | []]. exists (createParticle sampleDraws 0).
  split; [left; reflexivity|]. split; reflexivity.
Defined.

(** * Zoom by pinch aperture *)

Lemma clamp_below (v lo hi : Q) : lo <= hi -> v <= lo -> MathUtils.clamp v lo hi == lo.
Proof.
  intros Hlh Hv. unfold MathUtils.clamp.
  rewrite (Q.min_r hi v) by lra. apply Q.max_l. exact Hv.
Qed.

Lemma clamp_inside (v lo hi : Q) : lo <= v <= hi -> MathUtils.clamp v lo hi == v.
Proof.
  intros [Hl Hh]. unfold MathUtils.clamp.
  rewrite (Q.min_r hi v) by lra. apply Q.max_r. exact Hl.
Qed.

Lemma clamp_above (v lo hi : Q) : lo <= hi -> hi <= v -> MathUtils.clamp v lo hi == hi.
Proof.
  intros Hlh Hv. unfold MathUtils.clamp.
  rewrite (Q.min_l hi v) by lra. apply Q.max_r. exact Hlh.
Qed.

Lemma clamp_range (v lo hi : Q) : lo <= hi -> lo <= MathUtils.clamp v lo hi <= hi.
Proof.
  intros Hlh. unfold MathUtils.clamp. split.
  - apply Q.le_max_l.
  - apply Q.max_lub; [exact Hlh | apply Q.le_min_l].
Qed.

Lemma targetScale_focus (s : State) (p : Particle) (pinchVal : Q) :
  mode s = AppMode.FOCUS -> isFocusTarget s p = true ->
  targetScale s pinchVal p = 5 + MathUtils.clamp pinchVal 0.0 0.4 * 12.
Proof. intros Hm Hf. unfold targetScale. rewrite Hm, Hf. reflexivity. Qed.

(** C1, as the code has it.  In [FOCUS] mode the target scale of the focus
    target is 5 + 12 * clamp(smoothed pinch, 0, 0.4): the base is the
    constant 5, not the particle's [baseScale], and the boost is linear in
    the clamped smoothed pinch distance with slope 12.  The boost is 0 at
    pinch distance 0 (or below), 12 * pinch in between, and 4.8 at 0.4 or
    above, where the target scale is 9.8. *)
Theorem focus_target_scale_by_pinch (s : State) (p : Particle) (pinchVal : Q) :
  mode s = AppMode.FOCUS -> isFocusTarget s p = true ->
  targetScale s pinchVal p == 5 + 12 * MathUtils.clamp pinchVal 0 0.4 /\
  (pinchVal <= 0 -> targetScale s pinchVal p == 5) /\
  (0 <= pinchVal <= 0.4 -> targetScale s pinchVal p == 5 + 12 * pinchVal) /\
  (0.4 <= pinchVal -> targetScale s pinchVal p == 9.8) /\
  5 <= targetScale s pinchVal p <= 9.8.
Proof.
  intros Hm Hf. rewrite (targetScale_focus s p pinchVal Hm Hf).
  assert (Hzero : MathUtils.clamp pinchVal 0.0 0.4 == MathUtils.clamp pinchVal 0 0.4).
  { unfold MathUtils.clamp. apply Q.max_compat; reflexivity. }
  rewrite Hzero.
  split; [ring|]. split; [|split; [|split]].
  - intros Hv. rewrite (clamp_below pinchVal 0 0.4) by lra. lra.
  - intros Hv. rewrite (clamp_inside pinchVal 0 0.4) by lra. lra.
  - intros Hv. rewrite (clamp_above pinchVal 0 0.4) by lra. lra.
  - pose proof (clamp_range pinchVal 0 0.4) as Hr. lra.
Qed.

Lemma sampleFocus_photo :
  mode sampleFocus = AppMode.FOCUS /\ isFocusTarget sampleFocus samplePhoto = true.
Proof. vm_compute. auto. Qed.

(** In the sample scene focused on the photo, at smoothed pinch 0.4 the
    target scale is 9.8. *)
Lemma focus_target_scale_by_pinch_witness :
  mode sampleFocus = AppMode.FOCUS /\
  isFocusTarget sampleFocus samplePhoto = true /\
  targetScale sampleFocus 0.4 samplePhoto == 9.8.
Proof.
  destruct sampleFocus_photo as [Hm Hf].
  split; [exact Hm|]. split; [exact Hf|].
  apply (focus_target_scale_by_pinch sampleFocus samplePhoto 0.4 Hm Hf). lra.
Defined.

(** C1 as stated fails: for the focused photo of the sample scene, whose
    [baseScale] is 1, the target scale at smoothed pinch distance 0.4 is
    not [baseScale + 12], and it exceeds the target scale at pinch distance
    0 by less than 12. *)
Lemma focus_target_scale_counterexample :
  ~ (targetScale sampleFocus 0.4 samplePhoto == baseScale samplePhoto + 12) /\
  ~ (targetScale sampleFocus 0.4 samplePhoto
       - targetScale sampleFocus 0 samplePhoto == 12).
Proof. split; vm_compute; discriminate. Qed.

(** * Photo ingestion *)

Lemma displaySize_landscape (a : Q) :
  1 <= a -> displaySize a = (3, 3 / a).
Proof.
  intros Ha. unfold displaySize. apply Qltb_ge in Ha. rewrite Ha. reflexivity.
Qed.

Lemma displaySize_portrait (a : Q) :
  a < 1 -> displaySize a = (3 * a, 3).
Proof.
  intros Ha. unfold displaySize. apply Qltb_lt in Ha. rewrite Ha. reflexivity.
Qed.

(** C8, as the code has it.  For an aspect ratio [a > 0] the photo plane
    has its long side equal to 3 and its short side equal to
    3 * min(a, 1/a); width over height is [a]. *)
Theorem display_rectangle_long_side_three (a : Q) :
  0 < a ->
  longSide (displaySize a) == 3 /\
  shortSide (displaySize a) == 3 * Qmin a (/ a) /\
  fst (displaySize a) / snd (displaySize a) == a /\
  0 < shortSide (displaySize a) <= 3.
Proof.
  intros Ha. unfold longSide, shortSide.
  destruct (Qlt_le_dec a 1) as [Hlt | Hge].
  - rewrite (displaySize_portrait a Hlt). cbn [fst snd].
    assert (Hinv : 1 < / a).
    { apply (Qmult_lt_l _ _ a Ha). rewrite Qmult_inv_r by lra. lra. }
    rewrite (Q.max_r (3 * a) 3) by lra.
    rewrite (Q.min_l (3 * a) 3) by lra.
    rewrite (Q.min_l a (/ a)) by lra.
    split; [reflexivity|]. split; [reflexivity|].
    split; [field | lra].
  - rewrite (displaySize_landscape a Hge). cbn [fst snd].
    assert (Hdiv : 3 / a == 3 * / a) by reflexivity.
    assert (Hinv : 0 < / a <= 1).
    { split; [apply Qinv_lt_0_compat, Ha|].
      apply (Qmult_le_l _ _ a Ha). rewrite Qmult_inv_r by lra. lra. }
    rewrite (Q.max_l 3 (3 / a)) by lra.
    rewrite (Q.min_r 3 (3 / a)) by lra.
    rewrite (Q.min_r a (/ a)) by lra.
    split; [reflexivity|]. split; [reflexivity|].
    split; [field; lra | lra].
Qed.

(** A 16:9 image gets a plane 3 wide and 27/16 high. *)
Lemma display_rectangle_long_side_three_witness :
  0 < 16 # 9 /\
  longSide (displaySize (16 # 9)) == 3 /\
  shortSide (displaySize (16 # 9)) == 27 # 16.
Proof.
  assert (Ha : 0 < 16 # 9) by reflexivity.
  destruct (display_rectangle_long_side_three (16 # 9) Ha) as (Hlong & Hshort & _).
  split; [exact Ha|]. split; [exact Hlong|].
  rewrite Hshort. reflexivity.
Defined.

(** C8 as stated fails: for a 2:1 image the short side of the plane is
    3/2, not 3, and the long side is 3, not 3 * max(2, 1/2) = 6. *)
Lemma display_rectangle_counterexample :
  ~ (shortSide (displaySize 2) == 3) /\
  ~ (longSide (displaySize 2) == 3 * Qmax 2 (/ 2)).
Proof. split; vm_compute; discriminate. Qed.

(** ** Partial failure of a batch *)

Lemma interactiveCount_flags (ps ps' : list Particle) :
  map isPhoto ps' = map isPhoto ps ->
  length (List.filter isPhoto ps') = length (List.filter isPhoto ps).
Proof.
  revert ps'. induction ps as [|p ps IH]; intros [|p' ps'] Hmap;
    try discriminate; [reflexivity|].
  cbn in Hmap. injection Hmap as Hp Hps. cbn. rewrite Hp.
  destruct (isPhoto p); cbn; rewrite (IH ps' Hps); reflexivity.
Qed.

Lemma loadImage_corrupt (d : PhotoDraw) (s : State) : loadImage Undecodable d s = s.
Proof. reflexivity. Qed.

Lemma loadImage_valid (width height : positive) (d : PhotoDraw) (s : State) :
  sceneReady s ->
  exists p,
    particles (loadImage (Decodable width height) d s) = particles s ++ [p] /\
    isPhoto p = true /\ type p = ParticleType.PHOTO.
Proof.
  intros Hready.
  destruct (imgOnload_ready width height d s Hready)
    as (p & par & Hps & _ & _ & _ & Hphoto & Hty & _).
  exists p. auto.
Qed.

Lemma interactiveCount_app_photo (s s' : State) (p : Particle) :
  particles s' = particles s ++ [p] -> isPhoto p = true ->
  interactiveCount s' = S (interactiveCount s) /\
  length (particles s') = S (length (particles s)).
Proof.
  intros Hps Hp. unfold interactiveCount.
  rewrite Hps, List.filter_app, !length_app. cbn. rewrite Hp. cbn. lia.
Qed.

Section Ingestion.
Context `{Numerics}.

(** One event changes the number of interactive particles, and the size
    of the collection, exactly when it is the load of a decodable image. *)
Lemma interactiveCount_step (e : Event) (s : State) :
  sceneReady s ->
  interactiveCount (step s e) =
    (interactiveCount s + (if isValidLoad e then 1 else 0))%nat /\
  length (particles (step s e)) =
    (length (particles s) + (if isValidLoad e then 1 else 0))%nat.
Proof.
  intros Hready.
  assert (Hsame : forall s', map mesh (particles s') = map mesh (particles s) ->
            map isPhoto (particles s') = map isPhoto (particles s) ->
            interactiveCount s' = (interactiveCount s + 0)%nat /\
            length (particles s') = (length (particles s) + 0)%nat).
  { intros s' Hmesh Hflags. unfold interactiveCount.
    rewrite (interactiveCount_flags _ _ Hflags).
    rewrite <- (length_map mesh (particles s')), Hmesh, length_map. lia. }
  destruct e as [data | delta elapsed ray | imgs | img d]; cbn [step isValidLoad].
  - apply Hsame; unfold onHandData; destruct (gesture data); cbn;
      try reflexivity; destruct (_ || _); reflexivity.
  - destruct (animate_particles delta elapsed ray s) as (Hm & Hf & _).
    apply Hsame; assumption.
  - apply Hsame; unfold uploadEffect; destruct (0 <? _)%nat; reflexivity.
  - destruct img as [w h|]; cbn [isDecodable].
    + destruct (loadImage_valid w h d s Hready) as (p & Hps & Hp & _).
      destruct (interactiveCount_app_photo s _ p Hps Hp) as [-> ->]. lia.
    + rewrite loadImage_corrupt. lia.
Qed.

Lemma interactiveCount_run (evs : list Event) (s : State) :
  reachable s ->
  interactiveCount (run evs s) = (interactiveCount s + validLoads evs)%nat /\
  length (particles (run evs s)) = (length (particles s) + validLoads evs)%nat.
Proof.
  revert s. induction evs as [|e evs IH]; intros s Hreach.
  - cbn. unfold validLoads. cbn. lia.
  - rewrite run_cons.
    destruct (IH (step s e) (reachable_step e s Hreach)) as [-> ->].
    destruct (interactiveCount_step e s (reachable_ready s Hreach)) as [-> ->].
    unfold validLoads. cbn [List.filter].
    destruct (isValidLoad e); cbn [length]; lia.
Qed.

Lemma ingest_run (batch : list (ImageSource * PhotoDraw)) (s : State) :
  ingest batch s = run (map (fun b => EvImage (fst b) (snd b)) batch) s.
Proof.
  revert s. induction batch as [|[img d] batch IH]; intros s; [reflexivity|].
  cbn [ingest map fst snd]. rewrite run_cons. apply IH.
Qed.

Lemma validLoads_batch (batch : list (ImageSource * PhotoDraw)) :
  validLoads (map (fun b => EvImage (fst b) (snd b)) batch) = validCount batch.
Proof.
  unfold validLoads, validCount.
  induction batch as [|[img d] batch IH]; [reflexivity|].
  cbn [map List.filter fst snd isValidLoad].
  destruct (isDecodable img); cbn [length]; rewrite IH; reflexivity.
Qed.

(** The effect on the list of uploads starts the loads of exactly the
    images that were appended since it last ran. *)
Lemma uploadEffect_new (old new : list ImageSource) (s : State) :
  processedImagesCount s = length old ->
  fst (uploadEffect (old ++ new) s) = new /\
  processedImagesCount (snd (uploadEffect (old ++ new) s)) = length (old ++ new).
Proof.
  intros Hcount. unfold uploadEffect. rewrite Hcount, drop_app_length.
  destruct new as [|img new]; cbn [length Nat.ltb Nat.leb fst snd].
  - rewrite app_nil_r. auto.
  - auto.
Qed.

Lemma decodableCount_perm (l l' : list ImageSource) :
  Permutation l l' -> decodableCount l = decodableCount l'.
Proof.
  unfold decodableCount. intros Hperm.
  induction Hperm as [|img l l' _ IH|a b l|l l' l'' _ IH1 _ IH2]; cbn.
  - reflexivity.
  - destruct (isDecodable img); cbn; rewrite IH; reflexivity.
  - destruct (isDecodable a), (isDecodable b); reflexivity.
  - congruence.
Qed.

Lemma validLoads_completedLoads (evs : list Event) :
  validLoads evs = decodableCount (completedLoads evs).
Proof.
  unfold validLoads, decodableCount, completedLoads.
  induction evs as [|e evs IH]; [reflexivity|].
  cbn [List.filter flat_map].
  destruct e as [data | delta elapsed ray | imgs | img d]; cbn [isValidLoad app];
    try exact IH.
  cbn [List.filter]. destruct (isDecodable img); cbn [length]; rewrite IH; reflexivity.
Qed.

Lemma validCount_imap (f : nat -> ImageSource -> ImageSource * PhotoDraw)
    (imgs : list ImageSource) :
  (forall i img, fst (f i img) = img) ->
  validCount (imap f imgs) = decodableCount imgs.
Proof.
  unfold validCount, decodableCount. revert f.
  induction imgs as [|img imgs IH]; intros f Hf; [reflexivity|].
  cbn [imap List.filter]. rewrite (Hf 0%nat img).
  destruct (isDecodable img); cbn [length]; rewrite (IH (f ∘ S));
    try reflexivity; intros i a; apply Hf.
Qed.

Lemma validCount_draws (draws : nat -> PhotoDraw) (imgs : list ImageSource) :
  validCount (imap (fun i img => (img, draws i)) imgs) = decodableCount imgs.
Proof. apply validCount_imap. reflexivity. Qed.

Lemma ingest_processedImagesCount (batch : list (ImageSource * PhotoDraw))
    (s : State) :
  processedImagesCount (ingest batch s) = processedImagesCount s.
Proof.
  revert s. induction batch as [|[img d] batch IH]; intros s; [reflexivity|].
  cbn [ingest]. rewrite IH.
  unfold loadImage, imgOnload, addPhotoHandler. destruct img as [w h|]; [|reflexivity].
  destruct (displaySize _) as [dw dh]. cbn.
  destruct (particles s) as [|p0 rest]; [reflexivity|].
  destruct (parent (mesh p0)); reflexivity.
Qed.

(** C7.  Let the list of uploads grow by a batch while the cursor
    [processedImagesCount] stands at the length of the list before.  From
    any reachable state the upload effect starts the load of exactly the
    images of the batch, and when these loads complete every decodable
    image has added exactly one particle, an interactive one, and every
    undecodable image has left the state as it was: the number of
    interactive particles has grown by the number of decodable images of
    the batch, and the cursor stands at the length of the new list.  The
    same count holds when the loads complete in any order and samples and
    frames come in between.  A batch of six images of which five are
    decodable adds exactly five interactive particles. *)
Theorem ingestion_adds_one_particle_per_valid_image (s : State)
    (old batch : list ImageSource) (draws : nat -> PhotoDraw) :
  reachable s ->
  processedImagesCount s = length old ->
  fst (uploadEffect (old ++ batch) s) = batch /\
  interactiveCount (processUploads (old ++ batch) draws s)
    = (interactiveCount s + decodableCount batch)%nat /\
  length (particles (processUploads (old ++ batch) draws s))
    = (length (particles s) + decodableCount batch)%nat /\
  processedImagesCount (processUploads (old ++ batch) draws s)
    = length (old ++ batch) /\
  (forall evs,
     Permutation (completedLoads evs) (fst (uploadEffect (old ++ batch) s)) ->
     interactiveCount (run evs (snd (uploadEffect (old ++ batch) s)))
       = (interactiveCount s + decodableCount batch)%nat) /\
  (forall d s0, loadImage Undecodable d s0 = s0) /\
  (forall width height d,
     exists p,
       particles (loadImage (Decodable width height) d s) = particles s ++ [p] /\
       isPhoto p = true /\ type p = ParticleType.PHOTO) /\
  (length batch = 6%nat -> decodableCount batch = 5%nat ->
   interactiveCount (processUploads (old ++ batch) draws s)
     = (interactiveCount s + 5)%nat).
Proof.
  intros Hreach Hcursor.
  destruct (uploadEffect_new old batch s Hcursor) as [Hstarted Hcount].
  pose proof (reachable_step (EvUpload (old ++ batch)) s Hreach) as Hreach1.
  cbn [step] in Hreach1.
  assert (Hsame : interactiveCount (snd (uploadEffect (old ++ batch) s))
                    = interactiveCount s /\
                  length (particles (snd (uploadEffect (old ++ batch) s)))
                    = length (particles s)).
  { unfold interactiveCount, uploadEffect. destruct (0 <? _)%nat; auto. }
  destruct Hsame as [Hsame Hlen].
  assert (Hproc : processUploads (old ++ batch) draws s
                  = ingest (imap (fun i img => (img, draws i)) batch)
                           (snd (uploadEffect (old ++ batch) s))).
  { unfold processUploads. revert Hstarted.
    destruct (uploadEffect (old ++ batch) s) as [newImages s1].
    cbn [fst snd]. intros ->. reflexivity. }
  assert (Hcounts :
    interactiveCount (processUploads (old ++ batch) draws s)
      = (interactiveCount s + decodableCount batch)%nat /\
    length (particles (processUploads (old ++ batch) draws s))
      = (length (particles s) + decodableCount batch)%nat).
  { rewrite Hproc, ingest_run.
    destruct (interactiveCount_run
                (map (fun b => EvImage (fst b) (snd b))
                     (imap (fun i img => (img, draws i)) batch))
                _ Hreach1) as [Hc Hl].
    rewrite Hc, Hl, validLoads_batch, validCount_draws, Hsame, Hlen. auto. }
  destruct Hcounts as [Hc Hl].
  split; [exact Hstarted|]. split; [exact Hc|]. split; [exact Hl|].
  split; [rewrite Hproc, ingest_processedImagesCount; exact Hcount|].
  split; [|split; [reflexivity|split]].
  - intros evs Hperm.
    destruct (interactiveCount_run evs _ Hreach1) as [Hrun _].
    rewrite Hrun, Hsame, validLoads_completedLoads,
      (decodableCount_perm _ _ Hperm), Hstarted. reflexivity.
  - intros width height d. apply loadImage_valid, reachable_ready, Hreach.
  - intros _ Hfive. rewrite Hc, Hfive. reflexivity.
Qed.

End Ingestion.

Lemma sampleScene_reachable : @reachable sampleNumerics sampleScene.
Proof. exists sampleDraws, []. reflexivity. Qed.

(** Five decodable images and a corrupt one are uploaded to the sample
    scene: the effect starts their loads and five interactive particles
    are there when the loads have completed. *)
Lemma ingestion_adds_one_particle_per_valid_image_witness :
  @reachable sampleNumerics sampleScene /\
  processedImagesCount sampleScene = length (@nil ImageSource) /\
  interactiveCount sampleScene = 0%nat /\
  interactiveCount
    (processUploads ([] ++ map fst sampleBatch) (fun _ => samplePhotoDraw) sampleScene)
    = 5%nat.
Proof.
  assert (Hcursor : processedImagesCount sampleScene = length (@nil ImageSource))
    by reflexivity.
  split; [exact sampleScene_reachable|]. split; [exact Hcursor|].
  split; [reflexivity|].
  destruct (@ingestion_adds_one_particle_per_valid_image sampleNumerics
              sampleScene [] (map fst sampleBatch) (fun _ => samplePhotoDraw)
              sampleScene_reachable Hcursor) as (_ & Hc & _).
  rewrite Hc. reflexivity.
Defined.

(** * Interpolation toward a constant target *)

Lemma MathUtils_lerp_lerp1 (a b t : Q) :
  MathUtils.lerp a b t == Vector3.lerp1 a b t.
Proof. unfold MathUtils.lerp, Vector3.lerp1. ring. Qed.

Lemma lerpError_nonneg (target cur : Q) : 0 <= lerpError target cur.
Proof. apply Qabs_nonneg. Qed.

Lemma lerpError_zero (target cur : Q) : lerpError target cur == 0 <-> cur == target.
Proof.
  unfold lerpError. split; intros Hz.
  - assert (Hle : Qabs (target - cur) <= 0) by lra.
    apply Qabs_Qle_condition in Hle. lra.
  - rewrite Qabs_pos; lra.
Qed.

(** One interpolation step multiplies the error by [1 - k]. *)
Lemma lerp1_error (target cur k : Q) :
  k <= 1 ->
  lerpError target (Vector3.lerp1 cur target k) == (1 - k) * lerpError target cur.
Proof.
  intros Hk. unfold lerpError, Vector3.lerp1.
  assert (Hfactor : target - (cur + (target - cur) * k) == (1 - k) * (target - cur))
    by ring.
  rewrite Hfactor, Qabs_Qmult, (Qabs_pos (1 - k)) by lra. reflexivity.
Qed.

Lemma lerp1_between (target cur k : Q) :
  0 < k <= 1 ->
  (cur <= target -> cur <= Vector3.lerp1 cur target k <= target) /\
  (target <= cur -> target <= Vector3.lerp1 cur target k <= cur).
Proof.
  intros [Hk0 Hk1]. unfold Vector3.lerp1. split; intros Hle; split; nra.
Qed.

Lemma lerp1_contracts (target cur k : Q) :
  0 < k <= 1 ->
  lerpError target (Vector3.lerp1 cur target k) <= lerpError target cur /\
  (~ cur == target ->
   lerpError target (Vector3.lerp1 cur target k) < lerpError target cur).
Proof.
  intros [Hk0 Hk1]. rewrite lerp1_error by exact Hk1.
  pose proof (lerpError_nonneg target cur) as Hnn. split.
  - nra.
  - intros Hne.
    assert (Hpos : 0 < lerpError target cur).
    { destruct (Qlt_le_dec 0 (lerpError target cur)) as [Hp | Hz]; [exact Hp|].
      exfalso. apply Hne, lerpError_zero. lra. }
    nra.
Qed.

Lemma lerpRun_cons (target rate dt : Q) (dts : list Q) (cur : Q) :
  lerpRun target rate (dt :: dts) cur =
  lerpRun target rate dts (Vector3.lerp1 cur target (rate * dt)).
Proof. reflexivity. Qed.

Lemma lerpRun_app (target rate : Q) (dts1 dts2 : list Q) (cur : Q) :
  lerpRun target rate (dts1 ++ dts2) cur =
  lerpRun target rate dts2 (lerpRun target rate dts1 cur).
Proof. unfold lerpRun. apply fold_left_app. Qed.

(** The error never grows over a run of frames. *)
Lemma lerpRun_monotone (target rate : Q) (dts : list Q) (cur : Q) :
  Forall (fun dt => 0 < rate * dt <= 1) dts ->
  lerpError target (lerpRun target rate dts cur) <= lerpError target cur.
Proof.
  revert cur. induction dts as [|dt dts IH]; intros cur Hall.
  - cbn. lra.
  - inversion Hall as [|? ? Hdt Hrest]; subst. rewrite lerpRun_cons.
    pose proof (IH (Vector3.lerp1 cur target (rate * dt)) Hrest) as Hstep.
    destruct (lerp1_contracts target cur (rate * dt) Hdt) as [Hle _]. lra.
Qed.

(** With frame times bounded away from zero the error after [n] frames is
    at most the initial error divided by [1 + n * kmin]. *)
Lemma lerpRun_decay (target rate kmin : Q) (dts : list Q) (cur : Q) :
  0 < kmin ->
  Forall (fun dt => kmin <= rate * dt <= 1) dts ->
  lerpError target (lerpRun target rate dts cur) * (1 + Q_of_nat (length dts) * kmin)
    <= lerpError target cur.
Proof.
  intros Hkmin. revert cur. induction dts as [|dt dts IH]; intros cur Hall.
  - cbn [lerpRun fold_left length]. change (Q_of_nat 0) with 0.
    assert (Hone : lerpError target cur * (1 + 0 * kmin) == lerpError target cur)
      by ring.
    rewrite Hone. lra.
  - inversion Hall as [|? ? [Hlo Hhi] Hrest]; subst. rewrite lerpRun_cons.
    set (next := Vector3.lerp1 cur target (rate * dt)).
    pose proof (IH next Hrest) as Hdecay.
    assert (Hmono : lerpError target (lerpRun target rate dts next)
                    <= lerpError target next).
    { apply lerpRun_monotone. eapply Forall_impl; [exact Hrest|].
      cbn. intros a [? ?]. split; lra. }
    assert (Hnext : lerpError target next == (1 - rate * dt) * lerpError target cur).
    { apply lerp1_error. exact Hhi. }
    pose proof (lerpError_nonneg target cur) as Hnn.
    pose proof (lerpError_nonneg target (lerpRun target rate dts next)) as Hnn'.
    assert (Hlen : Q_of_nat (length (dt :: dts)) == Q_of_nat (length dts) + 1).
    { unfold Q_of_nat. cbn [length]. rewrite Nat2Z.inj_succ, <- Z.add_1_r.
      rewrite inject_Z_plus. reflexivity. }
    rewrite Hlen.
    set (e := lerpError target cur) in *.
    set (en := lerpError target (lerpRun target rate dts next)) in *.
    set (n := Q_of_nat (length dts)) in *.
    set (k := rate * dt) in *.
    assert (H1 : en * (1 + n * kmin) <= (1 - k) * e) by lra.
    assert (H2 : en <= (1 - k) * e) by lra.
    assert (H3 : en * kmin <= (1 - k) * e * kmin) by nra.
    assert (H4 : (1 - k) * e <= (1 - kmin) * e) by nra.
    assert (H5 : (1 - kmin) * e * (1 + kmin) <= e) by nra.
    nra.
Qed.

Lemma Q_of_nat_ge (z : Z) (n : nat) :
  (Z.to_nat z <= n)%nat -> inject_Z z <= Q_of_nat n.
Proof.
  intros Hn. unfold Q_of_nat. rewrite <- Zle_Qle. lia.
Qed.

(** The error falls below any positive bound after enough frames. *)
Lemma lerpRun_converges (target rate kmin eps cur : Q) :
  0 < kmin -> 0 < eps ->
  exists N : nat, forall dts,
    (N <= length dts)%nat ->
    Forall (fun dt => kmin <= rate * dt <= 1) dts ->
    lerpError target (lerpRun target rate dts cur) < eps.
Proof.
  intros Hkmin Heps.
  set (e := lerpError target cur).
  exists (Z.to_nat (Qceiling (e / (eps * kmin)))).
  intros dts Hlen Hall.
  pose proof (lerpRun_decay target rate kmin dts cur Hkmin Hall) as Hdecay.
  fold e in Hdecay.
  pose proof (Q_of_nat_ge _ _ Hlen) as Hn.
  pose proof (Qle_ceiling (e / (eps * kmin))) as Hceil.
  set (n := Q_of_nat (length dts)) in *.
  set (en := lerpError target (lerpRun target rate dts cur)) in *.
  assert (Hne : e / (eps * kmin) <= n) by lra.
  assert (Hprod : 0 < eps * kmin) by nra.
  assert (Hbound : e <= n * (eps * kmin)).
  { apply (Qmult_le_r _ _ (eps * kmin) Hprod) in Hne.
    assert (Hfield : e / (eps * kmin) * (eps * kmin) == e) by (field; lra).
    lra. }
  assert (Hn0 : 0 <= n).
  { unfold n, Q_of_nat. change 0 with (inject_Z 0). rewrite <- Zle_Qle. lia. }
  assert (Hden : 0 < 1 + n * kmin) by nra.
  destruct (Qlt_le_dec en eps) as [Hlt | Hge]; [exact Hlt|].
  exfalso.
  assert (Hcontra : eps * (1 + n * kmin) <= en * (1 + n * kmin)) by nra.
  nra.
Qed.

(** What [updateParticle] does to the transform of a particle: every
    coordinate of the position and the scale take one interpolation step
    toward their targets, at rate 6 (photos) or 4 (decorations) for the
    position and 5 for the scale. *)
Lemma updateParticle_transform `{Numerics} (s : State)
    (delta elapsed pinchVal groupRotX groupRotY : Q) (i : nat) (p : Particle) :
  let p' := updateParticle s delta elapsed pinchVal groupRotX groupRotY i p in
  let tPos := targetPos s elapsed groupRotX groupRotY i p in
  Vector3.x (meshPosition p') =
    Vector3.lerp1 (Vector3.x (meshPosition p)) (Vector3.x tPos) (lerpSpeed p * delta) /\
  Vector3.y (meshPosition p') =
    Vector3.lerp1 (Vector3.y (meshPosition p)) (Vector3.y tPos) (lerpSpeed p * delta) /\
  Vector3.z (meshPosition p') =
    Vector3.lerp1 (Vector3.z (meshPosition p)) (Vector3.z tPos) (lerpSpeed p * delta) /\
  meshScale p' = MathUtils.lerp (meshScale p) (targetScale s pinchVal p) (5 * delta).
Proof. repeat split. Qed.

Lemma lerpSpeed_photo_faster (p q : Particle) :
  isPhoto p = true -> isPhoto q = false -> lerpSpeed q < lerpSpeed p.
Proof. intros Hp Hq. unfold lerpSpeed. rewrite Hp, Hq. reflexivity. Qed.

(** C9, as it holds.  Let a coordinate chase a constant [target] by
    [current := current + (target - current) * (rate * dt)], as
    [Vector3.lerp] does with [alpha = lerpSpeed * delta], and let every
    frame time satisfy [0 < rate * dt <= 1].  Then each tick leaves the
    coordinate between its old value and the target (no overshoot), the
    error [|target - current|] does not grow and strictly shrinks while it
    is not zero, and it does not grow over any run of ticks.  The error
    falls below every positive bound after enough ticks when the frame
    times are moreover bounded away from zero ([kmin <= rate * dt] for
    some [kmin > 0]); without that bound it need not.  The scale update of
    [THREE.MathUtils.lerp] is the same map, and in a frame of [animate]
    each of the three position coordinates and the scale of a particle take
    one such step. *)
Theorem interpolation_error_decreases `{Numerics} (target rate : Q) :
  (forall cur dt, 0 < rate * dt <= 1 ->
     let next := Vector3.lerp1 cur target (rate * dt) in
     (cur <= target -> cur <= next <= target) /\
     (target <= cur -> target <= next <= cur) /\
     lerpError target next <= lerpError target cur /\
     (~ cur == target -> lerpError target next < lerpError target cur)) /\
  (forall dts1 dts2 cur,
     Forall (fun dt => 0 < rate * dt <= 1) (dts1 ++ dts2) ->
     lerpError target (lerpRun target rate (dts1 ++ dts2) cur)
       <= lerpError target (lerpRun target rate dts1 cur) /\
     lerpError target (lerpRun target rate dts1 cur) <= lerpError target cur) /\
  (forall kmin eps cur, 0 < kmin -> 0 < eps ->
     exists N : nat, forall dts,
       (N <= length dts)%nat ->
       Forall (fun dt => kmin <= rate * dt <= 1) dts ->
       lerpError target (lerpRun target rate dts cur) < eps) /\
  (forall cur dt,
     MathUtils.lerp cur target (rate * dt) == Vector3.lerp1 cur target (rate * dt)) /\
  (forall s delta elapsed pinchVal groupRotX groupRotY i p,
     let p' := updateParticle s delta elapsed pinchVal groupRotX groupRotY i p in
     let tPos := targetPos s elapsed groupRotX groupRotY i p in
     (rate = lerpSpeed p -> target = Vector3.x tPos ->
      Vector3.x (meshPosition p') =
        lerpRun target rate [delta] (Vector3.x (meshPosition p))) /\
     (rate = lerpSpeed p -> target = Vector3.y tPos ->
      Vector3.y (meshPosition p') =
        lerpRun target rate [delta] (Vector3.y (meshPosition p))) /\
     (rate = lerpSpeed p -> target = Vector3.z tPos ->
      Vector3.z (meshPosition p') =
        lerpRun target rate [delta] (Vector3.z (meshPosition p))) /\
     (rate = 5 -> target = targetScale s pinchVal p ->
      meshScale p' == lerpRun target rate [delta] (meshScale p))).
Proof.
  split; [|split; [|split; [|split]]].
  - intros cur dt Hk next.
    destruct (lerp1_between target cur (rate * dt) Hk) as [Hup Hdown].
    destruct (lerp1_contracts target cur (rate * dt) Hk) as [Hle Hlt].
    auto.
  - intros dts1 dts2 cur Hall. apply Forall_app in Hall. destruct Hall as [H1 H2].
    rewrite lerpRun_app. split; apply lerpRun_monotone; assumption.
  - intros kmin eps cur. apply lerpRun_converges.
  - intros cur dt. apply MathUtils_lerp_lerp1.
  - intros s delta elapsed pinchVal groupRotX groupRotY i p p' tPos.
    split; [|split; [|split]].
    + intros -> ->. reflexivity.
    + intros -> ->. reflexivity.
    + intros -> ->. reflexivity.
    + intros -> ->. apply MathUtils_lerp_lerp1.
Qed.

Lemma Q_of_nat_nonneg (n : nat) : 0 <= Q_of_nat n.
Proof.
  unfold Q_of_nat. change 0 with (inject_Z 0). rewrite <- Zle_Qle. lia.
Qed.

Lemma Q_of_nat_succ (n : nat) : Q_of_nat (S n) == Q_of_nat n + 1.
Proof.
  unfold Q_of_nat. rewrite Nat2Z.inj_succ, <- Z.add_1_r, inject_Z_plus. reflexivity.
Qed.

Lemma slowingFrame_step (i : nat) :
  6 * slowingFrame i == / ((Q_of_nat i + 2) * (Q_of_nat i + 2)) /\
  0 < 6 * slowingFrame i <= 1.
Proof.
  pose proof (Q_of_nat_nonneg i) as Hi.
  assert (Hsq : 4 <= (Q_of_nat i + 2) * (Q_of_nat i + 2)) by nra.
  assert (Heq : 6 * slowingFrame i == / ((Q_of_nat i + 2) * (Q_of_nat i + 2))).
  { unfold slowingFrame. field. lra. }
  split; [exact Heq|]. rewrite Heq. split.
  - apply Qinv_lt_0_compat. lra.
  - apply (Qmult_le_l _ _ ((Q_of_nat i + 2) * (Q_of_nat i + 2))); [lra|].
    rewrite Qmult_inv_r by lra. lra.
Qed.

Lemma lerpRun_snoc (target rate : Q) (dts : list Q) (dt cur : Q) :
  lerpRun target rate (dts ++ [dt]) cur
  = Vector3.lerp1 (lerpRun target rate dts cur) target (rate * dt).
Proof. rewrite lerpRun_app. reflexivity. Qed.

(** With the shrinking frame times, a photo coordinate that starts at 0
    and chases 1 is at [n / (2 * (n + 1))] after [n] frames. *)
Lemma slowingFrames_position (n : nat) :
  lerpRun 1 6 (map slowingFrame (seq 0 n)) 0
  == Q_of_nat n / (2 * (Q_of_nat n + 1)).
Proof.
  induction n as [|n IH].
  - reflexivity.
  - rewrite seq_S, map_app. cbn [map Nat.add]. rewrite lerpRun_snoc.
    unfold Vector3.lerp1. rewrite IH.
    destruct (slowingFrame_step n) as [Hk _]. rewrite Hk, Q_of_nat_succ.
    pose proof (Q_of_nat_nonneg n) as Hn. field. lra.
Qed.

(** C9 as stated fails.  With rate 6 and frame times
    [1 / (6 * (i + 2)^2)], every [rate * dt] lies in (0, 1], yet the error
    of a coordinate that starts at 0 and chases 1 stays above one half for
    ever: it does not decrease toward zero. *)
Lemma interpolation_error_counterexample :
  (forall i, 0 < 6 * slowingFrame i <= 1) /\
  (forall n, 1 # 2 < lerpError 1 (lerpRun 1 6 (map slowingFrame (seq 0 n)) 0)) /\
  ~ (forall eps, 0 < eps ->
       exists n, lerpError 1 (lerpRun 1 6 (map slowingFrame (seq 0 n)) 0) < eps).
Proof.
  assert (Hhalf : forall n,
            1 # 2 < lerpError 1 (lerpRun 1 6 (map slowingFrame (seq 0 n)) 0)).
  { intros n. unfold lerpError. rewrite slowingFrames_position.
    pose proof (Q_of_nat_nonneg n) as Hn.
    assert (Hval : 1 - Q_of_nat n / (2 * (Q_of_nat n + 1))
                   == (Q_of_nat n + 2) / (2 * (Q_of_nat n + 1))) by (field; lra).
    rewrite Hval.
    assert (Hpos : 1 # 2 < (Q_of_nat n + 2) / (2 * (Q_of_nat n + 1))).
    { apply Qlt_shift_div_l; lra. }
    rewrite Qabs_pos; lra. }
  split; [intros i; apply slowingFrame_step|]. split; [exact Hhalf|].
  intros Hconv. destruct (Hconv (1 # 2)) as [n Hn]; [reflexivity|].
  specialize (Hhalf n). lra.
Qed.

(** A photo coordinate at 0 chasing 10 at 60 frames per second: the error
    after one, two and three frames. *)
Example interpolation_three_frames :
  lerpError 10 (lerpRun 10 6 [1 # 60] 0) == 9 /\
  lerpError 10 (lerpRun 10 6 [1 # 60; 1 # 60] 0) == 8.1 /\
  lerpError 10 (lerpRun 10 6 [1 # 60; 1 # 60; 1 # 60] 0) == 7.29.
Proof. repeat split. Qed.

(** * Gesture classification *)

Section Classification.
Context `{Numerics}.

Lemma countFolded_from (fingers : list NormalizedLandmark.t)
    (wrist : NormalizedLandmark.t) (n : nat) :
  fold_left
    (fun foldedCount f =>
       if Qltb (distance2D f wrist) 0.15 then S foldedCount else foldedCount)
    fingers n
  = (n + foldedAmong fingers wrist)%nat.
Proof.
  revert n. unfold foldedAmong, isFolded.
  induction fingers as [|f fingers IH]; intros n; cbn [fold_left List.filter].
  - cbn. lia.
  - rewrite IH. destruct (Qltb (distance2D f wrist) 0.15); cbn [length]; lia.
Qed.

Lemma countFolded_foldedAmong (fingers : list NormalizedLandmark.t)
    (wrist : NormalizedLandmark.t) :
  countFolded fingers wrist = foldedAmong fingers wrist.
Proof. unfold countFolded. rewrite countFolded_from. reflexivity. Qed.

(** The decision made for a hand whose six landmarks are present. *)
Lemma classifyHand_present (lm : list NormalizedLandmark.t)
    (wrist thumbTip indexTip middleTip ringTip pinkyTip : NormalizedLandmark.t) :
  lm !! 0%nat = Some wrist -> lm !! 4%nat = Some thumbTip ->
  lm !! 8%nat = Some indexTip -> lm !! 12%nat = Some middleTip ->
  lm !! 16%nat = Some ringTip -> lm !! 20%nat = Some pinkyTip ->
  classifyHand lm =
    Some (mkHandData
            (1 - NormalizedLandmark.x indexTip) (NormalizedLandmark.y indexTip)
            (if (3 <=? foldedAmong [indexTip; middleTip; ringTip; pinkyTip] wrist)%nat
             then CLOSED
             else if Qltb (distance2D indexTip thumbTip) 0.05 then PINCH else OPEN)
            (distance2D indexTip thumbTip)).
Proof.
  intros H0 H4 H8 H12 H16 H20. unfold classifyHand.
  rewrite H8, H4, H12, H16, H20, H0. cbn [mbind option_bind].
  rewrite countFolded_foldedAmong. reflexivity.
Qed.

Lemma classifyHand_total (lm : list NormalizedLandmark.t) :
  length lm = 21%nat -> is_Some (classifyHand lm).
Proof.
  intros Hlen.
  do 21 (destruct lm as [|? lm]; [discriminate|]).
  destruct lm; [|discriminate].
  erewrite classifyHand_present; [eauto | reflexivity ..].
Qed.

Lemma distance2D_planarDistance (a b : NormalizedLandmark.t) :
  distance2D a b = planarDistance a b.
Proof. reflexivity. Qed.

Lemma foldedAmong_tipsNearWrist (fingers : list NormalizedLandmark.t)
    (wrist : NormalizedLandmark.t) :
  foldedAmong fingers wrist = tipsNearWrist wrist fingers.
Proof.
  unfold foldedAmong. induction fingers as [|f fingers IH]; [reflexivity|].
  cbn [List.filter tipsNearWrist]. unfold isFolded at 1.
  rewrite distance2D_planarDistance.
  destruct (Qlt_le_dec (planarDistance f wrist) 0.15) as [Hlt | Hge].
  - apply Qltb_lt in Hlt. rewrite Hlt. cbn [length]. rewrite IH. reflexivity.
  - apply Qltb_ge in Hge. rewrite Hge. rewrite IH. reflexivity.
Qed.

(** C10.  When no hand is detected the emitted sample is x = 0.5,
    y = 0.5, gesture [NONE], pinch distance 1, and [NONE] is emitted in no
    other case.  When a hand is detected (its landmarks being present) a
    sample is emitted whose gesture is [CLOSED] exactly when at least three
    of the index, middle, ring and pinky fingertips (landmarks 8, 12, 16,
    20) are less than 0.15 away from the wrist (landmark 0), whatever the
    pinch distance; [PINCH] exactly when it is not [CLOSED] and the index
    tip is less than 0.05 away from the thumb tip (landmark 4); and [OPEN]
    otherwise.  Distances are hypotenuses of the coordinate differences.
    The sample carries that thumb-to-index distance and the mirrored
    position of the index tip.  A hand of 21 landmarks always yields a
    sample. *)
Theorem gesture_classification_priority (result : HandLandmarkerResult) :
  (landmarks result = None \/ landmarks result = Some [] ->
   processResult result = Some (mkHandData 0.5 0.5 NONE 1)) /\
  (forall data, processResult result = Some data ->
     gesture data = NONE ->
     (landmarks result = None \/ landmarks result = Some []) /\
     x data = 0.5 /\ y data = 0.5 /\ pinchDistance data = 1) /\
  (forall lm rest, landmarks result = Some (lm :: rest) ->
     length lm = 21%nat -> is_Some (processResult result)) /\
  (forall lm rest wrist thumbTip indexTip middleTip ringTip pinkyTip,
     landmarks result = Some (lm :: rest) ->
     lm !! 0%nat = Some wrist -> lm !! 4%nat = Some thumbTip ->
     lm !! 8%nat = Some indexTip -> lm !! 12%nat = Some middleTip ->
     lm !! 16%nat = Some ringTip -> lm !! 20%nat = Some pinkyTip ->
     let folded := tipsNearWrist wrist [indexTip; middleTip; ringTip; pinkyTip] in
     let pinch :=
       Math_hypot (NormalizedLandmark.x indexTip - NormalizedLandmark.x thumbTip)
                  (NormalizedLandmark.y indexTip - NormalizedLandmark.y thumbTip) in
     exists data,
       processResult result = Some data /\
       pinchDistance data = pinch /\
       x data = 1 - NormalizedLandmark.x indexTip /\
       y data = NormalizedLandmark.y indexTip /\
       (gesture data = CLOSED <-> (3 <= folded)%nat) /\
       (gesture data = PINCH <-> (folded < 3)%nat /\ pinch < 0.05) /\
       (gesture data = OPEN <-> (folded < 3)%nat /\ 0.05 <= pinch) /\
       gesture data <> NONE).
Proof.
  split; [|split; [|split]].
  - intros [Hn | Hn]; unfold processResult; rewrite Hn; reflexivity.
  - intros data Hres Hg. unfold processResult in Hres.
    destruct (landmarks result) as [[|lm rest]|] eqn:Hl.
    + injection Hres as <-. cbn. auto.
    + exfalso. unfold classifyHand in Hres.
      destruct (lm !! 8%nat); [|discriminate]. destruct (lm !! 4%nat); [|discriminate].
      destruct (lm !! 12%nat); [|discriminate]. destruct (lm !! 16%nat); [|discriminate].
      destruct (lm !! 20%nat); [|discriminate]. destruct (lm !! 0%nat); [|discriminate].
      cbn [mbind option_bind] in Hres. injection Hres as <-. cbn [gesture] in Hg.
      destruct (countFolded _ _) as [|[|[|n]]]; try discriminate;
        destruct (Qltb _ 0.05); discriminate.
    + injection Hres as <-. cbn. auto.
  - intros lm rest Hl Hlen. unfold processResult. rewrite Hl.
    apply classifyHand_total, Hlen.
  - intros lm rest wrist thumbTip indexTip middleTip ringTip pinkyTip
      Hl H0 H4 H8 H12 H16 H20 folded pinch.
    eexists. split.
    { unfold processResult. rewrite Hl.
      apply (classifyHand_present lm wrist thumbTip indexTip middleTip ringTip
               pinkyTip); assumption. }
    rewrite foldedAmong_tipsNearWrist, distance2D_planarDistance.
    fold folded. change (planarDistance indexTip thumbTip) with pinch.
    cbn [pinchDistance x y gesture].
    split; [reflexivity|]. split; [reflexivity|]. split; [reflexivity|].
    destruct (3 <=? folded)%nat eqn:Hf.
    + apply Nat.leb_le in Hf.
      split; [tauto|]. split; [|split]; try discriminate;
        split; try discriminate; intros [? ?]; lia.
    + apply Nat.leb_gt in Hf.
      destruct (Qltb pinch 0.05) eqn:Hp.
      * apply Qltb_lt in Hp.
        split; [split; [discriminate | lia]|].
        split; [tauto|]. split; [|discriminate].
        split; [discriminate | intros [_ ?]; lra].
      * apply Qltb_ge in Hp.
        split; [split; [discriminate | lia]|].
        split; [split; [discriminate | intros [_ ?]; lra]|].
        split; [tauto | discriminate].
Qed.

End Classification.

(** A fist is [CLOSED] although the thumb is 0.01 away from the index
    fingertip. *)
Example fist_with_pinch_is_closed :
  exists data,
    @processResult sampleNumerics sampleFist = Some data /\
    gesture data = CLOSED /\ pinchDistance data == 0.01.
Proof. eexists. split; [reflexivity|]. split; reflexivity. Qed.

(** * Further checks *)

(** X18.  The React state [mode] follows [stateRef.current.mode]: in
    every reachable state, after any gesture callback or frame, the two are
    equal, so the overlay never shows a mode the simulation is not in. *)
Lemma uiMode_follows_mode `{Numerics} (s : State) :
  reachable s -> uiMode s = mode s.
Proof.
  intros (draws & evs & ->).
  assert (Hinit : uiMode (setup draws initialState) = mode (setup draws initialState))
    by reflexivity.
  revert Hinit. generalize (setup draws initialState).
  induction evs as [|e evs IH]; intros s Hs; [exact Hs|].
  rewrite run_cons. apply IH.
  destruct e as [data | delta elapsed ray | imgs | img d]; cbn [step].
  - apply onHandData_uiMode.
  - destruct (animate_mode_focus delta elapsed ray s) as (Hm & _ & Hu & _).
    rewrite Hm, Hu.
    destruct (resolveSelection_cases ray s) as [-> | (p & _ & _ & _ & ->)];
      [exact Hs | reflexivity].
  - unfold uploadEffect. destruct (0 <? _)%nat; exact Hs.
  - destruct img as [w h|]; [|exact Hs].
    destruct (loadImage_mode_focus (Decodable w h) d s) as [Hm _].
    rewrite Hm, <- Hs. cbn [loadImage].
    unfold imgOnload, addPhotoHandler. destruct (displaySize _) as [dw dh]. cbn.
    destruct (particles s) as [|p0 rest]; [reflexivity|].
    destruct (parent (mesh p0)); reflexivity.
Qed.

(** From the focused sample scene: an open hand at pinch distance 0.3 holds
    the focus, one at 0.5 scatters, a fist builds the tree. *)
Example sampleFocus_hysteresis :
  mode (onHandData (mkHandData 0.5 0.5 OPEN 0.3) sampleFocus) = AppMode.FOCUS /\
  focusTarget (onHandData (mkHandData 0.5 0.5 OPEN 0.3) sampleFocus)
    = Some samplePhotoMesh /\
  mode (onHandData (mkHandData 0.5 0.5 OPEN 0.5) sampleFocus) = AppMode.SCATTER /\
  focusTarget (onHandData (mkHandData 0.5 0.5 OPEN 0.5) sampleFocus) = None /\
  mode (onHandData (mkHandData 0.5 0.5 CLOSED 0.3) sampleFocus) = AppMode.TREE /\
  focusTarget (onHandData (mkHandData 0.5 0.5 CLOSED 0.3) sampleFocus) = None.
Proof. vm_compute. repeat split. Qed.

(** A pinch on the frame of the photo, or on the photo plane itself,
    selects the photo; a pinch on a decorative sphere selects nothing. *)
Example samplePinching_selection :
  focusTarget (resolveSelection [frameOf samplePhotoMesh] samplePinching)
    = Some samplePhotoMesh /\
  focusTarget (resolveSelection
                 [mesh (createParticle sampleDraws 7); samplePhotoMesh]
                 samplePinching)
    = Some samplePhotoMesh /\
  focusTarget (resolveSelection [mesh (createParticle sampleDraws 7)] samplePinching)
    = None.
Proof. vm_compute. repeat split. Qed.

(** * The frame, field by field *)

Section FrameFields.
Context `{Numerics}.

Lemma beforeParticles_fields (delta : Q) (ray : list Object3D) (s : State) :
  let sB := beforeParticles delta ray s in
  particles sB = particles s /\
  handData sB = handData s /\
  smoothedPinch sB =
    smoothedPinch s + (pinchDistance (handData s) - smoothedPinch s) * 0.1 /\
  rotationX sB =
    rotationX s + ((y (handData s) - 0.5) * 1.5 - rotationX s) * 2.5 * delta /\
  rotationY sB =
    rotationY s + ((x (handData s) - 0.5) * 3 - rotationY s) * 2.5 * delta /\
  nextId sB = nextId s /\
  processedImagesCount sB = processedImagesCount s.
Proof.
  unfold beforeParticles.
  match goal with
  | |- context [resolveSelection ray ?s0] =>
      destruct (resolveSelection_cases ray s0) as [-> | (p & _ & _ & _ & ->)]
  end; cbn; repeat split; reflexivity.
Qed.

(** The frame is the particle loop run on [beforeParticles], with the
    rotation of the group given by [groupRotationY]. *)
Lemma animate_beforeParticles (delta elapsed : Q) (ray : list Object3D) (s : State) :
  let sB := beforeParticles delta ray s in
  animate delta elapsed ray s =
  set_particles
    (imap (updateParticle sB delta elapsed (smoothedPinch sB) (rotationX sB)
                          (groupRotationY delta s))
          (particles sB))
    sB.
Proof.
  intros sB.
  destruct (beforeParticles_fields delta ray s) as (_ & _ & Hsp & Hrx & _).
  fold sB in Hsp, Hrx. rewrite Hsp, Hrx.
  unfold animate, groupRotationY. subst sB. unfold beforeParticles.
  cbn [smoothedPinch set_smoothedPinch rotationX rotationY set_rotation handData mode].
  destruct (mode s), (gesture (handData s)); reflexivity.
Qed.

Lemma animate_fields (delta elapsed : Q) (ray : list Object3D) (s : State) :
  handData (animate delta elapsed ray s) = handData s /\
  smoothedPinch (animate delta elapsed ray s) =
    smoothedPinch s + (pinchDistance (handData s) - smoothedPinch s) * 0.1 /\
  rotationX (animate delta elapsed ray s) =
    rotationX s + ((y (handData s) - 0.5) * 1.5 - rotationX s) * 2.5 * delta /\
  rotationY (animate delta elapsed ray s) =
    rotationY s + ((x (handData s) - 0.5) * 3 - rotationY s) * 2.5 * delta /\
  processedImagesCount (animate delta elapsed ray s) = processedImagesCount s.
Proof.
  rewrite animate_beforeParticles.
  destruct (beforeParticles_fields delta ray s) as (_ & Hh & Hsp & Hrx & Hry & _ & Hc).
  cbn. auto.
Qed.

Lemma animate_lookup (delta elapsed : Q) (ray : list Object3D) (s : State)
    (i : nat) :
  let sB := beforeParticles delta ray s in
  particles (animate delta elapsed ray s) !! i =
  updateParticle sB delta elapsed (smoothedPinch sB) (rotationX sB)
                 (groupRotationY delta s) i <$> particles s !! i.
Proof.
  intros sB. rewrite animate_beforeParticles. fold sB.
  cbn [particles set_particles]. rewrite list_lookup_imap.
  destruct (beforeParticles_fields delta ray s) as (Hp & _). fold sB in Hp.
  rewrite Hp. reflexivity.
Qed.

End FrameFields.

Lemma onHandData_fields (data : HandData) (s : State) :
  handData (onHandData data s) = data /\
  particles (onHandData data s) = particles s /\
  smoothedPinch (onHandData data s) = smoothedPinch s /\
  rotationX (onHandData data s) = rotationX s /\
  rotationY (onHandData data s) = rotationY s /\
  processedImagesCount (onHandData data s) = processedImagesCount s.
Proof.
  unfold onHandData. destruct (gesture data); cbn; try (repeat split; reflexivity).
  destruct (_ || _); cbn; repeat split; reflexivity.
Qed.

Lemma loadImage_fields (img : ImageSource) (d : PhotoDraw) (s : State) :
  handData (loadImage img d s) = handData s /\
  smoothedPinch (loadImage img d s) = smoothedPinch s /\
  rotationX (loadImage img d s) = rotationX s /\
  rotationY (loadImage img d s) = rotationY s /\
  processedImagesCount (loadImage img d s) = processedImagesCount s /\
  (particles (loadImage img d s) = particles s \/
   exists p, particles (loadImage img d s) = particles s ++ [p] /\
             isPhoto p = true /\ baseScale p = 1.0 /\ meshScale p = 1 /\
             type p = ParticleType.PHOTO).
Proof.
  destruct img as [w h|]; [|cbn; repeat split; auto].
  unfold loadImage, imgOnload, addPhotoHandler.
  destruct (displaySize _) as [dw dh]. cbn.
  destruct (particles s) as [|p0 rest] eqn:Hps; cbn; [repeat split; auto|].
  destruct (parent (mesh p0)); cbn; repeat split; auto.
  right. eexists. split; [reflexivity|]. cbn. auto.
Qed.

Lemma uploadEffect_fields (imgs : list ImageSource) (s : State) :
  handData (snd (uploadEffect imgs s)) = handData s /\
  particles (snd (uploadEffect imgs s)) = particles s /\
  smoothedPinch (snd (uploadEffect imgs s)) = smoothedPinch s /\
  rotationX (snd (uploadEffect imgs s)) = rotationX s /\
  rotationY (snd (uploadEffect imgs s)) = rotationY s.
Proof.
  unfold uploadEffect. destruct (0 <? _)%nat; cbn; repeat split; reflexivity.
Qed.

Lemma Qle_bool_range (lo v hi : Q) :
  Qle_bool lo v && Qle_bool v hi = true <-> lo <= v <= hi.
Proof. rewrite andb_true_iff, !Qle_bool_iff. tauto. Qed.

Lemma Forall_imap {A : Type} (P : A -> Prop) (f : nat -> A -> A) (l : list A) :
  (forall i a, P a -> P (f i a)) -> Forall P l -> Forall P (imap f l).
Proof.
  revert f. induction l as [|a l IH]; intros f Hf Hall; cbn; [constructor|].
  inversion Hall as [|? ? Ha Hl]; subst. constructor; [apply Hf, Ha|].
  apply IH; [intros i b; apply Hf | exact Hl].
Qed.

(** * Properties of the frame *)

Section FrameProperties.
Context `{Numerics}.

Lemma Qpower_succ_nat (a : Q) (n : nat) :
  ~ a == 0 -> a ^ Z.of_nat (S n) == a * a ^ Z.of_nat n.
Proof.
  intros Ha. rewrite Nat2Z.inj_succ, <- Z.add_1_l.
  rewrite Qpower_plus by exact Ha. reflexivity.
Qed.

(** X1.  Over frames drawn while one sample stays in the mailbox, the
    smoothed pinch closes 10% of its distance to the sample's pinch
    distance in every frame, whatever the frame times: after [n] frames
    the distance is [0.9 ^ n] times what it was. *)
Theorem smoothed_pinch_after_frames (frames : list Event) (s : State) :
  forallb isFrame frames = true ->
  smoothedPinch (run frames s) - pinchDistance (handData s)
  == (9 # 10) ^ Z.of_nat (length frames)
     * (smoothedPinch s - pinchDistance (handData s)).
Proof.
  revert s. induction frames as [|e frames IH]; intros s Hall.
  - assert (Hp0 : (9 # 10) ^ Z.of_nat 0 == 1) by reflexivity.
    cbn [length]. rewrite Hp0. unfold run. cbn [fold_left]. ring.
  - cbn in Hall. apply andb_true_iff in Hall. destruct Hall as [He Hall].
    destruct e as [data | delta elapsed ray | imgs | img d]; try discriminate.
    rewrite run_cons. cbn [step].
    destruct (animate_fields delta elapsed ray s) as (Hh & Hsp & _).
    pose proof (IH (animate delta elapsed ray s) Hall) as Hih.
    rewrite Hh, Hsp in Hih.
    assert (Hpow : (9 # 10) ^ Z.of_nat (length (EvFrame delta elapsed ray :: frames))
                   == (9 # 10) * (9 # 10) ^ Z.of_nat (length frames)).
    { cbn [length]. apply Qpower_succ_nat. intros Hz. discriminate. }
    etransitivity; [exact Hih|]. rewrite Hpow. ring.
Qed.

Lemma rotationInRange_step (e : Event) (s : State) :
  frameTimeWithin 0.4 e = true -> sampleInUnitSquare e = true ->
  rotationInRange s -> rotationInRange (step s e).
Proof.
  intros Hdt Hxy [[Hry Hrx] [Hx Hy]].
  destruct e as [data | delta elapsed ray | imgs | img d]; cbn [step].
  - destruct (onHandData_fields data s) as (Hh & _ & _ & Hx' & Hy' & _).
    unfold rotationInRange. rewrite Hh, Hx', Hy'.
    cbn in Hxy. apply andb_true_iff in Hxy. destruct Hxy as [Hxy Hy2].
    apply andb_true_iff in Hxy. destruct Hxy as [Hxy Hy1].
    apply andb_true_iff in Hxy. destruct Hxy as [Hx1 Hx2].
    apply Qle_bool_iff in Hx1, Hx2, Hy1, Hy2. auto.
  - destruct (animate_fields delta elapsed ray s) as (Hh & _ & Hx' & Hy' & _).
    unfold rotationInRange. rewrite Hh, Hx', Hy'.
    cbn in Hdt. apply Qle_bool_range in Hdt.
    split; [|auto]. split; split; nra.
  - destruct (uploadEffect_fields imgs s) as (Hh & _ & _ & Hx' & Hy').
    unfold rotationInRange. rewrite Hh, Hx', Hy'. auto.
  - destruct (loadImage_fields img d s) as (Hh & _ & Hx' & Hy' & _).
    unfold rotationInRange. rewrite Hh, Hx', Hy'. auto.
Qed.

(** X2.  When every sample lies in the unit square and no frame takes
    longer than 0.4 s, the yaw of the field stays within 1.5 rad and its
    pitch within 0.75 rad of zero, in every state of the run. *)
Theorem rotation_stays_in_range (draws : nat -> DecorDraw) (evs : list Event) :
  forallb (frameTimeWithin 0.4) evs = true ->
  forallb sampleInUnitSquare evs = true ->
  - (1.5) <= rotationY (run evs (setup draws initialState)) <= 1.5 /\
  - (0.75) <= rotationX (run evs (setup draws initialState)) <= 0.75.
Proof.
  intros Hdt Hxy.
  assert (Hinit : rotationInRange (setup draws initialState)).
  { unfold rotationInRange. cbn. lra. }
  revert Hinit Hdt Hxy. generalize (setup draws initialState).
  induction evs as [|e evs IH]; intros s Hs Hdt Hxy.
  - apply Hs.
  - cbn in Hdt, Hxy. apply andb_true_iff in Hdt, Hxy.
    destruct Hdt as [Hdt Hdts], Hxy as [Hxy Hxys].
    rewrite run_cons. apply IH; auto. apply rotationInRange_step; auto.
Qed.

End FrameProperties.

Lemma smoothed_pinch_after_frames_witness :
  forallb isFrame sampleFrames = true /\
  smoothedPinch (@run sampleNumerics sampleFrames sampleScene) == 0.2305.
Proof.
  split; [reflexivity|].
  pose proof (@smoothed_pinch_after_frames sampleNumerics sampleFrames sampleScene
                eq_refl) as Hformula.
  cbn [sampleFrames length] in Hformula.
  change (pinchDistance (handData sampleScene)) with 1 in Hformula.
  change (smoothedPinch sampleScene) with 0.05 in Hformula.
  assert (Hpow : (9 # 10) ^ Z.of_nat 2 == 0.81) by reflexivity.
  rewrite Hpow in Hformula. lra.
Defined.

Lemma rotation_stays_in_range_witness :
  forallb (frameTimeWithin 0.4) sampleFocusing = true /\
  forallb sampleInUnitSquare sampleFocusing = true /\
  - (1.5) <= rotationY sampleFocus <= 1.5.
Proof.
  split; [reflexivity|]. split; [reflexivity|].
  apply (@rotation_stays_in_range sampleNumerics sampleDraws sampleFocusing);
    reflexivity.
Defined.

Section ParticleProperties.
Context `{Numerics}.

Lemma targetScale_range (s : State) (pinchVal : Q) (p : Particle) :
  0 <= baseScale p <= 9.8 -> 0 <= targetScale s pinchVal p <= 9.8.
Proof.
  intros Hb. unfold targetScale. destruct (mode s); try exact Hb.
  destruct (isFocusTarget s p); [|lra].
  assert (Hc : 0 <= MathUtils.clamp pinchVal 0.0 0.4 <= 0.4).
  { unfold MathUtils.clamp. split.
    - apply Q.max_le_iff. left. lra.
    - apply Q.max_lub; [lra | apply Q.le_min_l]. }
  lra.
Qed.

Lemma scalesInRange_step (e : Event) (s : State) :
  frameTimeWithin 0.2 e = true -> scalesInRange s -> scalesInRange (step s e).
Proof.
  intros Hdt Hs. unfold scalesInRange in *.
  destruct e as [data | delta elapsed ray | imgs | img d]; cbn [step].
  - destruct (onHandData_fields data s) as (_ & -> & _). exact Hs.
  - rewrite animate_beforeParticles. cbn [particles set_particles].
    destruct (beforeParticles_fields delta ray s) as (-> & _).
    apply Forall_imap; [|exact Hs].
    intros i p [Hm Hb]. cbn [updateParticle meshScale baseScale].
    split; [|exact Hb].
    pose proof (targetScale_range (beforeParticles delta ray s)
                  (smoothedPinch (beforeParticles delta ray s)) p Hb) as Ht.
    cbn in Hdt. apply Qle_bool_range in Hdt.
    unfold MathUtils.lerp. split; nra.
  - destruct (uploadEffect_fields imgs s) as (_ & -> & _). exact Hs.
  - destruct (loadImage_fields img d s) as (_ & _ & _ & _ & _ & [-> | (p & -> & _ & Hb & Hm & _)]);
      [exact Hs|].
    apply Forall_app. split; [exact Hs|].
    constructor; [|constructor]. rewrite Hb, Hm. split; split; reflexivity || discriminate.
Qed.

(** X3.  When the set-up draws lie in [0, 1] and no frame takes longer
    than 0.2 s, the scale of every particle stays between 0 and 9.8 in every
    state of the run: no mesh is ever mirrored or grows past the largest
    focus scale. *)
Theorem scale_stays_in_range (draws : nat -> DecorDraw) (evs : list Event) :
  (forall i, 0 <= drawScale (draws i) <= 1) ->
  forallb (frameTimeWithin 0.2) evs = true ->
  Forall (fun p => 0 <= meshScale p <= 9.8)
         (particles (run evs (setup draws initialState))).
Proof.
  intros Hdraws Hdt.
  assert (Hinit : scalesInRange (setup draws initialState)).
  { unfold scalesInRange, setup, createParticles.
    cbn [particles set_particles set_nextId].
    apply Forall_map, List.Forall_forall. intros i _.
    cbn [createParticle meshScale baseScale]. specialize (Hdraws i).
    split; [split; reflexivity || discriminate | lra]. }
  assert (Hrun : scalesInRange (run evs (setup draws initialState))).
  { revert Hinit Hdt. generalize (setup draws initialState).
    induction evs as [|e evs IH]; intros s Hs Hdt; [exact Hs|].
    cbn in Hdt. apply andb_true_iff in Hdt. destruct Hdt as [Hdt Hdts].
    rewrite run_cons. apply IH; [|exact Hdts]. apply scalesInRange_step; auto. }
  eapply Forall_impl; [exact Hrun|]. cbn. tauto.
Qed.

Lemma sameParticle_refl (p : Particle) : sameParticle p p.
Proof. unfold sameParticle. repeat split; reflexivity. Qed.

Lemma sameParticle_trans (p q r : Particle) :
  sameParticle p q -> sameParticle q r -> sameParticle p r.
Proof.
  unfold sameParticle.
  intros (A1 & A2 & A3 & A4 & A5 & A6 & A7 & A8) (B1 & B2 & B3 & B4 & B5 & B6 & B7 & B8).
  repeat split; congruence.
Qed.

Lemma step_keeps_particle (e : Event) (s : State) (i : nat) (p : Particle) :
  particles s !! i = Some p ->
  exists p', particles (step s e) !! i = Some p' /\ sameParticle p p'.
Proof.
  intros Hp. destruct e as [data | delta elapsed ray | imgs | img d]; cbn [step].
  - destruct (onHandData_fields data s) as (_ & -> & _).
    exists p. split; [exact Hp | apply sameParticle_refl].
  - rewrite animate_lookup, Hp. cbn. eexists. split; [reflexivity|].
    unfold sameParticle. cbn. repeat split; reflexivity.
  - destruct (uploadEffect_fields imgs s) as (_ & -> & _).
    exists p. split; [exact Hp | apply sameParticle_refl].
  - destruct (loadImage_fields img d s) as (_ & _ & _ & _ & _ & [-> | (q & -> & _)]).
    + exists p. split; [exact Hp | apply sameParticle_refl].
    + exists p. split; [|apply sameParticle_refl].
      rewrite lookup_app_l; [exact Hp|]. apply lookup_lt_Some in Hp. exact Hp.
Qed.

(** X4.  The collection only grows: whatever happens, the particle at a
    given index stays at that index with the same mesh, type, tree and
    scatter positions, spin, rest scale, interactive flag and transition
    variant; only its position and scale move. *)
Theorem particles_keep_their_slot (evs : list Event) (s : State) (i : nat)
    (p : Particle) :
  particles s !! i = Some p ->
  exists p', particles (run evs s) !! i = Some p' /\ sameParticle p p'.
Proof.
  revert s p. induction evs as [|e evs IH]; intros s p Hp.
  - exists p. split; [exact Hp | apply sameParticle_refl].
  - rewrite run_cons.
    destruct (step_keeps_particle e s i p Hp) as (p1 & Hp1 & Hsame1).
    destruct (IH (step s e) p1 Hp1) as (p2 & Hp2 & Hsame2).
    exists p2. split; [exact Hp2 | eapply sameParticle_trans; eauto].
Qed.

End ParticleProperties.

Lemma scale_stays_in_range_witness :
  (forall i, 0 <= drawScale (sampleDraws i) <= 1) /\
  forallb (frameTimeWithin 0.2) sampleFocusing = true /\
  Forall (fun p => 0 <= meshScale p <= 9.8) (particles sampleFocus).
Proof.
  assert (Hdraws : forall i, 0 <= drawScale (sampleDraws i) <= 1).
  { intros i. cbn. lra. }
  split; [exact Hdraws|]. split; [reflexivity|].
  apply (@scale_stays_in_range sampleNumerics sampleDraws sampleFocusing Hdraws).
  reflexivity.
Defined.

Lemma particles_keep_their_slot_witness :
  particles sampleScene !! 5%nat = Some (createParticle sampleDraws 5) /\
  exists p', particles sampleFocus !! 5%nat = Some p' /\
             sameParticle (createParticle sampleDraws 5) p'.
Proof.
  assert (Hp : particles sampleScene !! 5%nat = Some (createParticle sampleDraws 5))
    by reflexivity.
  split; [exact Hp|].
  apply (@particles_keep_their_slot sampleNumerics sampleFocusing sampleScene 5
           (createParticle sampleDraws 5) Hp).
Defined.

(** * The focus target and the collection *)

Lemma lookup_In {A : Type} (l : list A) (i : nat) (a : A) :
  l !! i = Some a -> In a l.
Proof.
  revert i. induction l as [|b l IH]; intros [|i] Hl; try discriminate.
  - injection Hl as ->. left. reflexivity.
  - right. apply (IH i Hl).
Qed.

Lemma In_lookup {A : Type} (l : list A) (a : A) :
  In a l -> exists i, l !! i = Some a.
Proof.
  induction l as [|b l IH]; intros Hin; [contradiction|].
  destruct Hin as [-> | Hin]; [exists 0%nat; reflexivity|].
  destruct (IH Hin) as [i Hi]. exists (S i). exact Hi.
Qed.

Lemma NoDup_map_lookup {A B : Type} (f : A -> B) (l : list A) (i j : nat) (a b : A) :
  List.NoDup (map f l) -> l !! i = Some a -> l !! j = Some b -> f a = f b -> i = j.
Proof.
  revert i j. induction l as [|c l IH]; intros i j Hnd Hi Hj Hf; [discriminate|].
  cbn in Hnd. inversion Hnd as [|? ? Hnotin Hnd']; subst.
  destruct i as [|i], j as [|j]; cbn in Hi, Hj.
  - reflexivity.
  - injection Hi as ->. exfalso. apply Hnotin. rewrite Hf.
    apply in_map. eapply lookup_In, Hj.
  - injection Hj as ->. exfalso. apply Hnotin. rewrite <- Hf.
    apply in_map. eapply lookup_In, Hi.
  - f_equal. apply (IH i j Hnd' Hi Hj Hf).
Qed.

Section FocusProperties.
Context `{Numerics}.

Lemma focusInCollection_grow (s s' : State) :
  focusTarget s' = focusTarget s ->
  (forall q, In q (particles s) ->
     exists q', In q' (particles s') /\ isPhoto q' = isPhoto q /\ mesh q' = mesh q) ->
  focusInCollection s -> focusInCollection s'.
Proof.
  intros Hf Hps Hs m Hm. rewrite Hf in Hm.
  destruct (Hs m Hm) as (q & Hq & Hphoto & Hmesh).
  destruct (Hps q Hq) as (q' & Hq' & Hphoto' & Hmesh').
  exists q'. split; [exact Hq'|]. split; congruence.
Qed.

Lemma focusInCollection_cleared (s : State) :
  focusTarget s = None -> focusInCollection s.
Proof. intros Hf m Hm. congruence. Qed.

Lemma focusInCollection_resolveSelection (ray : list Object3D) (s : State) :
  sceneWellFormed s -> focusInCollection s ->
  focusInCollection (resolveSelection ray s).
Proof.
  intros Hwf Hs.
  destruct (resolveSelection_cases ray s) as [-> | (p & _ & _ & Hnone & Heq)];
    [exact Hs|].
  assert (Hchg : resolveSelection ray s <> s).
  { intros Hsame.
    assert (Hf : focusTarget (resolveSelection ray s) = Some (mesh p))
      by (rewrite Heq; reflexivity).
    rewrite Hsame, Hnone in Hf. discriminate. }
  destruct (resolveSelection_selects_photo s ray Hwf Hchg)
    as (q & hit & Hq & Hphoto & _ & _ & _ & Hf).
  destruct (resolveSelection_particles ray s) as [Hps _].
  intros m Hm. rewrite Hf in Hm. injection Hm as <-.
  exists q. rewrite Hps. auto.
Qed.
End FocusProperties.

Section FocusInvariant.
Context `{Numerics}.

Lemma focusInCollection_step (e : Event) (s : State) :
  sceneWellFormed s -> focusInCollection s -> focusInCollection (step s e).
Proof.
  intros Hwf Hs. destruct e as [data | delta elapsed ray | imgs | img d]; cbn [step].
  - destruct (onHandData_fields data s) as (_ & Hps & _).
    destruct (focusTarget (onHandData data s)) as [m|] eqn:Hf;
      [|apply focusInCollection_cleared, Hf].
    assert (Hsame : focusTarget (onHandData data s) = focusTarget s).
    { destruct (gesture data) eqn:Hg.
      - destruct (AppMode.eqb (mode s) AppMode.FOCUS) eqn:Hm.
        + destruct (Qgtb (pinchDistance data) 0.4) eqn:Hp.
          * apply Qgtb_gt in Hp.
            destruct (onHandData_OPEN_exit s data Hg (or_intror Hp)). congruence.
          * apply Qgtb_le in Hp. apply AppMode_eqb_eq in Hm.
            apply (onHandData_OPEN_hold s data Hg Hm Hp).
        + assert (Hne : mode s <> AppMode.FOCUS).
          { intros He. apply AppMode_eqb_eq in He. congruence. }
          destruct (onHandData_OPEN_exit s data Hg (or_introl Hne)). congruence.
      - destruct (onHandData_CLOSED s data Hg). congruence.
      - apply (onHandData_other s data (or_introl Hg)).
      - apply (onHandData_other s data (or_intror Hg)). }
    apply (focusInCollection_grow s); [exact Hsame | | exact Hs].
    intros q Hq. exists q. rewrite Hps. auto.
  - destruct (animate_mode_focus delta elapsed ray s) as (_ & Hf & _).
    assert (Hres : focusInCollection (resolveSelection ray s)).
    { apply focusInCollection_resolveSelection; assumption. }
    apply (focusInCollection_grow (resolveSelection ray s)); [exact Hf | | exact Hres].
    destruct (resolveSelection_particles ray s) as [-> _].
    intros q Hq. destruct (In_lookup _ _ Hq) as [i Hi].
    pose proof (animate_lookup delta elapsed ray s i) as Hl.
    cbn zeta in Hl. rewrite Hi in Hl. cbn in Hl.
    eexists. split; [eapply lookup_In, Hl|]. split; reflexivity.
  - destruct (uploadEffect_fields imgs s) as (_ & Hps & _).
    destruct (uploadEffect_mode_focus imgs s) as [_ Hf].
    apply (focusInCollection_grow s); [exact Hf | | exact Hs].
    intros q Hq. exists q. rewrite Hps. auto.
  - destruct (loadImage_mode_focus img d s) as [_ Hf].
    apply (focusInCollection_grow s); [exact Hf | | exact Hs].
    intros q Hq. exists q.
    destruct (loadImage_fields img d s) as (_ & _ & _ & _ & _ & [-> | (p & -> & _)]);
      [auto|].
    split; [apply in_or_app; left; exact Hq | auto].
Qed.

Lemma reachable_focusInCollection (s : State) :
  reachable s -> focusInCollection s.
Proof.
  intros (draws & evs & ->).
  assert (Hinit : sceneWellFormed (setup draws initialState) /\
                  focusInCollection (setup draws initialState)).
  { split; [apply sceneWellFormed_setup | apply focusInCollection_cleared; reflexivity]. }
  revert Hinit. generalize (setup draws initialState).
  induction evs as [|e evs IH]; intros s [Hwf Hs]; [exact Hs|].
  rewrite run_cons. apply IH. split.
  - apply sceneWellFormed_step, Hwf.
  - apply focusInCollection_step; assumption.
Qed.

Lemma reachable_focusConsistent (s : State) : reachable s -> focusConsistent s.
Proof.
  intros (draws & evs & ->).
  apply focusConsistent_run, focusConsistent_setup, focusConsistent_initial.
Qed.

(** X5.  In every reachable state the focus target, when set, is the mesh
    of an interactive particle that is in the collection: the reference
    never dangles and never points at a decoration. *)
Theorem focus_target_is_a_photo_of_the_collection (s : State) (m : Object3D) :
  reachable s -> focusTarget s = Some m ->
  exists i q, particles s !! i = Some q /\ isPhoto q = true /\
              type q = ParticleType.PHOTO /\ mesh q = m.
Proof.
  intros Hreach Hm.
  destruct (reachable_focusInCollection s Hreach m Hm) as (q & Hq & Hphoto & Hmesh).
  destruct (In_lookup _ _ Hq) as [i Hi].
  exists i, q. repeat split; try assumption.
  (* interactive particles are exactly those of type PHOTO *)
  clear Hm Hmesh Hq. revert i q Hi Hphoto.
  destruct Hreach as (draws & evs & ->).
  assert (Hinit : forall i q, particles (setup draws initialState) !! i = Some q ->
                    isPhoto q = true -> type q = ParticleType.PHOTO).
  { intros i q Hi Hphoto. apply lookup_In in Hi.
    unfold setup, createParticles in Hi. cbn [particles set_particles set_nextId] in Hi.
    apply in_map_iff in Hi. destruct Hi as (j & <- & _). discriminate. }
  revert Hinit. generalize (setup draws initialState).
  induction evs as [|e evs IH]; intros s Hs; [exact Hs|].
  rewrite run_cons. apply IH. intros i q Hi Hphoto.
  destruct e as [data | delta elapsed ray | imgs | img d]; cbn [step] in Hi.
  - destruct (onHandData_fields data s) as (_ & Hps & _). rewrite Hps in Hi. eauto.
  - rewrite animate_lookup in Hi.
    destruct (particles s !! i) as [p|] eqn:Hp; [|discriminate].
    cbn in Hi. injection Hi as <-. cbn in *. eauto.
  - destruct (uploadEffect_fields imgs s) as (_ & Hps & _). rewrite Hps in Hi. eauto.
  - destruct (loadImage_fields img d s)
      as (_ & _ & _ & _ & _ & [Hps | (p & Hps & _ & _ & _ & Hty)]);
      rewrite Hps in Hi; [eauto|].
    apply lookup_In, in_app_or in Hi.
    destruct Hi as [Hi | [<- | []]]; [|exact Hty].
    destruct (In_lookup _ _ Hi) as [j Hj]. eauto.
Qed.

(** X6.  In [FOCUS] mode of a reachable state exactly one particle of the
    collection is treated as the focus target by the particle loop, and it
    is interactive; every other particle gets target scale 0.  Outside
    [FOCUS] no particle is, and every target scale is the rest scale. *)
Theorem exactly_one_particle_is_focused (s : State) :
  reachable s ->
  (mode s = AppMode.FOCUS ->
   exists i q,
     particles s !! i = Some q /\ isPhoto q = true /\ isFocusTarget s q = true /\
     forall j p pinchVal, particles s !! j = Some p -> j <> i ->
       isFocusTarget s p = false /\ targetScale s pinchVal p = 0) /\
  (mode s <> AppMode.FOCUS ->
   forall p pinchVal, isFocusTarget s p = false /\ targetScale s pinchVal p = baseScale p).
Proof.
  intros Hreach.
  pose proof (reachable_focusConsistent s Hreach) as Hcons.
  destruct (reachable_wellFormed s Hreach) as [[_ Hnd] _].
  split.
  - intros Hmode.
    destruct (proj2 Hcons Hmode) as [m Hm].
    destruct (reachable_focusInCollection s Hreach m Hm) as (q & Hq & Hphoto & Hmesh).
    destruct (In_lookup _ _ Hq) as [i Hi].
    exists i, q. split; [exact Hi|]. split; [exact Hphoto|].
    assert (Hfq : isFocusTarget s q = true).
    { unfold isFocusTarget. rewrite Hm, Hmesh. apply Object3D_eqb_refl. }
    split; [exact Hfq|].
    intros j p pinchVal Hj Hne.
    assert (Hfp : isFocusTarget s p = false).
    { apply not_true_is_false. intros Hfp. apply Hne.
      unfold isFocusTarget in Hfp. rewrite Hm in Hfp.
      apply Object3D_eqb_eq in Hfp.
      apply (NoDup_map_lookup (fun p => id (mesh p)) (particles s) j i p q Hnd Hj Hi).
      cbn. congruence. }
    split; [exact Hfp|]. unfold targetScale. rewrite Hmode, Hfp. reflexivity.
  - intros Hmode p pinchVal.
    assert (Hnone : focusTarget s = None).
    { destruct (focusTarget s) eqn:Hf; [|reflexivity].
      exfalso. apply Hmode, Hcons. eauto. }
    unfold isFocusTarget, targetScale. rewrite Hnone.
    destruct (mode s); try contradiction; auto.
Qed.

(** X7.  Decorations do not occlude photos.  In a reachable state whose
    last sample is a pinch and which has no focus target, when the ray
    meets decorative particle meshes and then a node that is a photo mesh or
    a part of one, the frame enters [FOCUS] on that photo, whatever lies
    behind it. *)
Theorem nearest_photo_is_selected (s : State) (pre post : list Object3D)
    (h : Object3D) (q : Particle) (delta elapsed : Q) :
  reachable s ->
  gesture (handData s) = PINCH -> focusTarget s = None ->
  (forall g, In g pre ->
     exists p, In p (particles s) /\ isPhoto p = false /\ g = mesh p) ->
  In q (particles s) -> isPhoto q = true ->
  isSelfOrAncestor (mesh q) h = true ->
  mode (animate delta elapsed (pre ++ h :: post) s) = AppMode.FOCUS /\
  focusTarget (animate delta elapsed (pre ++ h :: post) s) = Some (mesh q).
Proof.
  intros Hreach Hg Hnone Hpre Hq Hphoto Hanc.
  destruct (reachable_wellFormed s Hreach) as [Hwf _].
  destruct (animate_mode_focus delta elapsed (pre ++ h :: post) s) as (-> & -> & _).
  unfold resolveSelection. rewrite Hg, Hnone.
  unfold Raycaster.intersectObjects. rewrite List.filter_app.
  pose proof (intersectObjects_decor s pre Hwf Hpre) as Hnil.
  unfold Raycaster.intersectObjects in Hnil. rewrite Hnil.
  cbn [app List.filter].
  assert (Hex : existsb (fun o => isSelfOrAncestor o h)
                  (map mesh (List.filter isPhoto (particles s))) = true).
  { apply existsb_exists. exists (mesh q). split; [|exact Hanc].
    apply in_map, filter_In. auto. }
  rewrite Hex.
  destruct (sceneWellFormed_particle s q Hwf Hq) as [Hpar Hid].
  rewrite (climbToRoot_reaches (particles s) (mesh q) Hpar Hid h Hanc).
  destruct (List.find _ (particles s)) as [p|] eqn:Hfind.
  - apply find_some in Hfind. destruct Hfind as [Hp Heq].
    apply Object3D_eqb_eq in Heq.
    apply (sceneWellFormed_same_mesh s p q Hwf Hp Hq) in Heq. subst p.
    cbn. auto.
  - exfalso. pose proof (find_none _ _ Hfind q Hq) as Hno. cbn in Hno.
    rewrite Object3D_eqb_refl in Hno. discriminate.
Qed.

(** X8.  The automatic rotation does not accumulate.  While no hand is
    seen (the neutral sample is in the mailbox) and no frame takes longer
    than 0.4 s, the stored yaw only moves toward zero, and the yaw given to
    the group in a frame never exceeds the stored yaw by more than
    [0.1 * delta]; the added [0.1 * delta] is dropped when the next frame
    starts again from the stored yaw. *)
Theorem auto_rotation_does_not_accumulate (frames : list Event) (s : State)
    (delta : Q) :
  forallb isFrame frames = true ->
  forallb (frameTimeWithin 0.4) frames = true ->
  handData s = neutralSample ->
  0 <= delta <= 0.4 ->
  handData (run frames s) = neutralSample /\
  Qabs (rotationY (run frames s)) <= Qabs (rotationY s) /\
  Qabs (groupRotationY delta (run frames s)) <= Qabs (rotationY s) + 0.1 * delta.
Proof.
  intros Hfr Hdt Hneutral Hdelta.
  assert (Hshrink : forall a k, 0 <= k <= 1 ->
            Qabs (a + ((0.5 - 0.5) * 3 - a) * 2.5 * k * (/ 2.5)) <= Qabs a).
  { intros a k Hk. apply Qabs_Qle_condition.
    pose proof (Qle_Qabs a) as H1. pose proof (Qle_Qabs (- a)) as H2.
    rewrite Qabs_opp in H2.
    assert (Hk' : 2.5 * k * / 2.5 == k) by (field; discriminate).
    split; nra. }
  assert (Hrun : handData (run frames s) = neutralSample /\
                 Qabs (rotationY (run frames s)) <= Qabs (rotationY s)).
  { revert s Hneutral Hfr Hdt.
    induction frames as [|e frames IH]; intros s Hneutral Hfr Hdt.
    - split; [exact Hneutral | cbn; lra].
    - cbn in Hfr, Hdt. apply andb_true_iff in Hfr, Hdt.
      destruct Hfr as [He Hfr], Hdt as [Hd Hdt].
      destruct e as [data | dl elapsed ray | imgs | img d]; try discriminate.
      rewrite run_cons. cbn [step].
      destruct (animate_fields dl elapsed ray s) as (Hh & _ & _ & Hry & _).
      destruct (IH (animate dl elapsed ray s)) as [Hh' Hle]; auto.
      { rewrite Hh. exact Hneutral. }
      split; [exact Hh'|].
      rewrite Hry, Hneutral in Hle. cbn [x neutralSample] in Hle.
      cbn in Hd. apply Qle_bool_range in Hd.
      pose proof (Hshrink (rotationY s) (2.5 * dl)) as Hs.
      assert (Hk : 0 <= 2.5 * dl <= 1) by lra. specialize (Hs Hk).
      assert (Heq : rotationY s + ((0.5 - 0.5) * 3 - rotationY s) * 2.5 * (2.5 * dl) * / 2.5
                    == rotationY s + ((0.5 - 0.5) * 3 - rotationY s) * 2.5 * dl)
        by (field; discriminate).
      rewrite Heq in Hs. lra. }
  destruct Hrun as [Hh Hle]. split; [exact Hh|]. split; [exact Hle|].
  unfold groupRotationY. rewrite Hh. cbn [x gesture neutralSample].
  set (r := rotationY (run frames s)) in *.
  pose proof (Hshrink r (2.5 * delta)) as Hs.
  assert (Hk : 0 <= 2.5 * delta <= 1) by lra. specialize (Hs Hk).
  assert (Heq : r + ((0.5 - 0.5) * 3 - r) * 2.5 * (2.5 * delta) * / 2.5
                == r + ((0.5 - 0.5) * 3 - r) * 2.5 * delta)
    by (field; discriminate).
  rewrite Heq in Hs.
  assert (Hplus : Qabs (r + ((0.5 - 0.5) * 3 - r) * 2.5 * delta + 0.1 * delta)
                  <= Qabs (r + ((0.5 - 0.5) * 3 - r) * 2.5 * delta) + 0.1 * delta).
  { eapply Qle_trans; [apply Qabs_triangle|].
    rewrite (Qabs_pos (0.1 * delta)) by lra. lra. }
  destruct (mode (run frames s)); lra.
Qed.

End FocusInvariant.

Lemma sampleFocus_reachable : @reachable sampleNumerics sampleFocus.
Proof. exists sampleDraws, sampleFocusing. reflexivity. Qed.

Lemma focus_target_is_a_photo_of_the_collection_witness :
  @reachable sampleNumerics sampleFocus /\
  focusTarget sampleFocus = Some samplePhotoMesh /\
  exists i q, particles sampleFocus !! i = Some q /\ isPhoto q = true /\
              type q = ParticleType.PHOTO /\ mesh q = samplePhotoMesh.
Proof.
  assert (Hf : focusTarget sampleFocus = Some samplePhotoMesh) by reflexivity.
  split; [exact sampleFocus_reachable|]. split; [exact Hf|].
  exact (@focus_target_is_a_photo_of_the_collection sampleNumerics sampleFocus
           samplePhotoMesh sampleFocus_reachable Hf).
Defined.

Lemma exactly_one_particle_is_focused_witness :
  @reachable sampleNumerics sampleFocus /\
  mode sampleFocus = AppMode.FOCUS /\
  exists i q,
    particles sampleFocus !! i = Some q /\ isPhoto q = true /\
    isFocusTarget sampleFocus q = true /\
    forall j p pinchVal, particles sampleFocus !! j = Some p -> j <> i ->
      isFocusTarget sampleFocus p = false /\ targetScale sampleFocus pinchVal p = 0.
Proof.
  assert (Hm : mode sampleFocus = AppMode.FOCUS) by reflexivity.
  split; [exact sampleFocus_reachable|]. split; [exact Hm|].
  exact (proj1 (@exactly_one_particle_is_focused sampleNumerics sampleFocus
                  sampleFocus_reachable) Hm).
Defined.

Lemma nearest_photo_is_selected_witness :
  @reachable sampleNumerics samplePinching /\
  gesture (handData samplePinching) = PINCH /\
  focusTarget samplePinching = None /\
  mode (@animate sampleNumerics 0.016 1
          ([mesh (createParticle sampleDraws 0)]
             ++ hitMeshOf samplePhotoMesh :: [mesh (createParticle sampleDraws 1)])
          samplePinching) = AppMode.FOCUS.
Proof.
  split; [exact samplePinching_reachable|]. split; [reflexivity|].
  split; [reflexivity|].
  apply (@nearest_photo_is_selected sampleNumerics samplePinching
           [mesh (createParticle sampleDraws 0)]
           [mesh (createParticle sampleDraws 1)]
           (hitMeshOf samplePhotoMesh) samplePinchingPhoto 0.016 1
           samplePinching_reachable eq_refl eq_refl).
  - intros g [<- | []]. exists (createParticle sampleDraws 0).
    split; [left; reflexivity|]. split; reflexivity.
  - apply (lookup_In _ 800). vm_compute. reflexivity.
  - vm_compute. reflexivity.
  - vm_compute. reflexivity.
Defined.

Lemma auto_rotation_does_not_accumulate_witness :
  forallb isFrame sampleFrames = true /\
  forallb (frameTimeWithin 0.4) sampleFrames = true /\
  handData sampleScene = neutralSample /\
  0 <= 0.016 <= 0.4 /\
  Qabs (groupRotationY 0.016 (@run sampleNumerics sampleFrames sampleScene))
    <= Qabs (rotationY sampleScene) + 0.1 * 0.016.
Proof.
  assert (Hd : 0 <= 0.016 <= 0.4) by (split; discriminate).
  split; [reflexivity|]. split; [reflexivity|]. split; [reflexivity|].
  split; [exact Hd|].
  apply (@auto_rotation_does_not_accumulate sampleNumerics sampleFrames sampleScene
           0.016 eq_refl eq_refl eq_refl Hd).
Defined.

(** * Photo meshes *)

(** X9.  Whatever the pixel size of the image, the invisible hit volume
    hung under its photo mesh is a sphere of radius 2.4 (0.8 times the
    long side, which is always 3), and the frame exceeds the photo plane by
    0.15 in width and height. *)
Theorem hit_volume_radius_is_constant (width height : positive) (i : nat)
    (par : option Object3D) :
  let wh := displaySize (Zpos width # height) in
  let m := mkObject3D i (PlaneGeometry (fst wh) (snd wh)) par in
  (exists r, geometry (hitMeshOf m) = SphereGeometry r /\ r == 2.4) /\
  geometry (frameOf m) = PlaneGeometry (fst wh + 0.15) (snd wh + 0.15) /\
  parent (hitMeshOf m) = Some m /\ parent (frameOf m) = Some m.
Proof.
  intros wh m. subst m. cbn [hitMeshOf frameOf geometry parent].
  split; [|auto]. eexists. split; [reflexivity|].
  assert (Ha : 0 < Zpos width # height) by reflexivity.
  subst wh. destruct (Qlt_le_dec (Zpos width # height) 1) as [Hlt | Hge].
  - rewrite (displaySize_portrait _ Hlt). cbn [fst snd].
    rewrite (Q.max_r (3 * (Zpos width # height)) 3) by lra. reflexivity.
  - rewrite (displaySize_landscape _ Hge). cbn [fst snd].
    assert (Hinv : 3 / (Zpos width # height) <= 3).
    { apply Qle_shift_div_r; [exact Ha | lra]. }
    rewrite (Q.max_l 3 (3 / (Zpos width # height))) by exact Hinv. reflexivity.
Qed.

(** * Successive uploads *)

(** X10.  When the list of uploads only grows by appended batches and the
    cursor [processedImagesCount] starts at the length of the list, the
    effect starts the load of every appended image exactly once and in
    order: the images started over all rounds are the batches laid end to
    end, and the cursor ends at the length of the whole list. *)
Theorem every_upload_is_started_once (batches : list (list ImageSource))
    (uploaded : list ImageSource) (s : State) :
  processedImagesCount s = length uploaded ->
  fst (uploadRounds batches uploaded s) = concat batches /\
  processedImagesCount (snd (uploadRounds batches uploaded s))
    = length (uploaded ++ concat batches) /\
  particles (snd (uploadRounds batches uploaded s)) = particles s.
Proof.
  revert uploaded s. induction batches as [|files batches IH]; intros uploaded s Hc.
  - cbn. rewrite app_nil_r. auto.
  - cbn [uploadRounds concat].
    destruct (uploadEffect_new uploaded files s Hc) as [Hstarted Hcount].
    destruct (uploadEffect_fields (uploaded ++ files) s) as (_ & Hps & _).
    destruct (uploadEffect (uploaded ++ files) s) as [started s1].
    cbn [fst snd] in Hstarted, Hcount, Hps.
    destruct (IH (uploaded ++ files) s1 Hcount) as (Hlater & Hfinal & Hps').
    destruct (uploadRounds batches (uploaded ++ files) s1) as [later s2].
    cbn [fst snd] in *. rewrite Hstarted, Hlater, Hfinal, Hps', Hps, <- app_assoc.
    auto.
Qed.

Lemma every_upload_is_started_once_witness :
  processedImagesCount sampleScene = length (@nil ImageSource) /\
  fst (uploadRounds [[Decodable 4 3; Undecodable]; []; [Decodable 1 1]] [] sampleScene)
    = [Decodable 4 3; Undecodable; Decodable 1 1].
Proof.
  assert (Hc : processedImagesCount sampleScene = length (@nil ImageSource))
    by reflexivity.
  split; [exact Hc|].
  exact (proj1 (every_upload_is_started_once
                  [[Decodable 4 3; Undecodable]; []; [Decodable 1 1]] []
                  sampleScene Hc)).
Defined.

(** * The polling loop of the hand tracker *)

Lemma timeChanges_compat (a b : Q) (times : list Q) :
  a == b -> timeChanges a times = timeChanges b times.
Proof.
  intros Hab. destruct times as [|t rest]; [reflexivity|].
  cbn [timeChanges]. rewrite (Qeqb_comp t t (Qeq_refl t) a b Hab). reflexivity.
Qed.

Section PollingProperties.
Context `{Numerics}.

Lemma predictWebcam_flags (t : Q) (r : HandLandmarkerResult)
    (st : HandTrackingService) :
  handLandmarker (fst (predictWebcam t r st)) = handLandmarker st /\
  video (fst (predictWebcam t r st)) = video st.
Proof.
  unfold predictWebcam.
  destruct (negb (handLandmarker st) || negb (video st)); [auto|].
  destruct (negb (Qeq_bool t (lastVideoTime st))); [|auto].
  destruct (processResult r); auto.
Qed.

(** X11.  The polling loop delivers at most one sample per change of the
    video time: polls that find the time of the previous poll deliver
    nothing.  A service whose landmarker or video is missing delivers
    nothing at all, and when every detection result can be processed the
    number of samples is exactly the number of changes of the video time
    (the first poll counts, the time starting at -1). *)
Theorem at_most_one_sample_per_video_frame
    (polls : list (Q * HandLandmarkerResult)) (st : HandTrackingService) :
  (length (fst (pollLoop polls st))
     <= timeChanges (lastVideoTime st) (map fst polls))%nat /\
  (handLandmarker st = false \/ video st = false ->
   fst (pollLoop polls st) = []) /\
  (handLandmarker st = true -> video st = true ->
   Forall (fun p => is_Some (processResult (snd p))) polls ->
   length (fst (pollLoop polls st))
     = timeChanges (lastVideoTime st) (map fst polls)).
Proof.
  split; [|split].
  - revert st. induction polls as [|[t r] polls IH]; intros st; [cbn; lia|].
    cbn [pollLoop map fst timeChanges]. unfold predictWebcam.
    destruct (negb (handLandmarker st) || negb (video st)); cbn; [lia|].
    destruct (Qeq_bool t (lastVideoTime st)) eqn:Ht; cbn [negb].
    + cbn [framePending].
      specialize (IH (mkService (handLandmarker st) (video st) (lastVideoTime st) true)).
      cbn [lastVideoTime] in IH.
      destruct (pollLoop polls _) as [later st2]. cbn [fst] in *.
      apply Qeq_bool_iff in Ht. rewrite (timeChanges_compat t _ _ Ht). lia.
    + destruct (processResult r) as [data|]; cbn [framePending fst length]; [|lia].
      specialize (IH (mkService (handLandmarker st) (video st) t true)).
      cbn [lastVideoTime] in IH.
      destruct (pollLoop polls _) as [later st2]. cbn [fst length] in *. lia.
  - intros Hmissing. destruct polls as [|[t r] polls]; [reflexivity|].
    cbn [pollLoop]. unfold predictWebcam.
    assert (Hguard : negb (handLandmarker st) || negb (video st) = true).
    { destruct Hmissing as [-> | ->]; [reflexivity | apply orb_true_r]. }
    rewrite Hguard. reflexivity.
  - revert st. induction polls as [|[t r] polls IH]; intros st Hl Hv Hall;
      [reflexivity|].
    inversion Hall as [|? ? [data Hdata] Hrest]; subst. cbn [snd] in Hdata.
    cbn [pollLoop map fst timeChanges]. unfold predictWebcam.
    rewrite Hl, Hv. cbn [negb orb].
    destruct (Qeq_bool t (lastVideoTime st)) eqn:Ht; cbn [negb].
    + cbn [framePending].
      specialize (IH (mkService true true (lastVideoTime st) true) eq_refl eq_refl Hrest).
      cbn [lastVideoTime] in IH.
      destruct (pollLoop polls _) as [later st2]. cbn [fst] in *.
      apply Qeq_bool_iff in Ht. rewrite (timeChanges_compat t _ _ Ht). lia.
    + rewrite Hdata. cbn [framePending].
      specialize (IH (mkService true true t true) eq_refl eq_refl Hrest).
      cbn [lastVideoTime] in IH.
      destruct (pollLoop polls _) as [later st2]. cbn [fst length] in *. lia.
Qed.

(** X12.  From landmarks to mode.  With no hand in the picture the
    neutral sample is stored and mode and focus target stay as they are.
    With a hand, three folded fingertips give [TREE] without a focus target;
    otherwise a thumb tip less than 0.05 from the index tip leaves mode and
    focus target alone; otherwise the hand is open and the scene scatters,
    unless the mode is [FOCUS] and the thumb-to-index distance is at most
    0.4. *)
Theorem landmarks_to_mode (result : HandLandmarkerResult) (s : State) :
  (landmarks result = None \/ landmarks result = Some [] ->
   exists s', processAndDispatch result s = Some s' /\
     handData s' = neutralSample /\
     mode s' = mode s /\ focusTarget s' = focusTarget s) /\
  (forall lm rest wrist thumbTip indexTip middleTip ringTip pinkyTip,
     landmarks result = Some (lm :: rest) ->
     lm !! 0%nat = Some wrist -> lm !! 4%nat = Some thumbTip ->
     lm !! 8%nat = Some indexTip -> lm !! 12%nat = Some middleTip ->
     lm !! 16%nat = Some ringTip -> lm !! 20%nat = Some pinkyTip ->
     let folded := foldedAmong [indexTip; middleTip; ringTip; pinkyTip] wrist in
     let pinch := distance2D indexTip thumbTip in
     exists s', processAndDispatch result s = Some s' /\
       pinchDistance (handData s') = pinch /\
       ((3 <= folded)%nat -> mode s' = AppMode.TREE /\ focusTarget s' = None) /\
       ((folded < 3)%nat -> pinch < 0.05 ->
        mode s' = mode s /\ focusTarget s' = focusTarget s) /\
       ((folded < 3)%nat -> 0.05 <= pinch ->
        (mode s = AppMode.FOCUS /\ pinch <= 0.4 ->
         mode s' = AppMode.FOCUS /\ focusTarget s' = focusTarget s) /\
        (mode s <> AppMode.FOCUS \/ 0.4 < pinch ->
         mode s' = AppMode.SCATTER /\ focusTarget s' = None))).
Proof.
  split.
  - intros Hno. exists (onHandData neutralSample s).
    unfold processAndDispatch, processResult.
    destruct Hno as [-> | ->]; (split; [reflexivity|]);
      (split; [reflexivity|]);
      apply (onHandData_other s neutralSample); right; reflexivity.
  - intros lm rest wrist thumbTip indexTip middleTip ringTip pinkyTip
      Hl H0 H4 H8 H12 H16 H20 folded pinch.
    unfold processAndDispatch, processResult. rewrite Hl.
    rewrite (classifyHand_present lm wrist thumbTip indexTip middleTip ringTip
               pinkyTip H0 H4 H8 H12 H16 H20).
    fold folded pinch. eexists. split; [reflexivity|].
    split; [rewrite (proj1 (onHandData_fields _ s)); reflexivity|].
    destruct (3 <=? folded)%nat eqn:Hf.
    + apply Nat.leb_le in Hf.
      split; [intros _; apply onHandData_CLOSED; reflexivity|].
      split; intros; lia.
    + apply Nat.leb_gt in Hf. split; [intros; lia|].
      destruct (Qltb pinch 0.05) eqn:Hp.
      * apply Qltb_lt in Hp.
        split; [intros _ _; apply onHandData_other; left; reflexivity|].
        intros _ Hge. lra.
      * apply Qltb_ge in Hp. split; [intros _ Hlt; lra|].
        intros _ _. split.
        -- intros [Hm Hle]. apply onHandData_OPEN_hold; auto.
        -- intros Hc. apply onHandData_OPEN_exit; auto.
Qed.

End PollingProperties.

(** * Snow *)

Section SnowProperties.
Context `{Numerics}.

Lemma snowStep_range (elapsed : Q) (draw : nat -> Q * Q) (i : nat) (f : Snowflake) :
  0 <= snowVel f -> snowY f <= 35 ->
  snowVel (snowStep elapsed draw i f) = snowVel f /\
  - (25) <= snowY (snowStep elapsed draw i f) <= 35.
Proof.
  intros Hv Hy. unfold snowStep.
  destruct (Qltb (snowY f - snowVel f) (-25)) eqn:Hlow; cbn [snowVel snowY].
  - split; [reflexivity|]. split; discriminate.
  - apply Qltb_ge in Hlow. split; [reflexivity|]. split; lra.
Qed.

Lemma Forall_imap_impl {A : Type} (P R : A -> Prop) (f : nat -> A -> A)
    (l : list A) :
  (forall i a, P a -> R (f i a)) -> Forall P l -> Forall R (imap f l).
Proof.
  revert f. induction l as [|a l IH]; intros f Hf Hall; cbn; [constructor|].
  inversion Hall as [|? ? Ha Hl]; subst. constructor; [apply Hf, Ha|].
  apply IH; [intros i b; apply Hf | exact Hl].
Qed.

Lemma snowFrame_range (elapsed : Q) (draw : nat -> Q * Q) (flakes : list Snowflake) :
  Forall (fun f => 0 <= snowVel f /\ snowY f <= 35) flakes ->
  Forall (fun f => 0 <= snowVel f /\ - (25) <= snowY f <= 35)
         (snowFrame elapsed draw flakes).
Proof.
  unfold snowFrame. apply Forall_imap_impl.
  intros i f [Hv Hy].
  destruct (snowStep_range elapsed draw i f Hv Hy) as [-> Hrange]. auto.
Qed.

(** X13.  Snowflakes created from draws in [0, 1] never fall through the
    floor: after every frame each flake has its height between -25 and 35,
    a flake found below -25 being put back at height 25, and no flake is
    lost. *)
Theorem snow_stays_above_the_floor (draws : list (Q * Q * Q * Q))
    (fr : Q * (nat -> Q * Q)) (frames : list (Q * (nat -> Q * Q))) :
  Forall snowDrawsInRange draws ->
  Forall (fun f => - (25) <= snowY f <= 35)
         (snowRun (fr :: frames) (map createSnowflake draws)) /\
  length (snowRun (fr :: frames) (map createSnowflake draws)) = length draws.
Proof.
  intros Hdraws.
  assert (Hinit : Forall (fun f => 0 <= snowVel f /\ snowY f <= 35)
                         (map createSnowflake draws)).
  { apply Forall_map. eapply Forall_impl; [exact Hdraws|]. cbn.
    intros [[[r1 r2] r3] r4] (H1 & H2 & H3 & H4). unfold inUnitInterval in *.
    cbn. split; lra. }
  assert (Hlen : forall frs fl, length (snowRun frs fl) = length fl).
  { intros frs. induction frs as [|fr0 frs IH]; intros fl; [reflexivity|].
    unfold snowRun in *. cbn [fold_left]. rewrite IH.
    unfold snowFrame. apply length_imap. }
  split; [|rewrite Hlen; apply length_map].
  assert (Hrun : forall frs fl,
            Forall (fun f => 0 <= snowVel f /\ - (25) <= snowY f <= 35) fl ->
            Forall (fun f => 0 <= snowVel f /\ - (25) <= snowY f <= 35)
                   (snowRun frs fl)).
  { intros frs. induction frs as [|fr0 frs IH]; intros fl Hfl; [exact Hfl|].
    unfold snowRun in *. cbn [fold_left]. apply IH, snowFrame_range.
    eapply Forall_impl; [exact Hfl|]. cbn. tauto. }
  unfold snowRun. cbn [fold_left].
  eapply Forall_impl; [apply (Hrun frames), snowFrame_range, Hinit|].
  cbn. tauto.
Qed.

End SnowProperties.

Lemma snow_stays_above_the_floor_witness :
  Forall snowDrawsInRange sampleSnowDraws /\
  Forall (fun f => - (25) <= snowY f <= 35)
         (@snowRun sampleNumerics sampleSnowFrames (map createSnowflake sampleSnowDraws)).
Proof.
  assert (Hd : Forall snowDrawsInRange sampleSnowDraws).
  { repeat constructor; discriminate. }
  split; [exact Hd|].
  exact (proj1 (@snow_stays_above_the_floor sampleNumerics sampleSnowDraws
                  (1, fun _ => (0.5, 0.5)) [] Hd)).
Defined.

(** The first sample flake sinks by its speed; the second, created below
    the floor, is put back at height 25. *)
Example sampleSnow_heights :
  map (fun f => Qred (snowY f))
      (@snowRun sampleNumerics sampleSnowFrames (map createSnowflake sampleSnowDraws))
    = [Qred 27.93; 25].
Proof. reflexivity. Qed.

(** * App: loading screen, upload control, persistence *)

Lemma handleFileUpload_fields (files : list ImageSource) (a : App.State) :
  App.uploadedImages (App.handleFileUpload files a) = App.uploadedImages a ++ files /\
  App.isLoading (App.handleFileUpload files a) = App.isLoading a /\
  App.cameraReady (App.handleFileUpload files a) = App.cameraReady a /\
  App.isDbLoaded (App.handleFileUpload files a) = App.isDbLoaded a /\
  App.errorMsg (App.handleFileUpload files a) = App.errorMsg a /\
  App.timers (App.handleFileUpload files a) = App.timers a /\
  App.dbAvailable (App.handleFileUpload files a) = App.dbAvailable a /\
  App.photos (App.handleFileUpload files a) = App.photos a /\
  App.inFlight (App.handleFileUpload files a) = App.inFlight a /\
  App.toSave (App.handleFileUpload files a) = App.toSave a ++ files.
Proof.
  destruct files as [|f files]; cbn; rewrite ?app_nil_r; repeat split; reflexivity.
Qed.

Lemma resumeSaving_fields (a : App.State) :
  App.uploadedImages (App.resumeSaving a) = App.uploadedImages a /\
  App.isLoading (App.resumeSaving a) = App.isLoading a /\
  App.cameraReady (App.resumeSaving a) = App.cameraReady a /\
  App.isDbLoaded (App.resumeSaving a) = App.isDbLoaded a /\
  App.errorMsg (App.resumeSaving a) = App.errorMsg a /\
  App.timers (App.resumeSaving a) = App.timers a /\
  App.dbAvailable (App.resumeSaving a) = App.dbAvailable a /\
  App.photos (App.resumeSaving a) = App.photos a.
Proof.
  unfold App.resumeSaving, App.saveFileToDB.
  destruct (App.toSave a) as [|f rest]; cbn; [repeat split; reflexivity|].
  destruct (App.dbAvailable a) eqn:Hok; cbn; rewrite ?Hok; repeat split; reflexivity.
Qed.

Lemma settleWrite_fields (committed : bool) (a : App.State) :
  App.uploadedImages (App.settleWrite committed a) = App.uploadedImages a /\
  App.isLoading (App.settleWrite committed a) = App.isLoading a /\
  App.cameraReady (App.settleWrite committed a) = App.cameraReady a /\
  App.isDbLoaded (App.settleWrite committed a) = App.isDbLoaded a /\
  App.errorMsg (App.settleWrite committed a) = App.errorMsg a /\
  App.timers (App.settleWrite committed a) = App.timers a /\
  App.dbAvailable (App.settleWrite committed a) = App.dbAvailable a /\
  App.toSave (App.settleWrite committed a) = App.toSave a.
Proof.
  unfold App.settleWrite.
  destruct (App.inFlight a) as [|f rest]; cbn; [repeat split; reflexivity|].
  destruct committed; cbn; repeat split; reflexivity.
Qed.

Lemma app_run_cons (e : App.Event) (evs : list App.Event) (a : App.State) :
  App.run (e :: evs) a = App.run evs (App.step a e).
Proof. reflexivity. Qed.

Lemma app_run_app (evs1 evs2 : list App.Event) (a : App.State) :
  App.run (evs1 ++ evs2) a = App.run evs2 (App.run evs1 a).
Proof. unfold App.run. apply fold_left_app. Qed.

Lemma loadingEffect_fires (before after : App.State) :
  App.loadingEffect before after = after \/
  (App.cameraReady after = true /\ App.isDbLoaded after = true /\
   App.loadingEffect before after = App.setTimers (S (App.timers after)) after).
Proof.
  unfold App.loadingEffect.
  destruct (negb _ || negb _); cbn [andb]; [|auto].
  destruct (App.cameraReady after); cbn [andb]; [|auto].
  destruct (App.isDbLoaded after); auto.
Qed.

Lemma loadingGate_effect (before after : App.State) :
  (App.isLoading after = false \/ App.timers after <> 0%nat ->
   App.cameraReady after = true /\ App.isDbLoaded after = true) ->
  loadingGate (App.loadingEffect before after).
Proof.
  intros Hafter. unfold loadingGate.
  destruct (loadingEffect_fires before after) as [-> | (Hc & Hd & ->)];
    [exact Hafter | cbn; auto].
Qed.

Lemma loadingGate_step (e : App.Event) (a : App.State) :
  loadingGate a -> loadingGate (App.step a e).
Proof.
  intros Ha. destruct e as [| files | | msg | | | committed]; cbn [App.step].
  - case_eq (App.isDbLoaded a); intros Hdb; [exact Ha|].
    apply loadingGate_effect.
    destruct (App.loadFilesFromDB a) as [|f fs]; cbn;
      intros Hc; destruct (Ha Hc); congruence.
  - destruct (App.uploadControlRendered a); [|exact Ha].
    unfold loadingGate.
    destruct (handleFileUpload_fields files a) as (_ & -> & -> & -> & _ & -> & _).
    exact Ha.
  - apply loadingGate_effect. cbn. intros Hc. destruct (Ha Hc). auto.
  - exact Ha.
  - case_eq (App.timers a); [intros Ht; exact Ha | intros n Ht].
    unfold loadingGate. cbn. intros _. apply Ha. right. congruence.
  - unfold loadingGate.
    destruct (resumeSaving_fields a) as (_ & -> & -> & -> & _ & -> & _).
    exact Ha.
  - unfold loadingGate.
    destruct (settleWrite_fields committed a) as (_ & -> & -> & -> & _ & -> & _).
    exact Ha.
Qed.

(** X14.  The loading screen is taken away only after both the camera is
    ready and the stored photos have been read: in every state of a session
    in which [isLoading] is false, [cameraReady] and [isDbLoaded] hold. *)
Theorem loading_ends_only_when_camera_and_database_are_ready
    (dbAvailable : bool) (db : list ImageSource) (evs : list App.Event) :
  App.isLoading (App.run evs (App.mount dbAvailable db)) = false ->
  App.cameraReady (App.run evs (App.mount dbAvailable db)) = true /\
  App.isDbLoaded (App.run evs (App.mount dbAvailable db)) = true.
Proof.
  assert (Hinit : loadingGate (App.mount dbAvailable db)).
  { unfold loadingGate. cbn. intros [Hc | Hc]; [discriminate | contradiction]. }
  revert Hinit. generalize (App.mount dbAvailable db).
  induction evs as [|e evs IH]; intros a Ha Hload.
  - apply Ha. left. exact Hload.
  - rewrite app_run_cons in *. apply IH; [apply loadingGate_step, Ha | exact Hload].
Qed.

Lemma loading_ends_only_when_camera_and_database_are_ready_witness :
  App.isLoading (App.run sampleSession (App.mount true [])) = false /\
  App.cameraReady (App.run sampleSession (App.mount true [])) = true.
Proof.
  assert (Hl : App.isLoading (App.run sampleSession (App.mount true [])) = false)
    by reflexivity.
  split; [exact Hl|].
  exact (proj1 (loading_ends_only_when_camera_and_database_are_ready
                  true [] sampleSession Hl)).
Defined.

Lemma loadingEffect_fields (before after : App.State) :
  App.uploadedImages (App.loadingEffect before after) = App.uploadedImages after /\
  App.photos (App.loadingEffect before after) = App.photos after /\
  App.isDbLoaded (App.loadingEffect before after) = App.isDbLoaded after /\
  App.dbAvailable (App.loadingEffect before after) = App.dbAvailable after /\
  App.inFlight (App.loadingEffect before after) = App.inFlight after /\
  App.toSave (App.loadingEffect before after) = App.toSave after.
Proof.
  destruct (loadingEffect_fires before after) as [-> | (_ & _ & ->)]; cbn;
    repeat split; reflexivity.
Qed.








(** An upload is shown before it is stored, and a write that aborts is
    never stored, without the photos shown changing. *)
Example upload_is_shown_before_it_is_stored :
  let a := App.run sampleSession (App.mount true []) in
  App.uploadedImages a = [Decodable 4 3; Undecodable] /\ App.photos a = [] /\
  App.photos (App.run [App.DbOpenedForSave; App.WriteSettled false;
                       App.DbOpenedForSave; App.WriteSettled true] a)
    = [Undecodable].
Proof. repeat split; reflexivity. Qed.

(** X16.  The set of photos is fixed by the first photos that arrive.
    Once [uploadedImages] is not empty, restored from the store or
    uploaded, it never changes for the rest of the session: the upload
    control is no longer part of the page. *)
Theorem photos_are_fixed_once_present (dbAvailable : bool) (db : list ImageSource)
    (evs later : list App.Event) :
  let a := App.run evs (App.mount dbAvailable db) in
  App.uploadedImages a <> [] ->
  App.uploadControlRendered a = false /\
  App.uploadedImages (App.run later a) = App.uploadedImages a.
Proof.
  intros a Hne.
  assert (Hinv : forall a0, (App.uploadedImages a0 <> [] -> App.isDbLoaded a0 = true) ->
            forall e, (App.uploadedImages (App.step a0 e) <> [] ->
                       App.isDbLoaded (App.step a0 e) = true) /\
                      (App.uploadedImages a0 <> [] ->
                       App.uploadedImages (App.step a0 e) = App.uploadedImages a0)).
  { intros a0 Ha0 e. destruct e as [| files | | msg | | | committed]; cbn [App.step].
    - case_eq (App.isDbLoaded a0); intros Hdb; [auto|].
      match goal with
      | |- context [App.loadingEffect a0 ?after] =>
          destruct (loadingEffect_fields a0 after) as (H1 & _ & H3 & _);
          rewrite H1, H3
      end.
      split.
      + intros _. destruct (App.loadFilesFromDB a0); reflexivity.
      + intros Hne0. specialize (Ha0 Hne0). congruence.
    - case_eq (App.uploadControlRendered a0); intros Hctl; [|auto].
      destruct (handleFileUpload_fields files a0) as (-> & _ & _ & -> & _).
      unfold App.uploadControlRendered in Hctl.
      apply andb_true_iff in Hctl. destruct Hctl as [Hctl _].
      apply andb_true_iff in Hctl. destruct Hctl as [Hempty Hdb].
      split; [auto|]. intros Hne0. exfalso. apply Hne0.
      apply Nat.eqb_eq in Hempty.
      destruct (App.uploadedImages a0); [reflexivity | discriminate].
    - match goal with
      | |- context [App.loadingEffect a0 ?after] =>
          destruct (loadingEffect_fields a0 after) as (H1 & _ & H3 & _);
          rewrite H1, H3
      end.
      cbn. auto.
    - cbn. auto.
    - case_eq (App.timers a0); intros; cbn; auto.
    - destruct (resumeSaving_fields a0) as (-> & _ & _ & -> & _). auto.
    - destruct (settleWrite_fields committed a0) as (-> & _ & _ & -> & _). auto. }
  assert (Hreach : App.uploadedImages a <> [] -> App.isDbLoaded a = true).
  { subst a.
    assert (Hinit : App.uploadedImages (App.mount dbAvailable db) <> [] ->
                    App.isDbLoaded (App.mount dbAvailable db) = true).
    { cbn. intros Hc. contradiction. }
    clear Hne. revert Hinit. generalize (App.mount dbAvailable db).
    induction evs as [|e evs IH]; intros a0 Ha0; [exact Ha0|].
    rewrite app_run_cons. apply IH. apply (Hinv a0 Ha0 e). }
  split.
  - unfold App.uploadControlRendered.
    destruct (App.uploadedImages a); [contradiction | reflexivity].
  - clearbody a. revert a Hne Hreach.
    induction later as [|e later IH]; intros a Hne Hreach; [reflexivity|].
    rewrite app_run_cons.
    destruct (Hinv a Hreach e) as [Hdb' Hsame].
    rewrite IH; [apply Hsame, Hne | rewrite (Hsame Hne); exact Hne | exact Hdb'].
Qed.

Lemma photos_are_fixed_once_present_witness :
  App.uploadedImages (App.run sampleSession (App.mount true [])) <> [] /\
  App.uploadedImages
    (App.run [App.FileUpload [Decodable 1 1]]
             (App.run sampleSession (App.mount true [])))
  = [Decodable 4 3; Undecodable].
Proof.
  assert (Hne : App.uploadedImages (App.run sampleSession (App.mount true [])) <> [])
    by discriminate.
  split; [exact Hne|].
  exact (proj2 (photos_are_fixed_once_present true [] sampleSession
                  [App.FileUpload [Decodable 1 1]] Hne)).
Defined.

(** * The scene graph of the particles *)

Lemma isSelfOrAncestor_refl (m : Object3D) : isSelfOrAncestor m m = true.
Proof. rewrite isSelfOrAncestor_unfold, Object3D_eqb_refl. reflexivity. Qed.

Lemma isSelfOrAncestor_child (m c : Object3D) :
  parent c = Some m -> isSelfOrAncestor m c = true.
Proof.
  intros Hc. rewrite isSelfOrAncestor_unfold, Hc, isSelfOrAncestor_refl.
  apply orb_true_r.
Qed.

Lemma frameOf_parent (m : Object3D) : parent (frameOf m) = Some m.
Proof. unfold frameOf. destruct (geometry m); reflexivity. Qed.

Lemma hitMeshOf_parent (m : Object3D) : parent (hitMeshOf m) = Some m.
Proof. unfold hitMeshOf. destruct (geometry m); reflexivity. Qed.

(** X17.  In every reachable state each particle mesh, photos included,
    hangs directly under [mainGroup] ([photoGroup] is never used as a
    parent).  Walking up from the mesh, from its frame or from its hit
    volume stops at the mesh, and looking that mesh up in the collection
    gives back the particle itself: a hit on any part of a particle
    resolves to that particle. *)
Theorem hit_parts_resolve_to_their_particle `{Numerics} (s : State) (i : nat)
    (p : Particle) :
  reachable s -> particles s !! i = Some p ->
  parent (mesh p) = Some mainGroup /\
  climbToRoot (particles s) (mesh p) = mesh p /\
  climbToRoot (particles s) (frameOf (mesh p)) = mesh p /\
  climbToRoot (particles s) (hitMeshOf (mesh p)) = mesh p /\
  List.find (fun p' => Object3D_eqb (mesh p') (mesh p)) (particles s) = Some p.
Proof.
  intros Hreach Hi. destruct (reachable_wellFormed s Hreach) as [Hwf _].
  pose proof (lookup_In _ _ _ Hi) as Hin.
  destruct (sceneWellFormed_particle s p Hwf Hin) as [Hpar Hid].
  split; [exact Hpar|].
  split; [apply climbToRoot_reaches; auto using isSelfOrAncestor_refl|].
  split; [apply climbToRoot_reaches; auto using isSelfOrAncestor_child, frameOf_parent|].
  split; [apply climbToRoot_reaches; auto using isSelfOrAncestor_child, hitMeshOf_parent|].
  destruct (List.find _ (particles s)) as [p'|] eqn:Hfind.
  - apply find_some in Hfind. destruct Hfind as [Hp' Heq].
    apply Object3D_eqb_eq in Heq.
    rewrite (sceneWellFormed_same_mesh s p' p Hwf Hp' Hin Heq). reflexivity.
  - exfalso. pose proof (find_none _ _ Hfind p Hin) as Hno. cbn in Hno.
    rewrite Object3D_eqb_refl in Hno. discriminate.
Qed.

Lemma hit_parts_resolve_to_their_particle_witness :
  @reachable sampleNumerics samplePinching /\
  particles samplePinching !! 800%nat = Some samplePinchingPhoto /\
  climbToRoot (particles samplePinching) (hitMeshOf (mesh samplePinchingPhoto))
    = mesh samplePinchingPhoto.
Proof.
  assert (Hi : particles samplePinching !! 800%nat = Some samplePinchingPhoto).
  { vm_compute. reflexivity. }
  split; [exact samplePinching_reachable|]. split; [exact Hi|].
  destruct (@hit_parts_resolve_to_their_particle sampleNumerics samplePinching 800
              samplePinchingPhoto samplePinching_reachable Hi)
    as (_ & _ & _ & Hhit & _).
  exact Hhit.
Defined.

(** The React state follows the mode in the focused sample scene. *)
Lemma uiMode_follows_mode_witness :
  @reachable sampleNumerics sampleFocus /\
  uiMode sampleFocus = AppMode.FOCUS.
Proof.
  split; [exact sampleFocus_reachable|].
  rewrite (@uiMode_follows_mode sampleNumerics sampleFocus sampleFocus_reachable).
  reflexivity.
Defined.

(** A started service polled three times while the video shows the same
    frame delivers one sample; before [initialize] it delivers none. *)
Example polling_same_frame :
  length (fst (@pollLoop sampleNumerics
                 [(0, sampleFist); (0, sampleFist); (0, sampleFist)]
                 (startWebcam (initialize newService)))) = 1%nat /\
  fst (@pollLoop sampleNumerics [(0, sampleFist)] (startWebcam newService)) = [].
Proof. split; reflexivity. Qed.
